(** * SpecGate: the response interception pipeline of proxy.go

    A shallow embedding of [proxy.go] and [main.go] (package main of
    sorenjohanson/specgate) and of the parts of the Go standard library they
    call, followed by the properties of the interception hook
    [validateResponse], of [parseMode], of [isUndocumentedEndpoint], of the
    [ColoredHandler] log handler, of the constructor [NewValidatingProxy]
    and of [main] with its check [validateSpecUpstreamMatch].

    Go strings are byte sequences: they are [string] here, one [ascii] per
    byte.  A [[]byte] is a [list byte].  Go's [int] and [int64] values are
    [Z]; bytes and runes are [N]. *)

From Stdlib Require Import ZArith NArith Lia DecimalString DecimalPos.
From Stdlib.Strings Require Import Ascii String Byte.
From stdpp Require Import base option list strings gmap.

Local Open Scope Z_scope.

(** ** Bytes and characters *)

Definition byteval (c : ascii) : N := N_of_ascii c.

(** The double quote, the backslash and the escape character, which
    string literals do not spell. *)
Definition dquote : ascii := ascii_of_N 34.
Definition backslash : ascii := ascii_of_N 92.
Definition esc : ascii := ascii_of_N 27.
Definition newline : ascii := ascii_of_N 10.

Definition isUpperByte (b : N) : bool := (65 <=? b)%N && (b <=? 90)%N.
Definition isLowerByte (b : N) : bool := (97 <=? b)%N && (b <=? 122)%N.

(** [c += 'a' - 'A'] on an upper-case ASCII letter, other bytes unchanged. *)
Definition lowerByte (c : ascii) : ascii :=
  if isUpperByte (byteval c) then ascii_of_N (byteval c + 32) else c.

Fixpoint mapBytes (f : ascii → ascii) (s : string) : string :=
  match s with
  | EmptyString => EmptyString
  | String c s' => String (f c) (mapBytes f s')
  end.

Fixpoint allBytes (p : ascii → bool) (s : string) : bool :=
  match s with
  | EmptyString => true
  | String c s' => p c && allBytes p s'
  end.

Fixpoint anyByte (p : ascii → bool) (s : string) : bool :=
  match s with
  | EmptyString => false
  | String c s' => p c || anyByte p s'
  end.

(** The byte at index [i], 0 when out of range (callers check the length
    first, as the Go code does). *)
Definition byteAt (s : string) (i : nat) : N :=
  match String.get i s with
  | Some c => byteval c
  | None => 0%N
  end.

(** ** unicode/utf8 *)

Module utf8.
Local Open Scope N_scope.

Definition RuneError : N := 0xFFFD.
Definition RuneSelf : N := 0x80.
Definition MaxRune : N := 0x10FFFF.
Definition surrogateMin : N := 0xD800.
Definition surrogateMax : N := 0xDFFF.

(** [utf8.DecodeRuneInString]: the first rune of [s] and its width in
    bytes; [(RuneError, 0)] on the empty string and [(RuneError, 1)] on an
    invalid or incomplete encoding.  The three tables of the Go source
    ([first], [acceptRanges]) are written out as the comparisons they
    encode. *)
Definition DecodeRuneInString (s : string) : N * nat :=
  let n := String.length s in
  if (n <? 1)%nat then (RuneError, 0%nat) else
  let s0 := byteAt s 0 in
  if s0 <? RuneSelf then (s0, 1%nat) else
  if (s0 <? 0xC2) || (0xF4 <? s0) then (RuneError, 1%nat) else
  let sz := if s0 <? 0xE0 then 2%nat else if s0 <? 0xF0 then 3%nat else 4%nat in
  let lo := if s0 =? 0xE0 then 0xA0 else if s0 =? 0xF0 then 0x90 else 0x80 in
  let hi := if s0 =? 0xED then 0x9F else if s0 =? 0xF4 then 0x8F else 0xBF in
  if (n <? sz)%nat then (RuneError, 1%nat) else
  let s1 := byteAt s 1 in
  if (s1 <? lo) || (hi <? s1) then (RuneError, 1%nat) else
  if (sz <=? 2)%nat then
    (N.lor (N.shiftl (N.land s0 0x1F) 6) (N.land s1 0x3F), 2%nat) else
  let s2 := byteAt s 2 in
  if (s2 <? 0x80) || (0xBF <? s2) then (RuneError, 1%nat) else
  if (sz <=? 3)%nat then
    (N.lor (N.lor (N.shiftl (N.land s0 0x0F) 12) (N.shiftl (N.land s1 0x3F) 6))
           (N.land s2 0x3F), 3%nat) else
  let s3 := byteAt s 3 in
  if (s3 <? 0x80) || (0xBF <? s3) then (RuneError, 1%nat) else
  (N.lor (N.lor (N.lor (N.shiftl (N.land s0 0x07) 18) (N.shiftl (N.land s1 0x3F) 12))
                (N.shiftl (N.land s2 0x3F) 6))
         (N.land s3 0x3F), 4%nat).

(** The runes of a [for _, c := range s] loop: each step decodes one rune
    and moves on by its width; [skip] counts the continuation bytes of
    the rune decoded last. *)
Fixpoint runesFrom (skip : nat) (s : string) : list N :=
  match s with
  | EmptyString => []
  | String _ s' =>
      match skip with
      | S k => runesFrom k s'
      | O => let '(r, w) := DecodeRuneInString s in r :: runesFrom (w - 1) s'
      end
  end.

Definition runes (s : string) : list N := runesFrom 0 s.

Definition contByte (x : N) : ascii := ascii_of_N (N.lor 0x80 (N.land x 0x3F)).

(** [utf8.AppendRune] on an empty buffer: the UTF-8 encoding of [r];
    surrogates and values above [MaxRune] are encoded as [RuneError]. *)
Definition EncodeRune (r : N) : string :=
  if r <=? 0x7F then String (ascii_of_N r) EmptyString
  else if r <=? 0x7FF then
    String (ascii_of_N (N.lor 0xC0 (N.shiftr r 6))) (String (contByte r) EmptyString)
  else
    let r := if (MaxRune <? r) || ((surrogateMin <=? r) && (r <=? surrogateMax))
             then RuneError else r in
    if r <=? 0xFFFF then
      String (ascii_of_N (N.lor 0xE0 (N.shiftr r 12)))
        (String (contByte (N.shiftr r 6)) (String (contByte r) EmptyString))
    else
      String (ascii_of_N (N.lor 0xF0 (N.shiftr r 18)))
        (String (contByte (N.shiftr r 12))
           (String (contByte (N.shiftr r 6)) (String (contByte r) EmptyString))).
End utf8.

(** ** strings *)

Module strings.

(** [strings.HasPrefix]. *)
Fixpoint HasPrefix (s prefix : string) : bool :=
  match prefix, s with
  | EmptyString, _ => true
  | String _ _, EmptyString => false
  | String p prefix', String c s' => Ascii.eqb p c && HasPrefix s' prefix'
  end.

(** [strings.Contains s substr], that is [strings.Index s substr >= 0]:
    some suffix of [s] starts with [substr]. *)
Fixpoint Contains (s substr : string) : bool :=
  HasPrefix s substr ||
  match s with
  | EmptyString => false
  | String _ s' => Contains s' substr
  end.

Definition isASCII (s : string) : bool :=
  allBytes (fun c => (byteval c <? utf8.RuneSelf)%N) s.

Definition hasUpper (s : string) : bool :=
  anyByte (fun c => isUpperByte (byteval c)) s.

(** [strings.Map mapping s] for a mapping that never returns a negative
    rune: every rune of [s] is replaced by the encoding of its image.  (The
    Go code copies an unchanged prefix as it is; a rune that decodes
    without error re-encodes to the bytes it was read from, and an invalid
    byte is always rewritten, to the encoding of the image of
    [RuneError].) *)
Definition Map (mapping : N → N) (s : string) : string :=
  foldr (fun c acc => utf8.EncodeRune (mapping c) +:+ acc) EmptyString (utf8.runes s).

End strings.

(** The runes of an ASCII string, one per byte. *)
Definition asciiRunes (s : string) : list N :=
  map byteval (list_ascii_of_string s).

(** ** unicode and the case-mapping part of strings

    [unicode.ToLower] answers ASCII runes itself and looks every other rune
    up in the case tables of the unicode package ([unicode.To(LowerCase, r)]).
    Those tables are data of the Go distribution, not of this repository:
    the lookup is the parameter [To_LowerCase]. *)

Section CaseMapping.
Variable To_LowerCase : N → N.

Definition unicode_ToLower (r : N) : N :=
  if (r <=? 0x7F)%N then
    (if isUpperByte r then (r + 32)%N else r)
  else To_LowerCase r.

(** [strings.ToLower]: ASCII-only strings are lowered byte by byte (and
    returned as they are when they hold no upper-case letter), all others
    go through [strings.Map unicode.ToLower]. *)
Definition strings_ToLower (s : string) : string :=
  if strings.isASCII s then
    (if negb (strings.hasUpper s) then s else mapBytes lowerByte s)
  else strings.Map unicode_ToLower s.

(** [s] is a case variant of [w]: rune by rune, the lower-case image of
    [s] is [w]. *)
Definition case_variant (s w : string) : Prop :=
  map unicode_ToLower (utf8.runes s) = utf8.runes w.

(** ** proxy.go: Mode and parseMode *)

Definition Mode : Type := string.
Definition ModeStrict : Mode := "strict"%string.
Definition ModeWarn : Mode := "warn"%string.
Definition ModeReport : Mode := "report"%string.

(** A Go [error] is modelled by its message; [nil] is [None]. *)
Definition error : Type := string.

(** [fmt.Errorf("invalid mode '%s': must be one of 'strict', 'warn', or
    'report'", mode)]. *)
Definition invalidModeError (mode : string) : error :=
  "invalid mode '" +:+ mode +:+ "': must be one of 'strict', 'warn', or 'report'".

Definition parseMode (mode : string) : Mode * option error :=
  let lowered := strings_ToLower mode in
  if String.eqb lowered "strict" then (ModeStrict, None)
  else if String.eqb lowered "warn" then (ModeWarn, None)
  else if String.eqb lowered "report" then (ModeReport, None)
  else (EmptyString, Some (invalidModeError mode)).

(** ** proxy.go: isUndocumentedEndpoint *)

Definition undocumentedPatterns : list string :=
  [ "no matching operation"%string;
    "path not found"%string;
    "no route found"%string;
    "operation not found"%string;
    "no match found"%string;
    "unknown path"%string ].

(** The [for _, pattern := range undocumentedPatterns] loop, which returns
    at the first pattern found. *)
Fixpoint matchesAny (errMsg : string) (patterns : list string) : bool :=
  match patterns with
  | [] => false
  | pattern :: rest =>
      if strings.Contains errMsg pattern then true else matchesAny errMsg rest
  end.

Definition isUndocumentedEndpoint (err : option error) : bool :=
  match err with
  | None => false
  | Some msg =>
      let errMsg := strings_ToLower msg in
      matchesAny errMsg undocumentedPatterns
  end.

End CaseMapping.

(** Case variants of ASCII words, letter by letter: a byte of the variant
    is the byte of the word, or the capital of it when that byte is a
    lower-case letter. *)
Inductive sameLetter : ascii → ascii → Prop :=
| sameLetter_exact (c : ascii) : sameLetter c c
| sameLetter_capital (c d : ascii) :
    isLowerByte (byteval d) = true →
    (byteval c + 32)%N = byteval d →
    sameLetter c d.

Inductive asciiCaseVariant : string → string → Prop :=
| asciiCaseVariant_nil : asciiCaseVariant EmptyString EmptyString
| asciiCaseVariant_cons (c d : ascii) (s w : string) :
    sameLetter c d → asciiCaseVariant s w →
    asciiCaseVariant (String c s) (String d w).

(** A fragment of the lower-case table, enough to run the definitions on
    concrete inputs: Latin-1 capitals and U+0130 (capital I with dot above,
    whose simple lower-case mapping is the ASCII letter i). *)
Definition sampleLowerCase (r : N) : N :=
  if ((0xC0 <=? r) && (r <=? 0xDE) && negb (r =? 0xD7))%N then (r + 32)%N
  else if (r =? 0x130)%N then 0x69%N
  else r.


(** ** strconv *)

Module strconv.

(** [strconv.ParseUint(s, 10, 64)]: a non-empty run of decimal digits whose
    value fits 64 bits.  [None] stands for both of Go's errors ([ErrSyntax],
    [ErrRange]): the caller only tests [err == nil]. *)
Definition ParseUint (s : string) : option N :=
  match NilZero.uint_of_string s with
  | Some d => let un := N.of_uint d in if (un <? 2 ^ 64)%N then Some un else None
  | None => None
  end.

(** [strconv.ParseInt(s, 10, 64)]: an optional sign, then [ParseUint]; the
    value has to fit a signed 64-bit integer. *)
Definition ParseInt (s : string) : option Z :=
  match s with
  | EmptyString => None
  | String c rest =>
      let neg := Ascii.eqb c "-" in
      let digits := if Ascii.eqb c "+" || neg then rest else s in
      match ParseUint digits with
      | None => None
      | Some un =>
          if negb neg && (2 ^ 63 <=? un)%N then None
          else if neg && (2 ^ 63 <? un)%N then None
          else Some (if neg then - Z.of_N un else Z.of_N un)
      end
  end.

(** [strconv.Itoa]: the decimal representation of an integer. *)
Definition Itoa (i : Z) : string := NilZero.string_of_int (Z.to_int i).

End strconv.

(** ** net/http: headers, requests, responses *)

Module http.

(** [http.Header] is [map[string][]string]. *)
Abbreviation Header := (gmap string (list string)).

(** The part of [http.Request] the hook looks at: [Method] and [URL.Path]. *)
Record Request := mkRequest { Method : string; URLPath : string }.

End http.

Module textproto.

(** The token characters of RFC 7230. *)
Definition validHeaderFieldByte (c : ascii) : bool :=
  let b := byteval c in
  isUpperByte b || isLowerByte b || ((48 <=? b)%N && (b <=? 57)%N) ||
  existsb (N.eqb b) [33; 35; 36; 37; 38; 39; 42; 43; 45; 46; 94; 95; 96; 124; 126]%N.

(** The second loop of [canonicalMIMEHeaderKey]: upper case for the first
    letter and after each dash, lower case elsewhere. *)
Fixpoint canonicalize (upper : bool) (a : string) : string :=
  match a with
  | EmptyString => EmptyString
  | String c a' =>
      let b := byteval c in
      let c' := if upper && isLowerByte b then ascii_of_N (b - 32)
                else if negb upper && isUpperByte b then ascii_of_N (b + 32)
                else c in
      String c' (canonicalize (Ascii.eqb c' "-") a')
  end.

(** [textproto.CanonicalMIMEHeaderKey]: a key holding a byte that is not a
    token character is returned as it is. *)
Definition CanonicalMIMEHeaderKey (s : string) : string :=
  if allBytes validHeaderFieldByte s then canonicalize true s else s.

End textproto.

Definition Header_Get (h : http.Header) (key : string) : string :=
  match h !! textproto.CanonicalMIMEHeaderKey key with
  | Some (v :: _) => v
  | _ => EmptyString
  end.

Definition Header_Set (h : http.Header) (key value : string) : http.Header :=
  <[textproto.CanonicalMIMEHeaderKey key := [value]]> h.

Definition Header_Del (h : http.Header) (key : string) : http.Header :=
  delete (textproto.CanonicalMIMEHeaderKey key) h.

(** A one-shot byte stream ([io.ReadCloser] over a connection): the bytes
    not read yet, and what the read after the last byte returns: [io.EOF]
    ([None]) or a transport error. *)
Record Stream := mkStream { unread : list byte; failure : option string }.

(** What [resp.Body] refers to: the stream of the upstream connection, which
    the hook shares with the transport, or a private in-memory reader
    ([io.NopCloser(bytes.NewReader(b))], given by its unread bytes). *)
Inductive ReadCloser :=
| Upstream
| Buffered (data : list byte).

Record Response := mkResponse {
  StatusCode : Z;
  Header : http.Header;
  Body : ReadCloser;
  Request : http.Request
}.

Definition len {A} (l : list A) : Z := Z.of_nat (length l).

Fixpoint takeZ {A} (n : Z) (l : list A) : list A :=
  match l with
  | [] => []
  | x :: l' => if n <=? 0 then [] else x :: takeZ (n - 1) l'
  end.

Fixpoint dropZ {A} (n : Z) (l : list A) : list A :=
  match l with
  | [] => []
  | x :: l' => if n <=? 0 then l else dropZ (n - 1) l'
  end.

(** [io.ReadAll(io.LimitReader(r, n))] on a stream: reads until the stream
    ends or fails, or until [n] bytes have been read, whichever comes first.
    Once [n] bytes are read the limited reader reports EOF without touching
    the stream again. *)
Definition readAllLimited (n : Z) (s : Stream) : (list byte * option string) * Stream :=
  if len (unread s) <? n
  then ((unread s, failure s), mkStream [] (failure s))
  else ((takeZ n (unread s), None), mkStream (dropZ n (unread s)) (failure s)).

(** ** encoding/json: marshalling a [map[string]string] *)

Module json.

Definition hex (n : N) : ascii :=
  match String.get (N.to_nat n) "0123456789abcdef" with
  | Some c => c
  | None => "0"%char
  end.

(** [htmlSafeSet]: the ASCII bytes copied as they are when HTML escaping is
    on (the default of [json.Marshal]). *)
Definition htmlSafe (b : N) : bool :=
  (0x20 <=? b)%N && (b <? 0x80)%N &&
  negb (existsb (N.eqb b) [34; 38; 60; 62; 92]%N).

(** The escape of an ASCII byte outside [htmlSafeSet]. *)
Definition escapeByte (b : N) : string :=
  if (b =? 92)%N || (b =? 34)%N then String backslash (String (ascii_of_N b) EmptyString)
  else if (b =? 8)%N then String backslash "b"
  else if (b =? 12)%N then String backslash "f"
  else if (b =? 10)%N then String backslash "n"
  else if (b =? 13)%N then String backslash "r"
  else if (b =? 9)%N then String backslash "t"
  else String backslash
         ("u00" +:+ String (hex (N.shiftr b 4)) (String (hex (N.land b 0xF)) EmptyString)).

(** The loop of [appendString] (with [escapeHTML] set), without the
    surrounding quotes.  [skip] counts the bytes that belong to the rune
    handled last; they are copied when [copy] is set (a rune kept as it is)
    and dropped otherwise (a rune replaced by an escape). *)
Fixpoint appendStringFrom (skip : nat) (copy : bool) (src : string) : string :=
  match src with
  | EmptyString => EmptyString
  | String c src' =>
      match skip with
      | S k => (if copy then String c EmptyString else EmptyString)
                 +:+ appendStringFrom k copy src'
      | O =>
          let b := byteval c in
          if (b <? utf8.RuneSelf)%N then
            (if htmlSafe b then String c EmptyString else escapeByte b)
              +:+ appendStringFrom 0 true src'
          else
            let '(r, size) := utf8.DecodeRuneInString src in
            if (r =? utf8.RuneError)%N && (size =? 1)%nat then
              String backslash "ufffd" +:+ appendStringFrom 0 true src'
            else if (r =? 0x2028)%N || (r =? 0x2029)%N then
              String backslash ("u202" +:+ String (hex (N.land r 0xF)) EmptyString)
                +:+ appendStringFrom (size - 1) false src'
            else String c (appendStringFrom (size - 1) true src')
      end
  end.

Definition appendString (src : string) : string :=
  String dquote (appendStringFrom 0 true src +:+ String dquote EmptyString).

(** Map keys are emitted in sorted order (byte-wise comparison). *)
Fixpoint insertSorted (kv : string * string) (l : list (string * string))
  : list (string * string) :=
  match l with
  | [] => [kv]
  | kv' :: l' =>
      if String.leb (fst kv) (fst kv') then kv :: l else kv' :: insertSorted kv l'
  end.

Definition sortKeys (m : list (string * string)) : list (string * string) :=
  foldr insertSorted [] m.

Definition field (kv : string * string) : string :=
  appendString (fst kv) +:+ ":" +:+ appendString (snd kv).

Fixpoint fields (l : list (string * string)) : string :=
  match l with
  | [] => EmptyString
  | [kv] => field kv
  | kv :: l' => field kv +:+ "," +:+ fields l'
  end.

(** [json.Marshal] of a [map[string]string], given as the list of the
    entries of the map literal (keys distinct).  It cannot fail. *)
Definition Marshal (m : list (string * string)) : list byte :=
  list_byte_of_string ("{" +:+ fields (sortKeys m) +:+ "}").

End json.

(** ** log/slog: levels, values, records *)

Module slog.

Definition LevelDebug : Z := -4.
Definition LevelInfo : Z := 0.
Definition LevelWarn : Z := 4.
Definition LevelError : Z := 8.

(** [Level.String]: the name of the level below, with the distance to it
    printed by [%+d] when it is not zero. *)
Definition Level_String (l : Z) : string :=
  let str (base : string) (val : Z) : string :=
    if val =? 0 then base
    else base +:+ (if 0 <? val then "+" else EmptyString) +:+ strconv.Itoa val in
  if l <? LevelInfo then str "DEBUG"%string (l - LevelDebug)
  else if l <? LevelWarn then str "INFO"%string (l - LevelInfo)
  else if l <? LevelError then str "WARN"%string (l - LevelWarn)
  else str "ERROR"%string (l - LevelError).

(** The kinds of [slog.Value] proxy.go logs: strings, integers ([int] and
    [int64] both become [KindInt64]) and errors (under [KindAny]). *)
Inductive Value :=
| StringValue (s : string)
| Int64Value (i : Z)
| AnyValue (err : string).

(** [Value.String], which [%v] prints. *)
Definition Value_String (v : Value) : string :=
  match v with
  | StringValue s => s
  | Int64Value i => strconv.Itoa i
  | AnyValue err => err
  end.

Record Attr := mkAttr { Key : string; Val : Value }.

(** The fields of [slog.Record] the handler reads. *)
Record LogRecord := mkLogRecord {
  Level : Z;
  Message : string;
  Attrs : list Attr
}.

End slog.

(** ** proxy.go: ColoredHandler

    Handlers are used through pointers and their attributes are a slice:
    both live in a heap, so that sharing between a handler and the handlers
    derived from it can be stated. *)

Definition loc : Type := positive.

(** A slice: [nil], or a window into a backing array. *)
Inductive Slice :=
| NilSlice
| MkSlice (array : loc) (offset length capacity : nat).

Record ColoredHandler := mkColoredHandler {
  output : loc;
  level : Z;
  attrs : Slice
}.

Record Heap := mkHeap {
  arrays : gmap loc (list slog.Attr);
  handlers : gmap loc ColoredHandler;
  writers : gmap loc string
}.

Definition Slice_len (s : Slice) : nat :=
  match s with
  | NilSlice => 0%nat
  | MkSlice _ _ n _ => n
  end.

(** The elements a slice shows. *)
Definition Slice_elems (σ : Heap) (s : Slice) : list slog.Attr :=
  match s with
  | NilSlice => []
  | MkSlice a off n _ => take n (drop off (default [] (arrays σ !! a)))
  end.

(** A slice is valid in a heap when its window lies inside its array. *)
Definition Slice_valid (σ : Heap) (s : Slice) : Prop :=
  match s with
  | NilSlice => True
  | MkSlice a off n c =>
      ∃ arr, arrays σ !! a = Some arr ∧ (n ≤ c)%nat ∧ (off + c ≤ length arr)%nat
  end.

Definition zeroAttr : slog.Attr := slog.mkAttr EmptyString (slog.AnyValue EmptyString).

(** [make([]slog.Attr, n)]: a new array of [n] zero attributes. *)
Definition make (n : nat) (σ : Heap) : Slice * Heap :=
  let a := fresh (dom (arrays σ)) in
  (MkSlice a 0 n n,
   mkHeap (<[a := replicate n zeroAttr]> (arrays σ)) (handlers σ) (writers σ)).

(** [s[i:]]; [None] is the run-time panic for [i > len(s)]. *)
Definition Slice_from (s : Slice) (i : nat) : option Slice :=
  match s with
  | NilSlice => if decide (i = 0%nat) then Some NilSlice else None
  | MkSlice a off n c =>
      if decide (i ≤ n)%nat then Some (MkSlice a (off + i) (n - i) (c - i)) else None
  end.

(** [copy(dst, src)]: copies [min(len(dst), len(src))] elements and returns
    their number. *)
Definition copy (dst src : Slice) (σ : Heap) : nat * Heap :=
  let n := Nat.min (Slice_len dst) (Slice_len src) in
  let elems := take n (Slice_elems σ src) in
  match dst with
  | NilSlice => (n, σ)
  | MkSlice a off _ _ =>
      (n, mkHeap (alter (fun arr => take off arr ++ elems ++ drop (off + n) arr) a (arrays σ))
                 (handlers σ) (writers σ))
  end.

(** [&ColoredHandler{...}]: a new handler object. *)
Definition newHandler (h : ColoredHandler) (σ : Heap) : loc * Heap :=
  let p := fresh (dom (handlers σ)) in
  (p, mkHeap (arrays σ) (<[p := h]> (handlers σ)) (writers σ)).

Definition Enabled (h : ColoredHandler) (lvl : Z) : bool := lvl >=? level h.

(** [(h *ColoredHandler) WithAttrs(attrs)]; [None] is a run-time panic (a
    dangling receiver). *)
Definition WithAttrs (h : loc) (attrs' : Slice) (σ : Heap) : option (loc * Heap) :=
  hobj ← handlers σ !! h;
  let '(newAttrs, σ1) := make (Slice_len (attrs hobj) + Slice_len attrs') σ in
  let '(_, σ2) := copy newAttrs (attrs hobj) σ1 in
  tail ← Slice_from newAttrs (Slice_len (attrs hobj));
  let '(_, σ3) := copy tail attrs' σ2 in
  Some (newHandler (mkColoredHandler (output hobj) (level hobj) newAttrs) σ3).

Definition WithGroup (h : loc) (name : string) (σ : Heap) : loc * Heap := (h, σ).

Definition colorReset : string := String esc "[0m".
Definition colorRed : string := String esc "[31m".
Definition colorYellow : string := String esc "[33m".
Definition colorGreen : string := String esc "[32m".
Definition colorBlue : string := String esc "[34m".
Definition colorGray : string := String esc "[90m".

(** The wall clock read by [time.Now()], as far as the layout [15:04:05]
    shows it. *)
Record Time := mkTime { hour : Z; minute : Z; second : Z }.

Definition twoDigits (n : Z) : string :=
  if n <? 10 then "0" +:+ strconv.Itoa n else strconv.Itoa n.

Definition Time_Format (t : Time) : string :=
  twoDigits (hour t) +:+ ":" +:+ twoDigits (minute t) +:+ ":" +:+ twoDigits (second t).

Definition levelColor (l : Z) : string :=
  if l =? slog.LevelError then colorRed
  else if l =? slog.LevelWarn then colorYellow
  else if l =? slog.LevelInfo then colorGreen
  else if l =? slog.LevelDebug then colorBlue
  else colorReset.

Definition renderAttr (a : slog.Attr) : string :=
  " " +:+ slog.Key a +:+ "=" +:+ slog.Value_String (slog.Val a).

Fixpoint renderAttrs (l : list slog.Attr) : string :=
  match l with
  | [] => EmptyString
  | a :: l' => renderAttr a +:+ renderAttrs l'
  end.

(** The line [Handle] builds: call-site attributes first, then the
    attributes bound to the handler. *)
Definition renderLine (now : Time) (record : slog.LogRecord) (bound : list slog.Attr)
  : string :=
  colorGray +:+ Time_Format now +:+ " " +:+
  levelColor (slog.Level record) +:+ slog.Level_String (slog.Level record) +:+ colorReset +:+
  " " +:+ slog.Message record +:+
  renderAttrs (slog.Attrs record) +:+
  renderAttrs bound +:+
  String newline EmptyString.

(** [(h *ColoredHandler) Handle(ctx, record)]: writes the line to
    [h.output].  The result is the error of the write; [None] for the whole
    call is a run-time panic (a dangling receiver). *)
Definition Handle (h : loc) (now : Time) (record : slog.LogRecord) (σ : Heap)
  : option (option string * Heap) :=
  hobj ← handlers σ !! h;
  let line := renderLine now record (Slice_elems σ (attrs hobj)) in
  match writers σ !! output hobj with
  | Some written =>
      Some (None, mkHeap (arrays σ) (handlers σ)
                         (<[output hobj := written +:+ line]> (writers σ)))
  | None => Some (Some "write on a closed writer"%string, σ)
  end.

(** ** proxy.go: ValidatingProxy and the interception hook *)

(** [routers.Route], as far as it identifies the operation. *)
Record Route := mkRoute { RoutePath : string; RouteMethod : string }.

(** [openapi3filter.ResponseValidationInput]; [vBody] are the bytes the
    validator reads from its own reader. *)
Record ResponseValidationInput := mkResponseValidationInput {
  vRequest : http.Request;
  vPathParams : gmap string string;
  vRoute : Route;
  vStatus : Z;
  vHeader : http.Header;
  vBody : list byte
}.

(** The fields of [ValidatingProxy] the hook uses.  [router] is
    [vp.router.FindRoute]: a route with its path parameters, or an error. *)
Record ValidatingProxy := mkValidatingProxy {
  mode : Mode;
  logger : ColoredHandler;
  router : http.Request → (Route * gmap string string) + error
}.

(** What the hook acts on: the stream of the upstream connection, the
    response object it mutates in place, and the records its logger has
    handed to the handler. *)
Record World := mkWorld {
  conn : Stream;
  resp : Response;
  log : list slog.LogRecord
}.

(** State passing for the hook. *)
Definition Hook (A : Type) : Type := World → A * World.

Definition hret {A} (a : A) : Hook A := fun w => (a, w).

Definition hbind {A B} (m : Hook A) (k : A → Hook B) : Hook B :=
  fun w => let '(a, w') := m w in k a w'.

Declare Scope hook_scope.
Delimit Scope hook_scope with hook.
Notation "'let*' x ':=' m 'in' k" := (hbind m (fun x => k))
  (at level 10, x pattern, m at level 100, k at level 200) : hook_scope.
Notation "m ';;' k" := (hbind m (fun _ => k))
  (at level 100, k at level 200, right associativity) : hook_scope.

Definition getResp : Hook Response := fun w => (resp w, w).

(** The in-place updates of the response object. *)
Definition withBody (b : ReadCloser) (w : World) : World :=
  mkWorld (conn w)
    (mkResponse (StatusCode (resp w)) (Header (resp w)) b (Request (resp w)))
    (log w).

Definition withStatusCode (code : Z) (w : World) : World :=
  mkWorld (conn w)
    (mkResponse code (Header (resp w)) (Body (resp w)) (Request (resp w)))
    (log w).

Definition withHeader (f : http.Header → http.Header) (w : World) : World :=
  mkWorld (conn w)
    (mkResponse (StatusCode (resp w)) (f (Header (resp w))) (Body (resp w))
       (Request (resp w)))
    (log w).

Definition setBody (b : ReadCloser) : Hook unit := fun w => (tt, withBody b w).
Definition setStatusCode (code : Z) : Hook unit := fun w => (tt, withStatusCode code w).
Definition updHeader (f : http.Header → http.Header) : Hook unit := fun w => (tt, withHeader f w).

(** [io.ReadAll(io.LimitReader(resp.Body, n))]: the read advances whatever
    [resp.Body] refers to. *)
Definition ReadAll_LimitReader (n : Z) : Hook (list byte * option error) := fun w =>
  match Body (resp w) with
  | Upstream =>
      let '(r, s') := readAllLimited n (conn w) in
      (r, mkWorld s' (resp w) (log w))
  | Buffered data =>
      let '(r, s') := readAllLimited n (mkStream data None) in
      (r, withBody (Buffered (unread s')) w)
  end.

(** The [log] method of [slog.Logger]: the record reaches the handler when
    the handler is enabled for its level. *)
Definition emit (l : ColoredHandler) (lvl : Z) (msg : string) (args : list slog.Attr)
    (w : World) : World :=
  if Enabled l lvl
  then mkWorld (conn w) (resp w) (log w ++ [slog.mkLogRecord lvl msg args])
  else w.

Definition Logger_log (l : ColoredHandler) (lvl : Z) (msg : string)
    (args : list slog.Attr) : Hook unit := fun w => (tt, emit l lvl msg args w).

Definition Logger_Warn (l : ColoredHandler) := Logger_log l slog.LevelWarn.
Definition Logger_Error (l : ColoredHandler) := Logger_log l slog.LevelError.

Definition maxSize : Z := 10 * 1024 * 1024.

(** [fmt.Errorf("route finding error: %w", err)]. *)
Definition routeFindingError (err : error) : error := "route finding error: " +:+ err.

Section Pipeline.
Variable To_LowerCase : N → N.

(** [openapi3filter.ValidateResponse]: [None] when the response conforms,
    the validation error otherwise. *)
Variable ValidateResponse : ResponseValidationInput → option error.

Local Open Scope hook_scope.

Definition validateResponse (vp : ValidatingProxy) : Hook (option error) :=
  let* r := getResp in
  let contentType := Header_Get (Header r) "Content-Type" in
  if negb (strings.Contains contentType "application/json") then hret None else

  let contentLength := Header_Get (Header r) "Content-Length" in
  let declared :=
    if negb (String.eqb contentLength EmptyString) then
      match strconv.ParseInt contentLength with
      | Some size => if size >? maxSize then Some size else None
      | None => None
      end
    else None in
  match declared with
  | Some size =>
      Logger_Warn (logger vp) "Response too large, skipping validation"
        [slog.mkAttr "size" (slog.Int64Value size)] ;;
      hret None
  | None =>

  let* (bodyBytes, err) := ReadAll_LimitReader (maxSize + 1) in
  match err with
  | Some e => hret (Some e)
  | None =>

  if len bodyBytes >? maxSize then
    Logger_Warn (logger vp) "Response too large, skipping validation"
      [slog.mkAttr "size" (slog.Int64Value (len bodyBytes))] ;;
    hret None
  else

  setBody (Buffered bodyBytes) ;;

  match router vp (Request r) with
  | inr err =>
      if isUndocumentedEndpoint To_LowerCase (Some err) then
        Logger_Warn (logger vp) "Undocumented endpoint"
          [slog.mkAttr "method" (slog.StringValue (http.Method (Request r)));
           slog.mkAttr "path" (slog.StringValue (http.URLPath (Request r)))] ;;
        hret None
      else
        Logger_Error (logger vp) "Error finding route"
          [slog.mkAttr "error" (slog.AnyValue err);
           slog.mkAttr "method" (slog.StringValue (http.Method (Request r)));
           slog.mkAttr "path" (slog.StringValue (http.URLPath (Request r)))] ;;
        hret (Some (routeFindingError err))
  | inl (route, pathParams) =>

  let input :=
    mkResponseValidationInput (Request r) pathParams route
      (StatusCode r) (Header r) bodyBytes in
  match ValidateResponse input with
  | Some err =>
      Logger_Error (logger vp) "Response validation failed"
        [slog.mkAttr "error" (slog.AnyValue err);
         slog.mkAttr "method" (slog.StringValue (http.Method (Request r)));
         slog.mkAttr "path" (slog.StringValue (http.URLPath (Request r)));
         slog.mkAttr "status" (slog.Int64Value (StatusCode r))] ;;
      if String.eqb (mode vp) ModeStrict then
        let errorBody := json.Marshal
          [ ("error"%string, "Response validation failed"%string);
            ("details"%string, err) ] in
        setBody (Buffered errorBody) ;;
        setStatusCode 500 ;;
        updHeader (fun h => Header_Set h "Content-Type" "application/json") ;;
        updHeader (fun h => Header_Set h "Content-Length" (strconv.Itoa (len errorBody))) ;;
        updHeader (fun h => Header_Del h "Content-Encoding") ;;
        updHeader (fun h => Header_Del h "Transfer-Encoding") ;;
        updHeader (fun h => Header_Del h "ETag") ;;
        updHeader (fun h => Header_Del h "Last-Modified") ;;
        hret None
      else hret None
  | None => hret None
  end
  end
  end
  end.

(** ** net/http/httputil: what ReverseProxy does with the hook

    [NewValidatingProxy] installs the hook as [ModifyResponse] and sets no
    [ErrorHandler].  When the hook returns [nil], [ServeHTTP] copies the
    header, the status code and the body of the response object to the
    client; when it returns an error, the response is closed and the
    default error handler answers 502 Bad Gateway with no header and no
    body. *)

Record ClientResponse := mkClientResponse {
  clientStatus : Z;
  clientHeader : http.Header;
  clientBody : list byte;
  clientAbort : option error
}.

(** The response the client receives when the response object of [w] is
    copied out: the body is read to its end, and a failing stream aborts
    the transfer after the bytes read so far. *)
Definition copyResponse (w : World) : ClientResponse :=
  match Body (resp w) with
  | Upstream =>
      mkClientResponse (StatusCode (resp w)) (Header (resp w))
        (unread (conn w)) (failure (conn w))
  | Buffered data =>
      mkClientResponse (StatusCode (resp w)) (Header (resp w)) data None
  end.

Definition badGateway : ClientResponse := mkClientResponse 502 ∅ [] None.

Definition ReverseProxy_respond (vp : ValidatingProxy) (w : World)
  : ClientResponse * World :=
  let '(err, w') := validateResponse vp w in
  match err with
  | None => (copyResponse w', w')
  | Some _ => (badGateway, w')
  end.

End Pipeline.

(** The handler [NewValidatingProxy] gives the logger:
    [&ColoredHandler{output: os.Stderr, level: slog.LevelInfo}]. *)
Definition stderr : loc := 2%positive.
Definition defaultHandler : ColoredHandler :=
  mkColoredHandler stderr slog.LevelInfo NilSlice.

(** ** Vocabulary of the statements *)

(** The response declares JSON content. *)
Definition isJSON (h : http.Header) : Prop :=
  strings.Contains (Header_Get h "Content-Type") "application/json" = true.

(** The response declares no length above the ceiling: its Content-Length
    header is absent, is not a 64-bit decimal integer, or is at most
    [maxSize]. *)
Definition declaredWithin (h : http.Header) : Prop :=
  ∀ size, strconv.ParseInt (Header_Get h "Content-Length") = Some size → size ≤ maxSize.

(** A response that reaches route resolution: it comes from the upstream
    connection, declares JSON, declares no length above the ceiling, and
    its body is read to the end without error and is at most [maxSize] bytes
    long. *)
Definition eligible (w : World) : Prop :=
  Body (resp w) = Upstream ∧
  isJSON (Header (resp w)) ∧
  declaredWithin (Header (resp w)) ∧
  failure (conn w) = None ∧
  len (unread (conn w)) ≤ maxSize.

(** The state of the hook once the whole body is buffered: the connection
    is drained and [resp.Body] is a reader over the bytes read. *)
Definition buffered (w : World) : World :=
  withBody (Buffered (unread (conn w)))
    (mkWorld (mkStream [] (failure (conn w))) (resp w) (log w)).

(** The input the hook builds for the validator. *)
Definition validationInput (w : World) (route : Route) (pathParams : gmap string string)
  : ResponseValidationInput :=
  mkResponseValidationInput (Request (resp w)) pathParams route
    (StatusCode (resp w)) (Header (resp w)) (unread (conn w)).

(** Validation of the response is reached and fails with detail [d]. *)
Definition validationFails
    (ValidateResponse : ResponseValidationInput → option error)
    (vp : ValidatingProxy) (w : World) (d : error) : Prop :=
  eligible w ∧
  ∃ route pathParams,
    router vp (Request (resp w)) = inl (route, pathParams) ∧
    ValidateResponse (validationInput w route pathParams) = Some d.

(** A substring in the usual sense. *)
Definition substring (sub s : string) : Prop :=
  ∃ before after, s = before +:+ sub +:+ after.

(** The records of the two size gates and of the later stages. *)
Definition tooLargeRecord (size : Z) : slog.LogRecord :=
  slog.mkLogRecord slog.LevelWarn "Response too large, skipping validation"
    [slog.mkAttr "size" (slog.Int64Value size)].

Definition requestAttrs (r : http.Request) : list slog.Attr :=
  [slog.mkAttr "method" (slog.StringValue (http.Method r));
   slog.mkAttr "path" (slog.StringValue (http.URLPath r))].

Definition undocumentedRecord (r : http.Request) : slog.LogRecord :=
  slog.mkLogRecord slog.LevelWarn "Undocumented endpoint" (requestAttrs r).

Definition routeErrorRecord (err : error) (r : http.Request) : slog.LogRecord :=
  slog.mkLogRecord slog.LevelError "Error finding route"
    (slog.mkAttr "error" (slog.AnyValue err) :: requestAttrs r).

Definition validationFailedRecord (err : error) (r : http.Request) (status : Z) : slog.LogRecord :=
  slog.mkLogRecord slog.LevelError "Response validation failed"
    (slog.mkAttr "error" (slog.AnyValue err) :: requestAttrs r ++
     [slog.mkAttr "status" (slog.Int64Value status)]).

(** Appending a record to the log. *)
Definition logged (rec : slog.LogRecord) (w : World) : World :=
  mkWorld (conn w) (resp w) (log w ++ [rec]).

(** The Strict-mode rewrite of the response object. *)
Definition rewritten (d : error) (w : World) : World :=
  let errorBody := json.Marshal
    [ ("error"%string, "Response validation failed"%string); ("details"%string, d) ] in
  withHeader (fun h => Header_Del h "Last-Modified")
   (withHeader (fun h => Header_Del h "ETag")
    (withHeader (fun h => Header_Del h "Transfer-Encoding")
     (withHeader (fun h => Header_Del h "Content-Encoding")
      (withHeader (fun h => Header_Set h "Content-Length" (strconv.Itoa (len errorBody)))
       (withHeader (fun h => Header_Set h "Content-Type" "application/json")
        (withStatusCode 500
         (withBody (Buffered errorBody) w))))))).

(** A string literal between double quotes, for texts that need no
    escape. *)
Definition jstr (s : string) : string := String dquote (s +:+ String dquote EmptyString).

(** The body of the Strict-mode error response for the detail [d]: the JSON
    object with the keys in the order [json.Marshal] emits them. *)
Definition errorBodyText (d : error) : string :=
  "{" +:+ jstr "details" +:+ ":" +:+ json.appendString d +:+ ","
      +:+ jstr "error" +:+ ":" +:+ jstr "Response validation failed" +:+ "}".

(** The line a handler would write for a record, given the clock. *)
Definition emitted (σ : Heap) (h : loc) (now : Time) (record : slog.LogRecord)
  : option string :=
  hobj ← handlers σ !! h;
  Some (renderLine now record (Slice_elems σ (attrs hobj))).

(** ** Sample inputs *)

Definition bytes (s : string) : list byte := list_byte_of_string s.

Definition sampleRequest : http.Request := http.mkRequest "GET" "/users/1".

Definition sampleRoute : Route := mkRoute "/users/{id}" "GET".

Definition resolving : http.Request → (Route * gmap string string) + error :=
  fun _ => inl (sampleRoute, {[ "id"%string := "1"%string ]}).

Definition failing (msg : error) : http.Request → (Route * gmap string string) + error :=
  fun _ => inr msg.

Definition accepting : ResponseValidationInput → option error := fun _ => None.

Definition rejecting (d : error) : ResponseValidationInput → option error :=
  fun _ => Some d.

Definition sampleProxy (m : Mode)
    (r : http.Request → (Route * gmap string string) + error) : ValidatingProxy :=
  mkValidatingProxy m defaultHandler r.

(** An upstream response as the transport hands it to the hook. *)
Definition upstreamResponse (status : Z) (h : http.Header) (body : list byte) : World :=
  mkWorld (mkStream body None) (mkResponse status h Upstream sampleRequest) [].

Definition jsonHeader : http.Header :=
  {[ "Content-Type"%string := ["application/json"%string] ]}.

Definition htmlHeader : http.Header :=
  {[ "Content-Type"%string := ["text/html; charset=utf-8"%string] ]}.

Definition sampleBody : list byte := bytes "{}".

(** A body one byte longer than the ceiling, and one of exactly the
    ceiling. *)
Definition oversizeBody : list byte := replicate (Z.to_nat (maxSize + 1)) "a"%byte.
Definition ceilingBody : list byte := replicate (Z.to_nat maxSize) "a"%byte.

(** The validation detail of the example and the body the Strict-mode
    response is said to have for it, with the key "error" first. *)
Definition exampleDetail : error := "field 'id' required"%string.

Definition claimedBodyText : string :=
  "{" +:+ jstr "error" +:+ ":" +:+ jstr "Response validation failed" +:+ ","
      +:+ jstr "details" +:+ ":" +:+ jstr "field 'id' required" +:+ "}".

Definition exampleBodyText : string :=
  "{" +:+ jstr "details" +:+ ":" +:+ jstr "field 'id' required" +:+ ","
      +:+ jstr "error" +:+ ":" +:+ jstr "Response validation failed" +:+ "}".

(** The header keys the Strict-mode rewrite sets or deletes, as the map
    stores them. *)
Definition rewrittenKeys : list string :=
  [ "Content-Type"%string; "Content-Length"%string; "Content-Encoding"%string;
    "Transfer-Encoding"%string; "Etag"%string; "Last-Modified"%string ].

Definition cachedHeader : http.Header :=
  <[ "Content-Encoding"%string := ["gzip"%string] ]>
  (<[ "Etag"%string := ["123456"%string] ]>
  (<[ "X-http.Request-Id"%string := ["42"%string] ]> jsonHeader)).

(** A JSON response header with a Content-Length value. *)
Definition lengthHeader (contentLength : string) : http.Header :=
  <[ "Content-Length"%string := [contentLength] ]> jsonHeader.

(** A heap with one handler, bound to one attribute, and a slice of new
    attributes over a second array. *)
Definition serviceAttr : slog.Attr := slog.mkAttr "service" (slog.StringValue "specgate").
Definition requestAttr : slog.Attr := slog.mkAttr "request" (slog.Int64Value 42).

Definition baseHandler : ColoredHandler :=
  mkColoredHandler stderr slog.LevelInfo (MkSlice 1%positive 0 1 1).

Definition sampleHeap : Heap :=
  mkHeap (<[ 2%positive := [requestAttr; zeroAttr] ]> {[ 1%positive := [serviceAttr] ]})
         {[ 1%positive := baseHandler ]}
         {[ stderr := EmptyString ]}.

Definition sampleArgs : Slice := MkSlice 2%positive 0 1 2.

(** ** The outcomes of the hook

    The eight ways through [validateResponse] for a response whose body is
    the upstream stream, each with the result and the state it leaves. *)

Inductive hookOutcome
    (To_LowerCase : N → N)
    (ValidateResponse : ResponseValidationInput → option error)
    (vp : ValidatingProxy) (w : World) : option error → World → Prop :=
| outcome_not_json :
    strings.Contains (Header_Get (Header (resp w)) "Content-Type") "application/json"
      = false →
    hookOutcome To_LowerCase ValidateResponse vp w None w
| outcome_declared_too_large (size : Z) :
    isJSON (Header (resp w)) →
    strconv.ParseInt (Header_Get (Header (resp w)) "Content-Length") = Some size →
    maxSize < size →
    hookOutcome To_LowerCase ValidateResponse vp w None
      (emit (logger vp) slog.LevelWarn "Response too large, skipping validation"
         [slog.mkAttr "size" (slog.Int64Value size)] w)
| outcome_read_too_large :
    isJSON (Header (resp w)) →
    declaredWithin (Header (resp w)) →
    maxSize < len (unread (conn w)) →
    hookOutcome To_LowerCase ValidateResponse vp w None
      (emit (logger vp) slog.LevelWarn "Response too large, skipping validation"
         [slog.mkAttr "size" (slog.Int64Value (maxSize + 1))]
         (mkWorld (mkStream (dropZ (maxSize + 1) (unread (conn w))) (failure (conn w)))
            (resp w) (log w)))
| outcome_read_error (e : error) :
    isJSON (Header (resp w)) →
    declaredWithin (Header (resp w)) →
    len (unread (conn w)) ≤ maxSize →
    failure (conn w) = Some e →
    hookOutcome To_LowerCase ValidateResponse vp w (Some e)
      (mkWorld (mkStream [] (Some e)) (resp w) (log w))
| outcome_undocumented (msg : error) :
    eligible w →
    router vp (Request (resp w)) = inr msg →
    isUndocumentedEndpoint To_LowerCase (Some msg) = true →
    hookOutcome To_LowerCase ValidateResponse vp w None
      (emit (logger vp) slog.LevelWarn "Undocumented endpoint"
         (requestAttrs (Request (resp w))) (buffered w))
| outcome_route_error (msg : error) :
    eligible w →
    router vp (Request (resp w)) = inr msg →
    isUndocumentedEndpoint To_LowerCase (Some msg) = false →
    hookOutcome To_LowerCase ValidateResponse vp w (Some (routeFindingError msg))
      (emit (logger vp) slog.LevelError "Error finding route"
         (slog.mkAttr "error" (slog.AnyValue msg) :: requestAttrs (Request (resp w)))
         (buffered w))
| outcome_valid (route : Route) (pathParams : gmap string string) :
    eligible w →
    router vp (Request (resp w)) = inl (route, pathParams) →
    ValidateResponse (validationInput w route pathParams) = None →
    hookOutcome To_LowerCase ValidateResponse vp w None (buffered w)
| outcome_invalid (d : error) :
    validationFails ValidateResponse vp w d →
    hookOutcome To_LowerCase ValidateResponse vp w None
      (let w' := emit (logger vp) slog.LevelError "Response validation failed"
                   (slog.mkAttr "error" (slog.AnyValue d)
                      :: requestAttrs (Request (resp w))
                      ++ [slog.mkAttr "status" (slog.Int64Value (StatusCode (resp w)))])
                   (buffered w) in
       if String.eqb (mode vp) ModeStrict then rewritten d w' else w').

(** An upstream response whose stream fails after the bytes of [body]. *)
Definition failingResponse (status : Z) (h : http.Header) (body : list byte) (e : error)
  : World :=
  mkWorld (mkStream body (Some e)) (mkResponse status h Upstream sampleRequest) [].



(** ** net/url and the OpenAPI packages, as far as the program uses them *)

Module url.

(** [url.Userinfo]. *)
Record Userinfo := mkUserinfo {
  username : string;
  password : string;
  passwordSet : bool
}.

(** [url.URL]. *)
Record URL := mkURL {
  Scheme : string;
  Opaque : string;
  User : option Userinfo;
  Host : string;
  Path : string;
  RawPath : string;
  OmitHost : bool;
  ForceQuery : bool;
  RawQuery : string;
  Fragment : string;
  RawFragment : string
}.

End url.

Module openapi3.

(** [openapi3.ServerVariable] and [openapi3.Server] (without their
    extension maps). *)
Record ServerVariable := mkServerVariable {
  Enum : list string;
  Default : string;
  VariableDescription : string
}.

Record Server := mkServer {
  URL : string;
  Description : string;
  Variables : gmap string ServerVariable
}.

(** [openapi3.T]: the servers block, which the constructor overrides, and
    the rest of the document. *)
Record T (Doc : Type) := mkT {
  Servers : list Server;
  Document : Doc
}.
Arguments mkT {Doc} _ _.
Arguments Servers {Doc} _.
Arguments Document {Doc} _.

End openapi3.

(** [routers.Router], by its method [FindRoute]. *)
Definition Router : Type := http.Request → (Route * gmap string string) + error.

(** The calls that reach the file system or the network while a proxy is
    constructed. *)
Inductive LoaderCall :=
| CallLoadFromURI (location : url.URL)
| CallLoadFromFile (location : string).

(** The struct [NewValidatingProxy] fills.  [proxyMode], [proxyLogger] and
    [proxyRouter] are the fields [mode], [logger] and [router], the ones the
    hook uses; a router that is [None] is Go's nil.  The field [proxy] holds
    two closures over the other fields: the director over [upstream] and
    the method value [validateResponse]. *)
Record ProxyValue (Doc : Type) := mkProxyValue {
  spec : openapi3.T Doc;
  upstream : url.URL;
  proxyMode : Mode;
  proxyLogger : ColoredHandler;
  proxyRouter : option Router
}.
Arguments mkProxyValue {Doc} _ _ _ _ _.
Arguments spec {Doc} _.
Arguments upstream {Doc} _.
Arguments proxyMode {Doc} _.
Arguments proxyLogger {Doc} _.
Arguments proxyRouter {Doc} _.

(** The view of the struct the hook has, when the router is not nil. *)
Definition hookFields {Doc} (p : ProxyValue Doc) : option ValidatingProxy :=
  match proxyRouter p with
  | Some r => Some (mkValidatingProxy (proxyMode p) (proxyLogger p) r)
  | None => None
  end.

(** The fields of the outgoing [http.Request] the director sets: [URL] and
    [Host]. *)
Record Outgoing := mkOutgoing { outURL : url.URL; outHost : string }.

(** The [Director] of the reverse proxy:
    [req.URL.Scheme = upstream.Scheme; req.URL.Host = upstream.Host;
     req.Host = upstream.Host]. *)
Definition Director (upstream : url.URL) (req : Outgoing) : Outgoing :=
  let u := outURL req in
  mkOutgoing
    (url.mkURL (url.Scheme upstream) (url.Opaque u) (url.User u) (url.Host upstream)
       (url.Path u) (url.RawPath u) (url.OmitHost u) (url.ForceQuery u)
       (url.RawQuery u) (url.Fragment u) (url.RawFragment u))
    (url.Host upstream).

Section Construction.
Variable To_LowerCase : N → N.

(** The document type of the OpenAPI package and the functions of the
    packages net/url, openapi3 and gorillamux: [url.Parse],
    [Loader.LoadFromURI], [Loader.LoadFromFile] and [gorillamux.NewRouter]
    (which returns a router and an error, as in Go). *)
Variable Doc : Type.
Variable url_Parse : string → url.URL + error.
Variable Loader_LoadFromURI : url.URL → openapi3.T Doc + error.
Variable Loader_LoadFromFile : string → openapi3.T Doc + error.
Variable gorillamux_NewRouter : openapi3.T Doc → option Router * option error.

(** The part of [NewValidatingProxy] after the load: [loaded] is what the
    loader returned, [calls] the loader calls made. *)
Definition NewValidatingProxy_loaded (upstreamURL : string) (validMode : Mode)
    (loaded : openapi3.T Doc + error) (calls : list LoaderCall)
  : (option (ProxyValue Doc) * option error) * list LoaderCall :=
  match loaded with
  | inr err => ((None, Some ("failed to load spec: " +:+ err)), calls)
  | inl spec =>
      match url_Parse upstreamURL with
      | inr err => ((None, Some ("invalid upstream URL: " +:+ err)), calls)
      | inl upstream =>
          let spec :=
            openapi3.mkT [openapi3.mkServer upstreamURL EmptyString ∅]
              (openapi3.Document spec) in
          let logger := mkColoredHandler stderr slog.LevelInfo NilSlice in
          let '(router, _) := gorillamux_NewRouter spec in
          ((Some (mkProxyValue spec upstream validMode logger router), None), calls)
      end
  end.

Definition NewValidatingProxy (specPath upstreamURL mode : string)
  : (option (ProxyValue Doc) * option error) * list LoaderCall :=
  let '(validMode, err) := parseMode To_LowerCase mode in
  match err with
  | Some err => ((None, Some err), [])
  | None =>
      if strings.HasPrefix specPath "http://" || strings.HasPrefix specPath "https://"
      then
        match url_Parse specPath with
        | inr parseErr => ((None, Some ("invalid spec URL: " +:+ parseErr)), [])
        | inl specURL =>
            NewValidatingProxy_loaded upstreamURL validMode
              (Loader_LoadFromURI specURL) [CallLoadFromURI specURL]
        end
      else
        NewValidatingProxy_loaded upstreamURL validMode
          (Loader_LoadFromFile specPath) [CallLoadFromFile specPath]
  end.

(** ** main.go: validateSpecUpstreamMatch *)

Definition originText (u : url.URL) : string :=
  url.Scheme u +:+ "://" +:+ url.Host u.

Definition validateSpecUpstreamMatch (specURL upstreamURL : string) : option error :=
  match url_Parse specURL with
  | inr _ => Some ("invalid spec URL: " +:+ specURL)
  | inl specParsed =>
      match url_Parse upstreamURL with
      | inr _ => Some ("invalid upstream URL: " +:+ upstreamURL)
      | inl upstreamParsed =>
          if negb (String.eqb (url.Host specParsed) (url.Host upstreamParsed))
             || negb (String.eqb (url.Scheme specParsed) (url.Scheme upstreamParsed))
          then Some ("spec URL (" +:+ originText specParsed
                       +:+ ") does not match upstream URL ("
                       +:+ originText upstreamParsed +:+ ")")
          else None
      end
  end.

End Construction.

(** ** unicode/utf8 and strings: trimming *)

(** [s[i:]], [s[:j]] and [s[i:j]] for indices within the string. *)
Fixpoint dropStr (i : nat) (s : string) : string :=
  match i, s with
  | S i', String _ s' => dropStr i' s'
  | _, _ => s
  end.

Fixpoint takeStr (j : nat) (s : string) : string :=
  match j, s with
  | S j', String c s' => String c (takeStr j' s')
  | _, _ => EmptyString
  end.

Definition sliceStr (i j : nat) (s : string) : string := takeStr (j - i) (dropStr i s).

(** [utf8.RuneStart]. *)
Definition utf8_RuneStart (b : N) : bool := negb (N.land b 0xC0 =? 0x80)%N.

(** The backwards scan of [utf8.DecodeLastRuneInString] for the start of
    the last rune: [start] runs over [end-2], [end-3], [end-4] as long as
    it does not fall below [lim = max(end - UTFMax, 0)], and stops at a byte
    that starts a rune; otherwise it is left one below [lim], or at 0 when
    that is negative. *)
Definition lastRuneStart (s : string) (end_ : nat) : nat :=
  if (2 <=? end_)%nat && utf8_RuneStart (byteAt s (end_ - 2)) then (end_ - 2)%nat
  else if (3 <=? end_)%nat && utf8_RuneStart (byteAt s (end_ - 3)) then (end_ - 3)%nat
  else if (4 <=? end_)%nat && utf8_RuneStart (byteAt s (end_ - 4)) then (end_ - 4)%nat
  else (end_ - 5)%nat.

(** [utf8.DecodeLastRuneInString]. *)
Definition utf8_DecodeLastRuneInString (s : string) : N * nat :=
  let end_ := String.length s in
  if (end_ =? 0)%nat then (utf8.RuneError, 0%nat) else
  let r := byteAt s (end_ - 1) in
  if (r <? utf8.RuneSelf)%N then (r, 1%nat) else
  let start := lastRuneStart s end_ in
  let '(r, size) := utf8.DecodeRuneInString (sliceStr start end_ s) in
  if negb (start + size =? end_)%nat then (utf8.RuneError, 1%nat) else (r, size).

(** [strings.indexFunc]: the index of the first rune of the [range] loop
    whose test is [truth], or -1.  [skip] counts the continuation bytes of
    the rune decoded last, [i] is the index of the first byte of [s]. *)
Fixpoint indexFunc_from (skip : nat) (s : string) (f : N → bool) (truth : bool)
    (i : nat) : Z :=
  match s with
  | EmptyString => -1
  | String _ s' =>
      match skip with
      | S k => indexFunc_from k s' f truth (S i)
      | O =>
          let '(r, w) := utf8.DecodeRuneInString s in
          if Bool.eqb (f r) truth then Z.of_nat i
          else indexFunc_from (w - 1) s' f truth (S i)
      end
  end.

Definition strings_indexFunc (s : string) (f : N → bool) (truth : bool) : Z :=
  indexFunc_from 0 s f truth 0.

(** [strings.lastIndexFunc]: the loop
    [for i := len(s); i > 0; { r, size := DecodeLastRuneInString(s[0:i]); i -= size; ... }].
    Each round takes at least one byte off [i]; [n] bounds the number of
    rounds. *)
Fixpoint lastIndexFunc_loop (n : nat) (s : string) (f : N → bool) (truth : bool)
    (i : nat) : Z :=
  match n with
  | O => -1
  | S n' =>
      if (i =? 0)%nat then -1 else
      let '(r, size) := utf8_DecodeLastRuneInString (takeStr i s) in
      let i := (i - size)%nat in
      if Bool.eqb (f r) truth then Z.of_nat i
      else lastIndexFunc_loop n' s f truth i
  end.

Definition strings_lastIndexFunc (s : string) (f : N → bool) (truth : bool) : Z :=
  lastIndexFunc_loop (String.length s) s f truth (String.length s).

(** [strings.TrimLeftFunc], [strings.TrimRightFunc], [strings.TrimFunc]. *)
Definition strings_TrimLeftFunc (s : string) (f : N → bool) : string :=
  let i := strings_indexFunc s f false in
  if i =? -1 then EmptyString else dropStr (Z.to_nat i) s.

Definition strings_TrimRightFunc (s : string) (f : N → bool) : string :=
  let i := strings_lastIndexFunc s f false in
  let i :=
    if (0 <=? i) && (utf8.RuneSelf <=? byteAt s (Z.to_nat i))%N then
      let '(_, wid) := utf8.DecodeRuneInString (dropStr (Z.to_nat i) s) in
      i + Z.of_nat wid
    else i + 1 in
  takeStr (Z.to_nat i) s.

Definition strings_TrimFunc (s : string) (f : N → bool) : string :=
  strings_TrimRightFunc (strings_TrimLeftFunc s f) f.

(** The table [asciiSpace] of package strings. *)
Definition asciiSpace (b : N) : bool := existsb (N.eqb b) [9; 10; 11; 12; 13; 32]%N.

(** The two loops of [strings.TrimSpace]: each ends at an index, or at a
    byte that is not ASCII. *)
Inductive Scan :=
| ScanStop (i : nat)
| ScanNonASCII (i : nat).

Fixpoint scanStart (s : string) (start : nat) : Scan :=
  match s with
  | EmptyString => ScanStop start
  | String c s' =>
      if (utf8.RuneSelf <=? byteval c)%N then ScanNonASCII start
      else if negb (asciiSpace (byteval c)) then ScanStop start
      else scanStart s' (S start)
  end.

(** The second loop, over the bytes of [s[start:]] from the last one;
    [stop] is the index after the byte looked at. *)
Fixpoint scanStop (reversed : list ascii) (stop : nat) : Scan :=
  match reversed with
  | [] => ScanStop stop
  | c :: reversed' =>
      if (utf8.RuneSelf <=? byteval c)%N then ScanNonASCII stop
      else if negb (asciiSpace (byteval c)) then ScanStop stop
      else scanStop reversed' (stop - 1)
  end.

Section Trimming.
Variable To_LowerCase : N → N.

(** The range table [unicode.White_Space] above Latin-1, data of the Go
    distribution. *)
Variable White_Space : N → bool.

(** [unicode.IsSpace]. *)
Definition unicode_IsSpace (r : N) : bool :=
  if (r <=? 0xFF)%N then existsb (N.eqb r) [9; 10; 11; 12; 13; 32; 0x85; 0xA0]%N
  else White_Space r.

(** [strings.TrimSpace]. *)
Definition strings_TrimSpace (s : string) : string :=
  match scanStart s 0 with
  | ScanNonASCII start => strings_TrimFunc (dropStr start s) unicode_IsSpace
  | ScanStop start =>
      match scanStop (rev (list_ascii_of_string (dropStr start s))) (String.length s) with
      | ScanNonASCII stop => strings_TrimRightFunc (sliceStr start stop s) unicode_IsSpace
      | ScanStop stop => sliceStr start stop s
      end
  end.

End Trimming.

(** ** bufio: reading a line *)

(** The bytes up to and including the first [delim], and the bytes after
    it. *)
Fixpoint readUntil (delim : byte) (l : list byte) : option (list byte * list byte) :=
  match l with
  | [] => None
  | b :: l' =>
      if Byte.eqb b delim then Some ([b], l')
      else match readUntil delim l' with
           | Some (line, rest) => Some (b :: line, rest)
           | None => None
           end
  end.

(** [ReadString] of a [bufio.Reader] on a stream: the text up to and including
    the delimiter; when the stream ends or fails before a delimiter, the
    text read so far together with the error ([io.EOF], whose message is
    EOF, at the end of the stream). *)
Definition Reader_ReadString (delim : byte) (s : Stream)
  : (string * option error) * Stream :=
  match readUntil delim (unread s) with
  | Some (line, rest) =>
      ((string_of_list_byte line, None), mkStream rest (failure s))
  | None =>
      ((string_of_list_byte (unread s),
        Some (match failure s with Some e => e | None => "EOF"%string end)),
       mkStream [] (failure s))
  end.

(** ** main.go: main *)

(** The process as [main] sees it: standard input, the text printed on
    standard output, and the loader calls made. *)
Record Process := mkProcess {
  stdin : Stream;
  stdout : string;
  calls : list LoaderCall
}.

(** How [main] ends: [os.Exit], [log.Fatal] (the message goes to standard
    error after the time stamp of the logger, and the exit status is 1), or
    the call of [http.ListenAndServe], which serves until it fails. *)
Inductive Ending (Doc : Type) :=
| Exit (code : Z)
| Fatal (msg : string)
| ListenAndServe (addr : string) (handler : option (ProxyValue Doc)).
Arguments Exit {Doc} _.
Arguments Fatal {Doc} _.
Arguments ListenAndServe {Doc} _ _.

Definition print (text : string) (p : Process) : Process :=
  mkProcess (stdin p) (stdout p +:+ text) (calls p).

Section Main.
Variable To_LowerCase : N → N.
Variable White_Space : N → bool.
Variable Doc : Type.
Variable url_Parse : string → url.URL + error.
Variable Loader_LoadFromURI : url.URL → openapi3.T Doc + error.
Variable Loader_LoadFromFile : string → openapi3.T Doc + error.
Variable gorillamux_NewRouter : openapi3.T Doc → option Router * option error.

(** The part of [main] after the flags are parsed, up to the construction
    of the proxy: the check of the spec URL against the upstream URL and
    the question it may ask.  [Some ending] ends the program. *)
Definition main_confirm (specPath upstream : string) (p : Process)
  : option (Ending Doc) * Process :=
  if strings.HasPrefix specPath "http://" || strings.HasPrefix specPath "https://" then
    match validateSpecUpstreamMatch url_Parse specPath upstream with
    | Some err =>
        let p := print ("WARNING: " +:+ err +:+ String newline EmptyString) p in
        let p := print "Do you want to continue? (y/N): " p in
        let '((response, err), rest) := Reader_ReadString x0a (stdin p) in
        let p := mkProcess rest (stdout p) (calls p) in
        match err with
        | Some err => (Some (Fatal ("Failed to read user input:" +:+ err)), p)
        | None =>
            let response :=
              strings_TrimSpace White_Space (strings_ToLower To_LowerCase response) in
            if negb (String.eqb response "y") && negb (String.eqb response "yes") then
              (Some (Exit 1), print ("Aborted." +:+ String newline EmptyString) p)
            else (None, p)
        end
    | None => (None, p)
    end
  else (None, p).

(** The rest of [main]: the proxy is constructed and served. *)
Definition main_serve (specPath upstream port mode : string) (p : Process)
  : Ending Doc * Process :=
  let '((proxy, err), made) :=
    NewValidatingProxy To_LowerCase Doc url_Parse Loader_LoadFromURI Loader_LoadFromFile
      gorillamux_NewRouter specPath upstream mode in
  let p := mkProcess (stdin p) (stdout p) (calls p ++ made) in
  match err with
  | Some err => (Fatal ("Failed to create proxy:" +:+ err), p)
  | None =>
      let p := print ("Starting validation proxy on: " +:+ port
                        +:+ String newline EmptyString) p in
      let p := print ("Proxying to " +:+ upstream +:+ String newline EmptyString) p in
      let p := print ("Mode: " +:+ mode +:+ String newline EmptyString) p in
      (ListenAndServe (":" +:+ port) proxy, p)
  end.

(** [main], given the values of the flags [-spec], [-upstream], [-port] and
    [-mode]. *)
Definition main (specPath upstream port mode : string) (p : Process)
  : Ending Doc * Process :=
  match main_confirm specPath upstream p with
  | (Some ending, p) => (ending, p)
  | (None, p) => main_serve specPath upstream port mode p
  end.

End Main.

(** ** Vocabulary for the constructor and for main *)

(** The path of a specification that is fetched over the network. *)
Definition remoteSpec (specPath : string) : Prop :=
  ∃ rest, specPath = "http://" +:+ rest ∨ specPath = "https://" +:+ rest.

(** The document found at the place [specPath] names: behind the URL, or in
    the file. *)
Definition specLoads {Doc : Type}
    (url_Parse : string → url.URL + error)
    (Loader_LoadFromURI : url.URL → openapi3.T Doc + error)
    (Loader_LoadFromFile : string → openapi3.T Doc + error)
    (specPath : string) (doc : openapi3.T Doc) : Prop :=
  if strings.HasPrefix specPath "http://" || strings.HasPrefix specPath "https://"
  then ∃ specURL, url_Parse specPath = inl specURL ∧ Loader_LoadFromURI specURL = inl doc
  else Loader_LoadFromFile specPath = inl doc.

(** The document with its servers block overridden by the upstream URL. *)
Definition servedSpec {Doc : Type} (upstreamURL : string) (doc : openapi3.T Doc)
  : openapi3.T Doc :=
  openapi3.mkT [openapi3.mkServer upstreamURL EmptyString ∅] (openapi3.Document doc).

(** A sample of the external functions: a parser that accepts the URLs
    [scheme://host] and [scheme://host/path] for the schemes http and https
    (and nothing else), loaders that find one document, and a router
    constructor that fails. *)
Fixpoint splitAt (sep : ascii) (s : string) : string * string :=
  match s with
  | EmptyString => (EmptyString, EmptyString)
  | String c s' =>
      if Ascii.eqb c sep then (EmptyString, s)
      else let '(a, b) := splitAt sep s' in (String c a, b)
  end.

Definition sampleURL (scheme rest : string) : url.URL :=
  let '(host, path) := splitAt "/" rest in
  url.mkURL scheme EmptyString None host path EmptyString false false
    EmptyString EmptyString EmptyString.

Definition sampleParse (rawURL : string) : url.URL + error :=
  if strings.HasPrefix rawURL "http://" then inl (sampleURL "http" (dropStr 7 rawURL))
  else if strings.HasPrefix rawURL "https://" then inl (sampleURL "https" (dropStr 8 rawURL))
  else inr ("parse " +:+ rawURL +:+ ": missing protocol scheme").

Definition sampleDocument : openapi3.T unit :=
  openapi3.mkT [openapi3.mkServer "https://api.example.com" EmptyString ∅] tt.

Definition sampleLoadFromURI (location : url.URL) : openapi3.T unit + error :=
  inl sampleDocument.

Definition sampleLoadFromFile (location : string) : openapi3.T unit + error :=
  if String.eqb location "openapi.yaml" then inl sampleDocument
  else inr ("open " +:+ location +:+ ": no such file or directory").

Definition failingNewRouter (doc : openapi3.T unit) : option Router * option error :=
  (None, Some "server has unparsable URL"%string).

Definition workingNewRouter (doc : openapi3.T unit) : option Router * option error :=
  (Some resolving, None).

(** No white space above Latin-1, for the sample runs of [main]. *)
Definition sampleWhiteSpace (r : N) : bool := false.

(** A terminal on which the user types [answer]. *)
Definition terminal (answer : string) : Process :=
  mkProcess (mkStream (bytes answer) None) EmptyString [].

(** The characters of a string, and the string of a list of characters. *)
Abbreviation chars := list_ascii_of_string.
Abbreviation text := string_of_list_ascii.

Definition spaceChar (c : ascii) : Prop := asciiSpace (byteval c) = true.

(** A visible ASCII character: not a space of the table [asciiSpace]. *)
Definition inkChar (c : ascii) : Prop :=
  (byteval c < 0x80)%N ∧ asciiSpace (byteval c) = false.

(** A text without white space at either end. *)
Definition trimmed (core : list ascii) : Prop :=
  core = [] ∨ ((∃ c l, core = c :: l ∧ inkChar c) ∧ (∃ c l, rev core = c :: l ∧ inkChar c)).

(** An answer that says yes: the letter y or the word yes, in any
    capitalisation, with white space before and after it at most. *)
Definition affirmative (answer : string) : Prop :=
  ∃ before word after,
    answer = text (before ++ chars word ++ after)
    ∧ Forall spaceChar before ∧ Forall spaceChar after
    ∧ (asciiCaseVariant word "y" ∨ asciiCaseVariant word "yes").

(** A text of one line: it holds no line feed. *)
Definition oneLine (s : string) : bool :=
  allBytes (fun c => negb (Ascii.eqb c newline)) s.

(** What [main] has printed once it has asked its question. *)
Definition asked (warning : string) : string :=
  "WARNING: " +:+ warning +:+ String newline EmptyString
    +:+ "Do you want to continue? (y/N): ".

(** What [main] prints before it serves. *)
Definition banner (upstream port mode : string) : string :=
  "Starting validation proxy on: " +:+ port +:+ String newline EmptyString
    +:+ "Proxying to " +:+ upstream +:+ String newline EmptyString
    +:+ "Mode: " +:+ mode +:+ String newline EmptyString.

(** The state of the process after the question and one typed line. *)
Definition answered (p : Process) (warning : string) (rest : list byte) : Process :=
  mkProcess (mkStream rest (failure (stdin p))) (stdout p +:+ asked warning) (calls p).
(** * Properties *)

(** ** The table-driven tests of the repository, on the model *)

Example parseMode_strict : ∀ t, parseMode t "strict" = (ModeStrict, None).
Proof. reflexivity. Qed.
Example parseMode_upper : ∀ t, parseMode t "STRICT" = (ModeStrict, None).
Proof. reflexivity. Qed.
Example parseMode_mixed : ∀ t, parseMode t "WaRn" = (ModeWarn, None).
Proof. reflexivity. Qed.
Example parseMode_invalid : ∀ t, fst (parseMode t "invalid") = EmptyString.
Proof. reflexivity. Qed.
(** A string that is not ASCII and lowers to "strict" under a table that
    maps U+0130 to the letter i, as the table of Go does. *)
Example parseMode_dotted_capital_I :
  parseMode sampleLowerCase
    ("STR" +:+ String (ascii_of_N 0xC4) (String (ascii_of_N 0xB0) "CT"))
  = (ModeStrict, None).
Proof. reflexivity. Qed.
Example isUndocumented_caseless :
  ∀ t, isUndocumentedEndpoint t (Some "No Route Found"%string) = true.
Proof. reflexivity. Qed.
Example isUndocumented_nil : ∀ t, isUndocumentedEndpoint t None = false.
Proof. reflexivity. Qed.
Example isUndocumented_empty :
  ∀ t, isUndocumentedEndpoint t (Some EmptyString) = false.
Proof. reflexivity. Qed.
Example isUndocumented_operation :
  ∀ t, isUndocumentedEndpoint t (Some "no matching operation found"%string) = true.
Proof. reflexivity. Qed.
Example parseMode_empty :
  ∀ t, parseMode t EmptyString = (EmptyString, Some (invalidModeError EmptyString)).
Proof. reflexivity. Qed.
Example isUndocumented_unrelated :
  ∀ t, isUndocumentedEndpoint t (Some "connection refused"%string) = false.
Proof. reflexivity. Qed.

(** ** Bytes *)

Lemma N_forall_below (P : N → bool) (n : nat) :
  forallb P (map N.of_nat (seq 0 n)) = true →
  ∀ x, (x < N.of_nat n)%N → P x = true.
Proof.
  intros Hall x Hx.
  rewrite forallb_forall in Hall. apply Hall.
  apply in_map_iff. exists (N.to_nat x). split; [lia|].
  apply in_seq. lia.
Qed.

Lemma byteval_lt_256 c : (byteval c < 256)%N.
Proof. apply N_ascii_bounded. Qed.

Lemma byteval_ascii_of_N n : (n < 256)%N → byteval (ascii_of_N n) = n.
Proof. apply N_ascii_embedding. Qed.

Lemma ascii_of_byteval c : ascii_of_N (byteval c) = c.
Proof. apply ascii_N_embedding. Qed.

Lemma lead_byte_high (tag bound : N) :
  forallb (fun x => (0x80 <=? byteval (ascii_of_N (N.lor tag x)))%N)
          (map N.of_nat (seq 0 (N.to_nat bound))) = true →
  ∀ x, (x < bound)%N → (0x80 ≤ byteval (ascii_of_N (N.lor tag x)))%N.
Proof.
  intros Hall x Hx. apply N.leb_le.
  apply (N_forall_below _ _ Hall). lia.
Qed.

Lemma shiftr_lt (r : N) (k bound : N) :
  (r < bound * 2 ^ k)%N → (N.shiftr r k < bound)%N.
Proof.
  intros Hr. rewrite N.shiftr_div_pow2.
  apply N.Div0.div_lt_upper_bound. lia.
Qed.

(** Every rune above the ASCII range is encoded with a lead byte of
    at least 0x80. *)
Lemma EncodeRune_nonascii r :
  (0x7F < r)%N →
  ∃ c rest, utf8.EncodeRune r = String c rest ∧ (0x80 ≤ byteval c)%N.
Proof.
  intros Hr. unfold utf8.EncodeRune.
  destruct (N.leb_spec r 0x7F) as [?|_]; [lia|].
  destruct (N.leb_spec r 0x7FF) as [H2|H2].
  - eexists _, _. split; [reflexivity|].
    apply (lead_byte_high 0xC0 32); [by vm_compute|].
    apply shiftr_lt. lia.
  - cbv zeta.
    match goal with
    | |- context [if ?b then utf8.RuneError else r] =>
        set (r' := if b then utf8.RuneError else r)
    end.
    assert (Hr' : (r' ≤ 0x10FFFF)%N).
    { subst r'. unfold utf8.MaxRune.
      destruct (N.ltb_spec 0x10FFFF r); simpl; [by vm_compute|].
      destruct (_ && _); [by vm_compute | lia]. }
    destruct (N.leb_spec r' 0xFFFF) as [H3|H3].
    + eexists _, _. split; [reflexivity|].
      apply (lead_byte_high 0xE0 16); [by vm_compute|].
      apply shiftr_lt. lia.
    + eexists _, _. split; [reflexivity|].
      apply (lead_byte_high 0xF0 8); [by vm_compute|].
      apply shiftr_lt. lia.
Qed.

Lemma EncodeRune_ascii r :
  (r ≤ 0x7F)%N → utf8.EncodeRune r = String (ascii_of_N r) EmptyString.
Proof.
  intros Hr. unfold utf8.EncodeRune.
  by destruct (N.leb_spec r 0x7F) as [_|?]; [|lia].
Qed.

(** ** Runes of ASCII strings *)


Lemma DecodeRune_ascii c s :
  (byteval c < 0x80)%N →
  utf8.DecodeRuneInString (String c s) = (byteval c, 1%nat).
Proof.
  intros Hc. unfold utf8.DecodeRuneInString, utf8.RuneSelf, byteAt. simpl.
  by destruct (N.ltb_spec (byteval c) 0x80) as [_|?]; [|lia].
Qed.

Lemma runes_ascii s : strings.isASCII s = true → utf8.runes s = asciiRunes s.
Proof.
  unfold utf8.runes, asciiRunes, strings.isASCII.
  induction s as [|c s IH]; [done|].
  cbn [allBytes]. intros [Hc Hs]%andb_true_iff.
  apply N.ltb_lt in Hc. unfold utf8.RuneSelf in Hc.
  cbn [utf8.runesFrom list_ascii_of_string map].
  rewrite DecodeRune_ascii by done. simpl. by rewrite IH.
Qed.

Section CaseMappingFacts.
Variable To_LowerCase : N → N.

Local Abbreviation unicode_ToLower := (unicode_ToLower To_LowerCase).
Local Abbreviation strings_ToLower := (strings_ToLower To_LowerCase).
Local Abbreviation case_variant := (case_variant To_LowerCase).

Lemma EncodeRune_ToLower_ascii c :
  (byteval c < 0x80)%N →
  utf8.EncodeRune (unicode_ToLower (byteval c)) = String (lowerByte c) EmptyString.
Proof.
  intros Hc. unfold unicode_ToLower, lowerByte.
  destruct (N.leb_spec (byteval c) 0x7F) as [_|?]; [|lia].
  destruct (isUpperByte (byteval c)) eqn:Hup.
  - unfold isUpperByte in Hup. apply andb_true_iff in Hup as [_ Hle%N.leb_le].
    by rewrite EncodeRune_ascii by lia.
  - rewrite EncodeRune_ascii by lia. by rewrite ascii_of_byteval.
Qed.

Lemma mapBytes_lower_id s :
  strings.hasUpper s = false → mapBytes lowerByte s = s.
Proof.
  unfold strings.hasUpper.
  induction s as [|c s IH]; [done|].
  cbn [anyByte mapBytes]. intros [Hc Hs]%orb_false_iff.
  rewrite IH by done. unfold lowerByte. by rewrite Hc.
Qed.

(** The ASCII fast path of [strings.ToLower] computes what the general
    path computes. *)
Lemma strings_ToLower_Map s :
  strings_ToLower s = strings.Map unicode_ToLower s.
Proof.
  unfold strings_ToLower.
  destruct (strings.isASCII s) eqn:Hascii; [|done].
  assert (Hmap : mapBytes lowerByte s = strings.Map unicode_ToLower s).
  { unfold strings.Map. rewrite runes_ascii by done.
    unfold asciiRunes, strings.isASCII in *.
    induction s as [|c s IH]; [done|].
    cbn [allBytes] in Hascii. apply andb_true_iff in Hascii as [Hc Hs].
    apply N.ltb_lt in Hc. unfold utf8.RuneSelf in Hc.
    cbn [mapBytes list_ascii_of_string map foldr].
    rewrite EncodeRune_ToLower_ascii by done. simpl. by rewrite IH. }
  destruct (strings.hasUpper s) eqn:Hup; simpl; [done|].
  by rewrite <- Hmap, mapBytes_lower_id.
Qed.

(** A mapped string is an ASCII string [w] exactly when the images of its
    runes are the bytes of [w], one rune per byte. *)
Lemma Map_eq_ascii (f : N → N) (rs : list N) (w : string) :
  strings.isASCII w = true →
  foldr (fun c acc => utf8.EncodeRune (f c) +:+ acc) EmptyString rs = w
  ↔ map f rs = asciiRunes w.
Proof.
  unfold strings.isASCII, asciiRunes.
  revert w. induction rs as [|c rs IH]; intros w Hw.
  - destruct w; simpl; split; intros; congruence.
  - cbn [foldr map].
    destruct (N.leb_spec (f c) 0x7F) as [Hlo|Hhi].
    + rewrite EncodeRune_ascii by done.
      destruct w as [|b w]; [by split|]. simpl.
      cbn [allBytes] in Hw. apply andb_true_iff in Hw as [Hb Hw].
      cbn [list_ascii_of_string map]. split.
      * intros [= <- Hacc]. rewrite byteval_ascii_of_N by lia.
        f_equal. by apply IH.
      * intros [= Hfc Hrest]. rewrite Hfc, ascii_of_byteval.
        f_equal. by apply IH.
    + destruct (EncodeRune_nonascii (f c) Hhi) as (a & rest & -> & Ha).
      destruct w as [|b w]; [by split|]. simpl.
      cbn [allBytes] in Hw. apply andb_true_iff in Hw as [Hb Hw].
      apply N.ltb_lt in Hb. unfold utf8.RuneSelf in Hb.
      cbn [list_ascii_of_string map]. split.
      * intros [= -> _]. lia.
      * intros [= Hfc _]. lia.
Qed.

Lemma strings_ToLower_eq_iff s w :
  strings.isASCII w = true →
  strings_ToLower s = w ↔ case_variant s w.
Proof.
  intros Hw. unfold case_variant.
  rewrite strings_ToLower_Map, (runes_ascii w) by done.
  by apply Map_eq_ascii.
Qed.

(** On ASCII input, being a case variant is the byte-wise comparison up to
    the case of the letters A to Z. *)
Lemma case_variant_ascii s w :
  strings.isASCII s = true → strings.isASCII w = true →
  case_variant s w ↔ mapBytes lowerByte s = w.
Proof.
  intros Hs Hw. rewrite <- strings_ToLower_eq_iff by done.
  unfold strings_ToLower. rewrite Hs.
  destruct (strings.hasUpper s) eqn:Hup; simpl; [done|].
  by rewrite mapBytes_lower_id.
Qed.

End CaseMappingFacts.

(** Lowering byte by byte yields a word of lower-case letters exactly for
    its letter-by-letter case variants. *)
Lemma lowerByte_sameLetter (c d : ascii) :
  isLowerByte (byteval d) = true →
  lowerByte c = d ↔ sameLetter c d.
Proof.
  intros Hd. unfold isLowerByte in Hd.
  apply andb_true_iff in Hd as [Hlo%N.leb_le Hhi%N.leb_le].
  pose proof (byteval_lt_256 c) as Hc.
  unfold lowerByte, isUpperByte. split.
  - destruct (N.leb_spec 65 (byteval c)), (N.leb_spec (byteval c) 90);
      simpl; intros <-; try apply sameLetter_exact.
    apply sameLetter_capital.
    + unfold isLowerByte. rewrite byteval_ascii_of_N by lia.
      apply andb_true_iff. split; apply N.leb_le; lia.
    + by rewrite byteval_ascii_of_N by lia.
  - inversion 1 as [c'|c' d' _ Heq]; subst.
    + destruct (N.leb_spec 65 (byteval d)), (N.leb_spec (byteval d) 90);
        simpl; try done. lia.
    + destruct (N.leb_spec 65 (byteval c)), (N.leb_spec (byteval c) 90);
        simpl; try lia.
      rewrite Heq. apply ascii_of_byteval.
Qed.

Lemma mapBytes_lower_asciiCaseVariant (s w : string) :
  allBytes (fun d => isLowerByte (byteval d)) w = true →
  mapBytes lowerByte s = w ↔ asciiCaseVariant s w.
Proof.
  revert w. induction s as [|c s IH]; intros [|d w] Hw; simpl.
  - split; [constructor | done].
  - split; [done | inversion 1].
  - split; [done | inversion 1].
  - cbn [allBytes] in Hw. apply andb_true_iff in Hw as [Hd Hw]. split.
    + intros [= Hc Hs]. constructor; [by apply lowerByte_sameLetter | by apply IH].
    + inversion 1 as [|? ? ? ? Hc Hs]; subst.
      f_equal; [by apply lowerByte_sameLetter | by apply IH].
Qed.

(** ** parseMode *)

Lemma String_eqb_decide (a b : string) : String.eqb a b = bool_decide (a = b).
Proof.
  destruct (String.eqb_spec a b).
  - by rewrite bool_decide_eq_true_2.
  - by rewrite bool_decide_eq_false_2.
Qed.

Section ParseMode.
Variable To_LowerCase : N → N.

Local Abbreviation parseMode := (parseMode To_LowerCase).
Local Abbreviation case_variant := (case_variant To_LowerCase).
Local Abbreviation strings_ToLower := (strings_ToLower To_LowerCase).

Lemma parseMode_lowered mode :
  parseMode mode =
    if decide (strings_ToLower mode = "strict"%string) then (ModeStrict, None)
    else if decide (strings_ToLower mode = "warn"%string) then (ModeWarn, None)
    else if decide (strings_ToLower mode = "report"%string) then (ModeReport, None)
    else (EmptyString, Some (invalidModeError mode)).
Proof.
  unfold parseMode. cbv zeta. rewrite !String_eqb_decide.
  repeat case_bool_decide; repeat case_decide; congruence.
Qed.

(** C6. For every string [s], [parseMode s] succeeds with a mode [m] exactly
    when [m] is one of the canonical values "strict", "warn", "report" and
    [s] is a case variant of it; when [s] is a case variant of none of the
    three, and in particular when it is empty, [parseMode] fails with the
    invalid-mode error.  On ASCII strings the case variants of a word are
    its spellings with any of its letters capitalised. *)
Theorem parseMode_case_variants (s : string) :
  (∀ m : Mode, parseMode s = (m, None)
               ↔ m ∈ [ModeStrict; ModeWarn; ModeReport] ∧ case_variant s m)
  ∧ (parseMode s = (EmptyString, Some (invalidModeError s))
     ↔ ∀ m : Mode, m ∈ [ModeStrict; ModeWarn; ModeReport] → ¬ case_variant s m)
  ∧ parseMode EmptyString = (EmptyString, Some (invalidModeError EmptyString))
  ∧ (strings.isASCII s = true →
     ∀ m : Mode, m ∈ [ModeStrict; ModeWarn; ModeReport] →
       (case_variant s m ↔ asciiCaseVariant s m)).
Proof.
  assert (Hin : ∀ m : Mode, m ∈ [ModeStrict; ModeWarn; ModeReport] ↔
                  m = ModeStrict ∨ m = ModeWarn ∨ m = ModeReport).
  { intros m. rewrite !elem_of_cons, elem_of_nil. tauto. }
  assert (Hcv : ∀ m : Mode, m ∈ [ModeStrict; ModeWarn; ModeReport] →
                  (strings_ToLower s = m ↔ case_variant s m)).
  { intros m Hm. apply strings_ToLower_eq_iff.
    apply Hin in Hm. by destruct Hm as [-> | [-> | ->]]. }
  split; [|split; [|split]].
  - intros m. rewrite parseMode_lowered. split.
    + repeat case_decide; intros [= <-];
        (split; [apply Hin; tauto | apply Hcv; [apply Hin; tauto | done]]).
    + intros [Hm Hv]. apply Hcv in Hv; [|done].
      apply Hin in Hm. destruct Hm as [-> | [-> | ->]];
        rewrite Hv; by repeat case_decide.
  - rewrite parseMode_lowered. split.
    + repeat case_decide; try done. intros _ m Hm Hv.
      apply Hcv in Hv; [|done].
      apply Hin in Hm. unfold ModeStrict, ModeWarn, ModeReport in *.
      destruct Hm as [-> | [-> | ->]]; congruence.
    + intros Hnone.
      repeat case_decide; try done; exfalso;
        match goal with
        | H : strings_ToLower s = ?w |- _ =>
            apply (Hnone w); [apply Hin; tauto | apply Hcv; [apply Hin; tauto | done]]
        end.
  - reflexivity.
  - intros Hs m Hm. rewrite <- mapBytes_lower_asciiCaseVariant.
    + apply case_variant_ascii; [done|].
      apply Hin in Hm. by destruct Hm as [-> | [-> | ->]].
    + apply Hin in Hm. by destruct Hm as [-> | [-> | ->]].
Qed.

End ParseMode.

(** ** Limited reads *)

Lemma takeZ_take {A} (n : Z) (l : list A) : takeZ n l = take (Z.to_nat n) l.
Proof.
  revert n. induction l as [|x l IH]; intros n; simpl.
  - by rewrite take_nil.
  - destruct (Z.leb_spec n 0).
    + by replace (Z.to_nat n) with 0%nat by lia.
    + replace (Z.to_nat n) with (S (Z.to_nat (n - 1))) by lia.
      simpl. by rewrite IH.
Qed.

Lemma dropZ_drop {A} (n : Z) (l : list A) : dropZ n l = drop (Z.to_nat n) l.
Proof.
  revert n. induction l as [|x l IH]; intros n; simpl.
  - by rewrite drop_nil.
  - destruct (Z.leb_spec n 0).
    + by replace (Z.to_nat n) with 0%nat by lia.
    + replace (Z.to_nat n) with (S (Z.to_nat (n - 1))) by lia.
      simpl. by rewrite IH.
Qed.

Lemma takeZ_dropZ {A} (n : Z) (l : list A) : takeZ n l ++ dropZ n l = l.
Proof. rewrite takeZ_take, dropZ_drop. apply take_drop. Qed.

Lemma len_takeZ {A} (n : Z) (l : list A) :
  0 ≤ n → len (takeZ n l) = Z.min n (len l).
Proof. intros Hn. unfold len. rewrite takeZ_take, length_take. lia. Qed.

Lemma len_dropZ {A} (n : Z) (l : list A) :
  0 ≤ n → len (dropZ n l) = Z.max 0 (len l - n).
Proof. intros Hn. unfold len. rewrite dropZ_drop, length_drop. lia. Qed.

Lemma len_app {A} (l1 l2 : list A) : len (l1 ++ l2) = len l1 + len l2.
Proof. unfold len. rewrite length_app. lia. Qed.

Lemma len_nonneg {A} (l : list A) : 0 ≤ len l.
Proof. unfold len. lia. Qed.

Lemma readAllLimited_fits (n : Z) (s : Stream) :
  len (unread s) < n →
  readAllLimited n s = ((unread s, failure s), mkStream [] (failure s)).
Proof.
  intros Hlt. unfold readAllLimited.
  by destruct (Z.ltb_spec (len (unread s)) n); [|lia].
Qed.

Lemma readAllLimited_full (n : Z) (s : Stream) :
  n ≤ len (unread s) →
  readAllLimited n s =
    ((takeZ n (unread s), None), mkStream (dropZ n (unread s)) (failure s)).
Proof.
  intros Hle. unfold readAllLimited.
  by destruct (Z.ltb_spec (len (unread s)) n); [lia|].
Qed.

(** A limited read takes a prefix of the stream, never longer than the
    limit, and leaves the rest. *)
Lemma readAllLimited_prefix (n : Z) (s : Stream) :
  0 ≤ n →
  let '((got, _), s') := readAllLimited n s in
  unread s = got ++ unread s' ∧ len got ≤ n.
Proof.
  intros Hn. unfold readAllLimited.
  destruct (Z.ltb_spec (len (unread s)) n); simpl.
  - rewrite app_nil_r. split; [done | lia].
  - rewrite takeZ_dropZ, len_takeZ by done. split; [done | lia].
Qed.

(** ** The paths through validateResponse *)

(** Unfolds the state-passing combinators of the hook. *)
Ltac hook_steps :=
  cbv beta iota zeta delta
    [hbind hret getResp setBody setStatusCode updHeader
     Logger_Warn Logger_Error Logger_log ReadAll_LimitReader].

Section Paths.
Variable To_LowerCase : N → N.
Variable ValidateResponse : ResponseValidationInput → option error.

Local Abbreviation validateResponse := (validateResponse To_LowerCase ValidateResponse).
Local Abbreviation isUndocumentedEndpoint := (isUndocumentedEndpoint To_LowerCase).

(** The declared-size gate lets a response through when it declares no
    length above the ceiling. *)
Lemma declared_gate_open (h : http.Header) :
  declaredWithin h →
  (if negb (String.eqb (Header_Get h "Content-Length") EmptyString) then
     match strconv.ParseInt (Header_Get h "Content-Length") with
     | Some size => if size >? maxSize then Some size else None
     | None => None
     end
   else None) = None.
Proof.
  intros Hin. destruct (negb _); [|done].
  destruct (strconv.ParseInt _) as [size|] eqn:Hparse; [|done].
  specialize (Hin size Hparse).
  by destruct (Z.gtb_spec size maxSize); [lia|].
Qed.

Lemma declared_gate_closed (h : http.Header) (size : Z) :
  strconv.ParseInt (Header_Get h "Content-Length") = Some size →
  maxSize < size →
  (if negb (String.eqb (Header_Get h "Content-Length") EmptyString) then
     match strconv.ParseInt (Header_Get h "Content-Length") with
     | Some size => if size >? maxSize then Some size else None
     | None => None
     end
   else None) = Some size.
Proof.
  intros Hparse Hgt.
  destruct (String.eqb_spec (Header_Get h "Content-Length") EmptyString) as [Hempty|_].
  - rewrite Hempty in Hparse. discriminate.
  - simpl. rewrite Hparse. by destruct (Z.gtb_spec size maxSize); [|lia].
Qed.

Lemma path_not_json vp w :
  strings.Contains (Header_Get (Header (resp w)) "Content-Type") "application/json"
    = false →
  validateResponse vp w = (None, w).
Proof.
  intros Hct. unfold validateResponse. hook_steps. by rewrite Hct.
Qed.

Lemma path_declared_too_large vp w size :
  isJSON (Header (resp w)) →
  strconv.ParseInt (Header_Get (Header (resp w)) "Content-Length") = Some size →
  maxSize < size →
  validateResponse vp w
  = (None, emit (logger vp) slog.LevelWarn "Response too large, skipping validation"
             [slog.mkAttr "size" (slog.Int64Value size)] w).
Proof.
  intros Hjson Hparse Hgt. unfold validateResponse. hook_steps.
  rewrite Hjson. cbn [negb].
  by rewrite (declared_gate_closed _ size).
Qed.

Lemma path_read_too_large vp w :
  Body (resp w) = Upstream →
  isJSON (Header (resp w)) →
  declaredWithin (Header (resp w)) →
  maxSize < len (unread (conn w)) →
  validateResponse vp w
  = (None, emit (logger vp) slog.LevelWarn "Response too large, skipping validation"
             [slog.mkAttr "size" (slog.Int64Value (maxSize + 1))]
             (mkWorld (mkStream (dropZ (maxSize + 1) (unread (conn w))) (failure (conn w)))
                (resp w) (log w))).
Proof.
  intros Hbody Hjson Hdecl Hlen. unfold validateResponse. hook_steps.
  rewrite Hjson. cbn [negb].
  rewrite declared_gate_open by done.
  rewrite Hbody, readAllLimited_full by lia.
  assert (Hgot : len (takeZ (maxSize + 1) (unread (conn w))) = maxSize + 1).
  { rewrite len_takeZ; unfold maxSize in *; lia. }
  rewrite Hgot.
  by destruct (Z.gtb_spec (maxSize + 1) maxSize); [|lia].
Qed.

Lemma path_read_error vp w e :
  Body (resp w) = Upstream →
  isJSON (Header (resp w)) →
  declaredWithin (Header (resp w)) →
  len (unread (conn w)) ≤ maxSize →
  failure (conn w) = Some e →
  validateResponse vp w
  = (Some e, mkWorld (mkStream [] (Some e)) (resp w) (log w)).
Proof.
  intros Hbody Hjson Hdecl Hlen Hfail. unfold validateResponse. hook_steps.
  rewrite Hjson. cbn [negb].
  rewrite declared_gate_open by done.
  rewrite Hbody, readAllLimited_fits by lia.
  by rewrite Hfail.
Qed.

Ltac pass_gates Helig :=
  let Hbody := fresh "Hbody" in
  let Hjson := fresh "Hjson" in
  let Hdecl := fresh "Hdecl" in
  let Hfail := fresh "Hfail" in
  let Hlen := fresh "Hlen" in
  destruct Helig as (Hbody & Hjson & Hdecl & Hfail & Hlen);
  unfold validateResponse, buffered; hook_steps;
  rewrite Hjson; cbn [negb];
  rewrite declared_gate_open by done;
  rewrite Hbody, readAllLimited_fits by lia;
  rewrite Hfail;
  match goal with
  | |- context [len ?l >? maxSize] => destruct (Z.gtb_spec (len l) maxSize); [lia|]
  end.

Lemma path_undocumented vp w msg :
  eligible w →
  router vp (Request (resp w)) = inr msg →
  isUndocumentedEndpoint (Some msg) = true →
  validateResponse vp w
  = (None, emit (logger vp) slog.LevelWarn "Undocumented endpoint"
             (requestAttrs (Request (resp w))) (buffered w)).
Proof.
  intros Helig Hroute Hundoc. pass_gates Helig.
  by rewrite Hroute, Hundoc.
Qed.

Lemma path_route_error vp w msg :
  eligible w →
  router vp (Request (resp w)) = inr msg →
  isUndocumentedEndpoint (Some msg) = false →
  validateResponse vp w
  = (Some (routeFindingError msg),
     emit (logger vp) slog.LevelError "Error finding route"
       (slog.mkAttr "error" (slog.AnyValue msg) :: requestAttrs (Request (resp w)))
       (buffered w)).
Proof.
  intros Helig Hroute Hundoc. pass_gates Helig.
  by rewrite Hroute, Hundoc.
Qed.

Lemma path_valid vp w route pathParams :
  eligible w →
  router vp (Request (resp w)) = inl (route, pathParams) →
  ValidateResponse (validationInput w route pathParams) = None →
  validateResponse vp w = (None, buffered w).
Proof.
  intros Helig Hroute Hvalid. pass_gates Helig.
  rewrite Hroute. unfold validationInput in Hvalid. by rewrite Hvalid.
Qed.

Lemma path_invalid vp w d :
  validationFails ValidateResponse vp w d →
  validateResponse vp w
  = (None,
     let w' := emit (logger vp) slog.LevelError "Response validation failed"
                 (slog.mkAttr "error" (slog.AnyValue d)
                    :: requestAttrs (Request (resp w))
                    ++ [slog.mkAttr "status" (slog.Int64Value (StatusCode (resp w)))])
                 (buffered w) in
     if String.eqb (mode vp) ModeStrict then rewritten d w' else w').
Proof.
  intros (Helig & route & pathParams & Hroute & Hvalid). pass_gates Helig.
  rewrite Hroute. unfold validationInput in Hvalid. rewrite Hvalid.
  cbv zeta. by destruct (String.eqb (mode vp) ModeStrict).
Qed.

End Paths.

(** ** Substrings *)

Lemma HasPrefix_spec (s p : string) :
  strings.HasPrefix s p = true ↔ ∃ rest, s = p +:+ rest.
Proof.
  revert s. induction p as [|a p IH]; intros [|c s]; simpl.
  - split; [by exists EmptyString | done].
  - split; [by exists (String c s) | done].
  - split; [done | by intros [rest ?]].
  - rewrite andb_true_iff, IH. split.
    + intros [->%Ascii.eqb_eq [rest ->]]. by exists rest.
    + intros [rest [= -> ->]]. split; [apply Ascii.eqb_refl | by exists rest].
Qed.

Lemma Contains_spec (s sub : string) :
  strings.Contains s sub = true ↔ substring sub s.
Proof.
  unfold substring. induction s as [|c s IH]; cbn [strings.Contains].
  - rewrite orb_false_r, HasPrefix_spec. split.
    + intros [rest ->]. by exists EmptyString, rest.
    + intros (before & after & Heq). destruct before; [by exists after|done].
  - rewrite orb_true_iff, HasPrefix_spec, IH. split.
    + intros [[rest ->] | (before & after & ->)].
      * by exists EmptyString, rest.
      * by exists (String c before), after.
    + intros (before & after & Heq). destruct before as [|b before].
      * left. by exists after.
      * right. injection Heq as -> ->. by exists before, after.
Qed.

Lemma matchesAny_spec (errMsg : string) (patterns : list string) :
  matchesAny errMsg patterns = true
  ↔ ∃ p, p ∈ patterns ∧ substring p errMsg.
Proof.
  induction patterns as [|q patterns IH]; simpl.
  - split; [done | intros (p & Hp & _); by apply elem_of_nil in Hp].
  - destruct (strings.Contains errMsg q) eqn:Hq.
    + split; [|done]. intros _. exists q. split; [left | by apply Contains_spec].
    + rewrite IH. split.
      * intros (p & Hp & Hsub). exists p. split; [by right | done].
      * intros (p & Hp & Hsub). apply elem_of_cons in Hp as [-> | Hp].
        -- apply Contains_spec in Hsub. congruence.
        -- by exists p.
Qed.

(** ** What the client receives *)

Lemma emit_resp l lvl msg args w : resp (emit l lvl msg args w) = resp w.
Proof. unfold emit. by destruct (Enabled l lvl). Qed.

Lemma emit_conn l lvl msg args w : conn (emit l lvl msg args w) = conn w.
Proof. unfold emit. by destruct (Enabled l lvl). Qed.

Lemma emit_log l lvl msg args w :
  log (emit l lvl msg args w)
  = log w ++ (if Enabled l lvl then [slog.mkLogRecord lvl msg args] else []).
Proof. unfold emit. destruct (Enabled l lvl); simpl; [done | by rewrite app_nil_r]. Qed.

(** The handler of the proxy lets Info, Warn and Error records through. *)
Lemma defaultHandler_enabled (lvl : Z) :
  slog.LevelInfo ≤ lvl → Enabled defaultHandler lvl = true.
Proof. intros Hlvl. unfold Enabled. simpl. apply Z.geb_le. exact Hlvl. Qed.

Lemma copyResponse_emit l lvl msg args w :
  copyResponse (emit l lvl msg args w) = copyResponse w.
Proof. unfold copyResponse. by rewrite emit_resp, emit_conn. Qed.

Lemma copyResponse_buffered w :
  Body (resp w) = Upstream → failure (conn w) = None →
  copyResponse (buffered w) = copyResponse w.
Proof. intros Hbody Hfail. unfold copyResponse, buffered. simpl. by rewrite Hbody, Hfail. Qed.

Lemma eligible_copyResponse w :
  eligible w → copyResponse (buffered w) = copyResponse w.
Proof. intros (Hbody & _ & _ & Hfail & _). by apply copyResponse_buffered. Qed.

Section Interception.
Variable To_LowerCase : N → N.
Variable ValidateResponse : ResponseValidationInput → option error.

Local Abbreviation validateResponse := (validateResponse To_LowerCase ValidateResponse).
Local Abbreviation ReverseProxy_respond :=
  (ReverseProxy_respond To_LowerCase ValidateResponse).
Local Abbreviation isUndocumentedEndpoint := (isUndocumentedEndpoint To_LowerCase).
Local Abbreviation strings_ToLower := (strings_ToLower To_LowerCase).
Local Abbreviation validationFails := (validationFails ValidateResponse).

(** C8. For every response whose Content-Type header does not contain the
    substring "application/json", the hook returns nil at once: nothing is
    validated, nothing is logged, nothing is read or changed, and the
    status, the headers and the body the client receives are those of the
    upstream response, whatever the mode of the proxy. *)
Theorem non_json_short_circuit (vp : ValidatingProxy) (w : World) :
  strings.Contains (Header_Get (Header (resp w)) "Content-Type") "application/json"
    = false →
  validateResponse vp w = (None, w)
  ∧ ReverseProxy_respond vp w = (copyResponse w, w).
Proof.
  intros Hct. pose proof (path_not_json To_LowerCase ValidateResponse vp w Hct) as Hrun.
  split; [done|]. unfold ReverseProxy_respond. by rewrite Hrun.
Qed.

(** C7. A resolver failure is classified as an undocumented endpoint if and
    only if its message, lowercased, contains one of the six patterns; and
    for every response that reaches route resolution and whose resolution
    fails with such a message, the hook returns nil, the client receives
    the upstream response unmodified, and the only record logged is the
    Warn-level record "Undocumented endpoint": no Error-level record. *)
Theorem undocumented_endpoint_passthrough :
  (∀ msg : string,
     isUndocumentedEndpoint (Some msg) = true
     ↔ ∃ p, p ∈ [ "no matching operation"%string; "path not found"%string;
                  "no route found"%string; "operation not found"%string;
                  "no match found"%string; "unknown path"%string ]
            ∧ substring p (strings_ToLower msg))
  ∧ (∀ (vp : ValidatingProxy) (w : World) (msg : string),
       eligible w →
       router vp (Request (resp w)) = inr msg →
       isUndocumentedEndpoint (Some msg) = true →
       ∃ w' new,
         validateResponse vp w = (None, w')
         ∧ ReverseProxy_respond vp w = (copyResponse w, w')
         ∧ log w' = log w ++ new
         ∧ Forall (fun rec => slog.Level rec = slog.LevelWarn) new
         ∧ (Enabled (logger vp) slog.LevelWarn = true →
            new = [undocumentedRecord (Request (resp w))])).
Proof.
  split.
  - intros msg. unfold isUndocumentedEndpoint. apply matchesAny_spec.
  - intros vp w msg Helig Hroute Hundoc.
    pose proof (path_undocumented To_LowerCase ValidateResponse vp w msg
                  Helig Hroute Hundoc) as Hrun.
    eexists _, _. split; [exact Hrun|].
    split; [|split; [by rewrite emit_log|split]].
    + unfold ReverseProxy_respond. rewrite Hrun.
      by rewrite copyResponse_emit, eligible_copyResponse.
    + destruct (Enabled _ _); by repeat constructor.
    + by intros ->.
Qed.

End Interception.

Lemma non_json_short_circuit_witness :
  validateResponse sampleLowerCase accepting (sampleProxy ModeStrict resolving)
    (upstreamResponse 200 htmlHeader sampleBody)
  = (None, upstreamResponse 200 htmlHeader sampleBody)
  ∧ ReverseProxy_respond sampleLowerCase accepting (sampleProxy ModeStrict resolving)
      (upstreamResponse 200 htmlHeader sampleBody)
    = (copyResponse (upstreamResponse 200 htmlHeader sampleBody),
       upstreamResponse 200 htmlHeader sampleBody).
Proof.
  apply (non_json_short_circuit sampleLowerCase accepting
           (sampleProxy ModeStrict resolving)
           (upstreamResponse 200 htmlHeader sampleBody)).
  vm_compute. reflexivity.
Defined.

(** ** Sample inputs *)

Lemma len_replicate_Z {A} (n : Z) (x : A) : 0 ≤ n → len (replicate (Z.to_nat n) x) = n.
Proof. intros Hn. unfold len. rewrite length_replicate. lia. Qed.

Lemma dropZ_all {A} (n : Z) (l : list A) : len l ≤ n → dropZ n l = [].
Proof. intros Hn. rewrite dropZ_drop. apply drop_ge. unfold len in Hn. lia. Qed.

Lemma len_oversizeBody : len oversizeBody = maxSize + 1.
Proof. apply len_replicate_Z. unfold maxSize. lia. Qed.

Lemma len_ceilingBody : len ceilingBody = maxSize.
Proof. apply len_replicate_Z. unfold maxSize. lia. Qed.

Lemma jsonHeader_isJSON : isJSON jsonHeader.
Proof. by vm_compute. Qed.

Lemma jsonHeader_declaredWithin : declaredWithin jsonHeader.
Proof. intros size Hsize. vm_compute in Hsize. discriminate. Qed.

Lemma upstreamResponse_eligible (status : Z) (h : http.Header) (body : list byte) :
  isJSON h → declaredWithin h → len body ≤ maxSize →
  eligible (upstreamResponse status h body).
Proof. intros Hjson Hdecl Hlen. by repeat split. Qed.

Lemma sampleBody_small : len sampleBody ≤ maxSize.
Proof. by vm_compute. Qed.

Lemma undocumented_endpoint_passthrough_witness :
  ∃ w' new,
    validateResponse sampleLowerCase accepting
      (sampleProxy ModeWarn (failing "no matching operation"))
      (upstreamResponse 200 jsonHeader sampleBody) = (None, w')
    ∧ ReverseProxy_respond sampleLowerCase accepting
        (sampleProxy ModeWarn (failing "no matching operation"))
        (upstreamResponse 200 jsonHeader sampleBody)
      = (copyResponse (upstreamResponse 200 jsonHeader sampleBody), w')
    ∧ log w' = log (upstreamResponse 200 jsonHeader sampleBody) ++ new
    ∧ Forall (fun rec => slog.Level rec = slog.LevelWarn) new
    ∧ (Enabled (logger (sampleProxy ModeWarn (failing "no matching operation")))
         slog.LevelWarn = true →
       new = [undocumentedRecord
                (Request (resp (upstreamResponse 200 jsonHeader sampleBody)))]).
Proof.
  apply (proj2 (undocumented_endpoint_passthrough sampleLowerCase accepting)
           (sampleProxy ModeWarn (failing "no matching operation"))
           (upstreamResponse 200 jsonHeader sampleBody)
           "no matching operation"%string).
  - apply upstreamResponse_eligible;
      [apply jsonHeader_isJSON | apply jsonHeader_declaredWithin | apply sampleBody_small].
  - reflexivity.
  - vm_compute. reflexivity.
Defined.

(** ** The size gates *)

Section SizeGates.
Variable To_LowerCase : N → N.
Variable ValidateResponse : ResponseValidationInput → option error.

Local Abbreviation validateResponse := (validateResponse To_LowerCase ValidateResponse).
Local Abbreviation ReverseProxy_respond :=
  (ReverseProxy_respond To_LowerCase ValidateResponse).

(** A response skipped on its declared length passes through untouched,
    and nothing is read from the stream. *)
Lemma declared_oversize_passthrough vp w size :
  isJSON (Header (resp w)) →
  strconv.ParseInt (Header_Get (Header (resp w)) "Content-Length") = Some size →
  maxSize < size →
  ∃ w', validateResponse vp w = (None, w')
        ∧ ReverseProxy_respond vp w = (copyResponse w, w')
        ∧ conn w' = conn w
        ∧ resp w' = resp w
        ∧ log w' = log w ++
            (if Enabled (logger vp) slog.LevelWarn then [tooLargeRecord size] else []).
Proof.
  intros Hjson Hparse Hgt.
  pose proof (path_declared_too_large To_LowerCase ValidateResponse vp w size
                Hjson Hparse Hgt) as Hrun.
  eexists. split; [exact Hrun|].
  split; [|split; [apply emit_conn | split; [apply emit_resp | apply emit_log]]].
  unfold ReverseProxy_respond. rewrite Hrun. by rewrite copyResponse_emit.
Qed.

(** A response found oversized while reading is let through with its
    stream advanced past the bytes read: the client receives what is left
    of the body, not the body. *)
Lemma read_oversize_consumed vp w :
  Body (resp w) = Upstream →
  isJSON (Header (resp w)) →
  declaredWithin (Header (resp w)) →
  maxSize < len (unread (conn w)) →
  ∃ w', validateResponse vp w = (None, w')
        ∧ ReverseProxy_respond vp w
          = (mkClientResponse (StatusCode (resp w)) (Header (resp w))
               (dropZ (maxSize + 1) (unread (conn w))) (failure (conn w)), w')
        ∧ resp w' = resp w
        ∧ unread (conn w') = dropZ (maxSize + 1) (unread (conn w))
        ∧ log w' = log w ++
            (if Enabled (logger vp) slog.LevelWarn
             then [tooLargeRecord (maxSize + 1)] else []).
Proof.
  intros Hbody Hjson Hdecl Hlen.
  pose proof (path_read_too_large To_LowerCase ValidateResponse vp w
                Hbody Hjson Hdecl Hlen) as Hrun.
  eexists. split; [exact Hrun|].
  split; [|split; [by rewrite emit_resp | split; [by rewrite emit_conn | by rewrite emit_log]]].
  unfold ReverseProxy_respond. rewrite Hrun.
  rewrite copyResponse_emit. unfold copyResponse. simpl. by rewrite Hbody.
Qed.

End SizeGates.

(** C1, on the code: a JSON response without Content-Length whose body is
    one byte longer than the 10 MiB ceiling.  The hook reads all 10485761
    bytes, logs the Warn record with that size and returns nil, leaving
    [resp.Body] on the drained stream: the client receives status and
    headers of the upstream response and an empty body, where the upstream
    body has 10485761 bytes. *)
Theorem oversize_body_without_length_is_lost :
  len (unread (conn (upstreamResponse 200 jsonHeader oversizeBody))) = 10485761
  ∧ ∃ w',
      ReverseProxy_respond sampleLowerCase accepting (sampleProxy ModeWarn resolving)
        (upstreamResponse 200 jsonHeader oversizeBody)
      = (mkClientResponse 200 jsonHeader [] None, w')
      ∧ log w' = [tooLargeRecord 10485761].
Proof.
  split; [exact len_oversizeBody|].
  assert (Hlen : maxSize < len (unread (conn (upstreamResponse 200 jsonHeader oversizeBody)))).
  { change (maxSize < len oversizeBody). rewrite len_oversizeBody. lia. }
  assert (Hdrop : dropZ (maxSize + 1)
                    (unread (conn (upstreamResponse 200 jsonHeader oversizeBody))) = []).
  { change (dropZ (maxSize + 1) oversizeBody = []).
    apply dropZ_all. rewrite len_oversizeBody. lia. }
  destruct (read_oversize_consumed sampleLowerCase accepting
              (sampleProxy ModeWarn resolving)
              (upstreamResponse 200 jsonHeader oversizeBody)
              eq_refl jsonHeader_isJSON jsonHeader_declaredWithin Hlen)
    as (w' & _ & Hclient & _ & _ & Hlog).
  exists w'. split.
  - rewrite Hclient, Hdrop. reflexivity.
  - rewrite Hlog. reflexivity.
Qed.

(** ** strconv: printing and parsing agree *)

Lemma ParseInt_unsigned (s : string) (d : Decimal.uint) (p : positive) :
  (∃ c rest, s = String c rest ∧ Ascii.eqb c "+" = false ∧ Ascii.eqb c "-" = false) →
  NilZero.uint_of_string s = Some d →
  N.of_uint d = N.pos p →
  Z.pos p < 2 ^ 63 →
  strconv.ParseInt s = Some (Z.pos p).
Proof.
  intros (c & rest & -> & Hplus & Hminus) Hd Hp Hlt.
  unfold strconv.ParseInt, strconv.ParseUint.
  rewrite Hplus, Hminus. cbn [orb negb andb]. rewrite Hd, Hp. cbv zeta.
  destruct (N.ltb_spec (N.pos p) (2 ^ 64)) as [_|?]; [|lia].
  by destruct (N.leb_spec (2 ^ 63) (N.pos p)) as [?|_]; [lia|].
Qed.

(** The decimal text [strconv.Itoa] prints for a non-negative 64-bit
    integer is read back by [strconv.ParseInt] as that integer. *)
Lemma ParseInt_Itoa (n : Z) :
  0 ≤ n < 2 ^ 63 → strconv.ParseInt (strconv.Itoa n) = Some n.
Proof.
  intros [Hlo Hhi]. destruct n as [|p|p]; [reflexivity| |lia].
  unfold strconv.Itoa. cbn [Z.to_int NilZero.string_of_int].
  pose proof (DecimalPos.Unsigned.to_uint_nonnil p) as Hnil.
  apply ParseInt_unsigned with (Pos.to_uint p).
  - destruct (Pos.to_uint p); [done|..]; by eexists _, _.
  - by apply NilZero.usu.
  - apply DecimalPos.Unsigned.of_to.
  - done.
Qed.

(** ** Resolver errors and validation failures *)

Lemma append_assoc (a b c : string) : (a +:+ b) +:+ c = a +:+ (b +:+ c).
Proof.
  induction a as [|x a IH]; [done|].
  change (String x ((a +:+ b) +:+ c) = String x (a +:+ b +:+ c)). by rewrite IH.
Qed.

Lemma Marshal_error_body (d : error) :
  json.Marshal [ ("error"%string, "Response validation failed"%string);
                 ("details"%string, d) ]
  = bytes (errorBodyText d).
Proof.
  unfold json.Marshal, bytes, errorBodyText. f_equal.
  change (json.sortKeys [ ("error"%string, "Response validation failed"%string);
                          ("details"%string, d) ])
    with [ ("details"%string, d); ("error"%string, "Response validation failed"%string) ].
  unfold json.fields, json.field, fst, snd.
  rewrite !append_assoc. reflexivity.
Qed.

Lemma rewritten_header (d : error) (w : World) :
  Header (resp (rewritten d w))
  = delete "Last-Modified"%string
      (delete "Etag"%string
         (delete "Transfer-Encoding"%string
            (delete "Content-Encoding"%string
               (<["Content-Length"%string := [strconv.Itoa (len (bytes (errorBodyText d)))]]>
                  (<["Content-Type"%string := ["application/json"%string]]>
                     (Header (resp w))))))).
Proof. rewrite <- Marshal_error_body. reflexivity. Qed.

Lemma rewritten_body (d : error) (w : World) :
  Body (resp (rewritten d w)) = Buffered (bytes (errorBodyText d)).
Proof. rewrite <- Marshal_error_body. reflexivity. Qed.

Lemma rewritten_status (d : error) (w : World) : StatusCode (resp (rewritten d w)) = 500.
Proof. reflexivity. Qed.

Lemma rewritten_log (d : error) (w : World) : log (rewritten d w) = log w.
Proof. reflexivity. Qed.

Lemma rewritten_conn (d : error) (w : World) : conn (rewritten d w) = conn w.
Proof. reflexivity. Qed.

Lemma String_eqb_refl_true (a b : string) : a = b → String.eqb a b = true.
Proof. intros ->. apply String.eqb_refl. Qed.

Section Enforcement.
Variable To_LowerCase : N → N.
Variable ValidateResponse : ResponseValidationInput → option error.

Local Abbreviation validateResponse := (validateResponse To_LowerCase ValidateResponse).
Local Abbreviation ReverseProxy_respond :=
  (ReverseProxy_respond To_LowerCase ValidateResponse).
Local Abbreviation isUndocumentedEndpoint := (isUndocumentedEndpoint To_LowerCase).
Local Abbreviation validationFails := (validationFails ValidateResponse).

(** C2, as the code has it. For every response that reaches route
    resolution and whose resolution fails with a message matching none of
    the undocumented-endpoint patterns, the hook aborts with the internal
    error "route finding error: <message>" and logs one Error-level record;
    it leaves status and headers as they were and the buffered body
    readable again with the upstream bytes.  Because the hook returned an
    error, the reverse proxy discards that response: the client receives
    502 Bad Gateway with no body. *)
Theorem route_error_aborts_with_bad_gateway
    (vp : ValidatingProxy) (w : World) (msg : string) :
  eligible w →
  router vp (Request (resp w)) = inr msg →
  isUndocumentedEndpoint (Some msg) = false →
  ∃ w',
    validateResponse vp w = (Some (routeFindingError msg), w')
    ∧ copyResponse w' = copyResponse w
    ∧ Body (resp w') = Buffered (unread (conn w))
    ∧ log w' = log w ++
        (if Enabled (logger vp) slog.LevelError
         then [routeErrorRecord msg (Request (resp w))] else [])
    ∧ ReverseProxy_respond vp w = (badGateway, w').
Proof.
  intros Helig Hroute Hundoc.
  pose proof (path_route_error To_LowerCase ValidateResponse vp w msg
                Helig Hroute Hundoc) as Hrun.
  eexists. split; [exact Hrun|].
  split; [by rewrite copyResponse_emit, eligible_copyResponse|].
  split; [by rewrite emit_resp|].
  split; [by rewrite emit_log|].
  unfold ReverseProxy_respond. by rewrite Hrun.
Qed.

(** The outcome of a validation failure in Strict mode. *)
Lemma path_invalid_strict vp w d :
  validationFails vp w d →
  mode vp = ModeStrict →
  validateResponse vp w
  = (None, rewritten d
             (emit (logger vp) slog.LevelError "Response validation failed"
                (slog.mkAttr "error" (slog.AnyValue d)
                   :: requestAttrs (Request (resp w))
                   ++ [slog.mkAttr "status" (slog.Int64Value (StatusCode (resp w)))])
                (buffered w))).
Proof.
  intros Hfails Hmode.
  rewrite (path_invalid To_LowerCase ValidateResponse vp w d Hfails).
  cbv zeta. by rewrite (String_eqb_refl_true _ _ Hmode).
Qed.

(** C3, as the code has it. In Strict mode, when validation fails with
    detail [d], the client receives status 500 and the body
    {"details":<d as a JSON string>,"error":"Response validation failed"}:
    the object with exactly the keys "error" and "details", serialised with
    its keys in sorted order.  For d = "field 'id' required" the body is
    {"details":"field 'id' required","error":"Response validation failed"}. *)
Theorem strict_failure_body (vp : ValidatingProxy) (w : World) (d : error) :
  validationFails vp w d →
  mode vp = ModeStrict →
  ∃ client w',
    ReverseProxy_respond vp w = (client, w')
    ∧ clientStatus client = 500
    ∧ clientBody client = bytes (errorBodyText d)
    ∧ clientAbort client = None
    ∧ (d = exampleDetail → clientBody client = bytes exampleBodyText).
Proof.
  intros Hfails Hmode.
  pose proof (path_invalid_strict vp w d Hfails Hmode) as Hrun.
  eexists _, _. split.
  { unfold ReverseProxy_respond. rewrite Hrun. reflexivity. }
  unfold copyResponse. rewrite rewritten_body. simpl.
  repeat split. by intros ->.
Qed.

(** C4. For every response where the mode is Strict and validation fails,
    the rewrite sets the status to 500, sets Content-Type to
    application/json, sets Content-Length to the decimal byte length of the
    new body, removes Content-Encoding, Transfer-Encoding, ETag and
    Last-Modified, and leaves every other header as it was; the client
    receives the response so rewritten. *)
Theorem strict_failure_rewrite (vp : ValidatingProxy) (w : World) (d : error) :
  validationFails vp w d →
  mode vp = ModeStrict →
  ∃ w' body',
    validateResponse vp w = (None, w')
    ∧ ReverseProxy_respond vp w = (copyResponse w', w')
    ∧ Body (resp w') = Buffered body'
    ∧ StatusCode (resp w') = 500
    ∧ Header (resp w') !! "Content-Type"%string = Some ["application/json"%string]
    ∧ Header (resp w') !! "Content-Length"%string = Some [strconv.Itoa (len body')]
    ∧ (len body' < 2 ^ 63 →
       strconv.ParseInt (Header_Get (Header (resp w')) "Content-Length")
       = Some (len body'))
    ∧ (∀ k, k ∈ [ "Content-Encoding"%string; "Transfer-Encoding"%string;
                  "ETag"%string; "Last-Modified"%string ] →
         Header_Get (Header (resp w')) k = EmptyString
         ∧ Header (resp w') !! textproto.CanonicalMIMEHeaderKey k = None)
    ∧ (∀ k, k ∉ rewrittenKeys →
         Header (resp w') !! k = Header (resp w) !! k).
Proof.
  intros Hfails Hmode.
  pose proof (path_invalid_strict vp w d Hfails Hmode) as Hrun.
  eexists _, _. split; [exact Hrun|].
  split. { unfold ReverseProxy_respond. by rewrite Hrun. }
  split; [apply rewritten_body|].
  split; [apply rewritten_status|].
  rewrite rewritten_header.
  split; [by simplify_map_eq|].
  split; [by simplify_map_eq|].
  split.
  { intros Hlen. unfold Header_Get.
    change (textproto.CanonicalMIMEHeaderKey "Content-Length") with "Content-Length"%string.
    rewrite !lookup_delete_ne, lookup_insert_eq by done.
    apply ParseInt_Itoa. split; [apply len_nonneg | done]. }
  split.
  - intros k Hk. unfold Header_Get.
    rewrite !elem_of_cons, elem_of_nil in Hk.
    destruct Hk as [-> | [-> | [-> | [-> | []]]]];
      match goal with
      | |- context [textproto.CanonicalMIMEHeaderKey ?k] =>
          let k' := eval vm_compute in (textproto.CanonicalMIMEHeaderKey k) in
          change (textproto.CanonicalMIMEHeaderKey k) with k'
      end;
      by simplify_map_eq.
  - intros k Hk. unfold rewrittenKeys in Hk.
    rewrite !not_elem_of_cons in Hk. destruct Hk as (? & ? & ? & ? & ? & ? & _).
    rewrite emit_resp.
    rewrite !lookup_delete_ne, !lookup_insert_ne by done.
    reflexivity.
Qed.

(** X19. In the other modes a validation failure is logged at Error level
    and the response passes through as it came. *)
Lemma lenient_failure_passthrough (vp : ValidatingProxy) (w : World) (d : error) :
  validationFails vp w d →
  mode vp ≠ ModeStrict →
  ∃ w',
    validateResponse vp w = (None, w')
    ∧ ReverseProxy_respond vp w = (copyResponse w, w')
    ∧ log w' = log w ++
        (if Enabled (logger vp) slog.LevelError
         then [validationFailedRecord d (Request (resp w)) (StatusCode (resp w))]
         else []).
Proof.
  intros Hfails Hmode.
  pose proof (path_invalid To_LowerCase ValidateResponse vp w d Hfails) as Hrun.
  cbv zeta in Hrun.
  destruct (String.eqb_spec (mode vp) ModeStrict) as [?|_]; [done|].
  eexists. split; [exact Hrun|]. split; [|by rewrite emit_log].
  unfold ReverseProxy_respond. rewrite Hrun.
  rewrite copyResponse_emit. f_equal. apply eligible_copyResponse, Hfails.
Qed.

(** X20. A response the validator accepts passes through as it came, and
    nothing is logged. *)
Lemma valid_response_passthrough (vp : ValidatingProxy) (w : World) route pathParams :
  eligible w →
  router vp (Request (resp w)) = inl (route, pathParams) →
  ValidateResponse (validationInput w route pathParams) = None →
  ReverseProxy_respond vp w = (copyResponse w, buffered w)
  ∧ log (buffered w) = log w.
Proof.
  intros Helig Hroute Hvalid. split; [|done].
  unfold ReverseProxy_respond.
  rewrite (path_valid To_LowerCase ValidateResponse vp w route pathParams
             Helig Hroute Hvalid).
  f_equal. by apply eligible_copyResponse.
Qed.

(** X21. A read that fails before the limit aborts the hook with the error
    of the read: nothing is logged, nothing is validated, and the reverse
    proxy answers 502. *)
Lemma read_error_aborts (vp : ValidatingProxy) (w : World) (e : error) :
  Body (resp w) = Upstream →
  isJSON (Header (resp w)) →
  declaredWithin (Header (resp w)) →
  len (unread (conn w)) ≤ maxSize →
  failure (conn w) = Some e →
  ∃ w',
    validateResponse vp w = (Some e, w')
    ∧ ReverseProxy_respond vp w = (badGateway, w')
    ∧ log w' = log w.
Proof.
  intros Hbody Hjson Hdecl Hlen Hfail.
  pose proof (path_read_error To_LowerCase ValidateResponse vp w e
                Hbody Hjson Hdecl Hlen Hfail) as Hrun.
  eexists. split; [exact Hrun|]. split; [|done].
  unfold ReverseProxy_respond. by rewrite Hrun.
Qed.

End Enforcement.

Lemma cachedHeader_isJSON : isJSON cachedHeader.
Proof. by vm_compute. Qed.

Lemma cachedHeader_declaredWithin : declaredWithin cachedHeader.
Proof. intros size Hsize. vm_compute in Hsize. discriminate. Qed.

Lemma sample_validationFails (m : Mode) (status : Z) (h : http.Header) (body : list byte)
    (d : error) :
  isJSON h → declaredWithin h → len body ≤ maxSize →
  validationFails (rejecting d) (sampleProxy m resolving)
    (upstreamResponse status h body) d.
Proof.
  intros Hjson Hdecl Hlen. split; [by apply upstreamResponse_eligible|].
  by eexists _, _.
Qed.

(** C2 as stated fails: a resolver failure "connection refused" on an
    eligible response answers the client with 502 and no body, not with the
    upstream response. *)
Lemma route_error_is_not_fail_open :
  eligible (upstreamResponse 200 jsonHeader sampleBody)
  ∧ router (sampleProxy ModeWarn (failing "connection refused"))
      (Request (resp (upstreamResponse 200 jsonHeader sampleBody)))
    = inr "connection refused"%string
  ∧ isUndocumentedEndpoint sampleLowerCase (Some "connection refused"%string) = false
  ∧ fst (ReverseProxy_respond sampleLowerCase accepting
           (sampleProxy ModeWarn (failing "connection refused"))
           (upstreamResponse 200 jsonHeader sampleBody))
    ≠ copyResponse (upstreamResponse 200 jsonHeader sampleBody).
Proof.
  split; [|split; [reflexivity|split; [reflexivity|]]].
  - apply upstreamResponse_eligible;
      [apply jsonHeader_isJSON | apply jsonHeader_declaredWithin | apply sampleBody_small].
  - intros Heq. apply (f_equal clientStatus) in Heq. vm_compute in Heq. discriminate.
Qed.

Lemma route_error_aborts_with_bad_gateway_witness :
  ∃ w',
    ReverseProxy_respond sampleLowerCase accepting
      (sampleProxy ModeWarn (failing "connection refused"))
      (upstreamResponse 200 jsonHeader sampleBody)
    = (badGateway, w')
    ∧ copyResponse w' = copyResponse (upstreamResponse 200 jsonHeader sampleBody)
    ∧ log w' = [routeErrorRecord "connection refused" sampleRequest].
Proof.
  destruct (route_error_aborts_with_bad_gateway sampleLowerCase accepting
              (sampleProxy ModeWarn (failing "connection refused"))
              (upstreamResponse 200 jsonHeader sampleBody)
              "connection refused"%string
              (upstreamResponse_eligible 200 jsonHeader sampleBody
                 jsonHeader_isJSON jsonHeader_declaredWithin sampleBody_small)
              eq_refl eq_refl)
    as (w' & _ & Hcopy & _ & Hlog & Hclient).
  exists w'. split; [exact Hclient|]. split; [exact Hcopy|]. exact Hlog.
Defined.

(** C3 as stated fails: for the detail "field 'id' required" the body is
    not the text with the key "error" first. *)
Lemma strict_failure_body_is_sorted :
  validationFails (rejecting exampleDetail) (sampleProxy ModeStrict resolving)
    (upstreamResponse 200 jsonHeader sampleBody) exampleDetail
  ∧ mode (sampleProxy ModeStrict resolving) = ModeStrict
  ∧ clientBody (fst (ReverseProxy_respond sampleLowerCase (rejecting exampleDetail)
                       (sampleProxy ModeStrict resolving)
                       (upstreamResponse 200 jsonHeader sampleBody)))
    ≠ bytes claimedBodyText.
Proof.
  split; [|split; [reflexivity|]].
  - apply sample_validationFails;
      [apply jsonHeader_isJSON | apply jsonHeader_declaredWithin | apply sampleBody_small].
  - intros Heq. vm_compute in Heq. discriminate.
Qed.

Lemma strict_failure_body_witness :
  ∃ client w',
    ReverseProxy_respond sampleLowerCase (rejecting exampleDetail)
      (sampleProxy ModeStrict resolving)
      (upstreamResponse 200 jsonHeader sampleBody) = (client, w')
    ∧ clientStatus client = 500
    ∧ clientBody client = bytes exampleBodyText.
Proof.
  destruct (strict_failure_body sampleLowerCase (rejecting exampleDetail)
              (sampleProxy ModeStrict resolving)
              (upstreamResponse 200 jsonHeader sampleBody) exampleDetail
              (sample_validationFails ModeStrict 200 jsonHeader sampleBody exampleDetail
                 jsonHeader_isJSON jsonHeader_declaredWithin sampleBody_small)
              eq_refl)
    as (client & w' & Hclient & Hstatus & _ & _ & Hexample).
  exists client, w'. split; [exact Hclient|]. split; [exact Hstatus|].
  exact (Hexample eq_refl).
Defined.

Lemma strict_failure_rewrite_witness :
  ∃ w' body',
    validateResponse sampleLowerCase (rejecting exampleDetail)
      (sampleProxy ModeStrict resolving)
      (upstreamResponse 200 cachedHeader sampleBody) = (None, w')
    ∧ Body (resp w') = Buffered body'
    ∧ StatusCode (resp w') = 500
    ∧ Header (resp w') !! "Content-Type"%string = Some ["application/json"%string]
    ∧ Header (resp w') !! "Content-Length"%string = Some [strconv.Itoa (len body')]
    ∧ Header_Get (Header (resp w')) "Content-Encoding" = EmptyString
    ∧ Header_Get (Header (resp w')) "ETag" = EmptyString
    ∧ Header (resp w') !! "X-http.Request-Id"%string = Some ["42"%string].
Proof.
  destruct (strict_failure_rewrite sampleLowerCase (rejecting exampleDetail)
              (sampleProxy ModeStrict resolving)
              (upstreamResponse 200 cachedHeader sampleBody) exampleDetail
              (sample_validationFails ModeStrict 200 cachedHeader sampleBody exampleDetail
                 cachedHeader_isJSON cachedHeader_declaredWithin sampleBody_small)
              eq_refl)
    as (w' & body' & Hrun & _ & Hbody & Hstatus & Hct & Hcl & _ & Hdel & Hother).
  exists w', body'.
  split; [exact Hrun|]. split; [exact Hbody|]. split; [exact Hstatus|].
  split; [exact Hct|]. split; [exact Hcl|].
  split; [apply Hdel; rewrite !elem_of_cons; tauto|].
  split; [apply Hdel; rewrite !elem_of_cons; tauto|].
  rewrite Hother; [reflexivity|].
  unfold rewrittenKeys. rewrite !not_elem_of_cons. repeat split; try done.
  apply not_elem_of_nil.
Defined.

(** ** Past the size gates *)

Section Boundary.
Variable To_LowerCase : N → N.
Variable ValidateResponse : ResponseValidationInput → option error.

Local Abbreviation validateResponse := (validateResponse To_LowerCase ValidateResponse).
Local Abbreviation ReverseProxy_respond :=
  (ReverseProxy_respond To_LowerCase ValidateResponse).
Local Abbreviation isUndocumentedEndpoint := (isUndocumentedEndpoint To_LowerCase).
Local Abbreviation validationFails := (validationFails ValidateResponse).

(** The hook touches the stream in one place only: the limited read, when
    [resp.Body] is that stream. *)
Lemma hook_conn vp w :
  conn (snd (validateResponse vp w)) = conn w
  ∨ conn (snd (validateResponse vp w)) = snd (readAllLimited (maxSize + 1) (conn w)).
Proof.
  unfold validateResponse. hook_steps.
  destruct (negb _); [by left|].
  destruct (if negb _ then _ else None) as [size|]; [left; apply emit_conn|].
  destruct (Body (resp w)) as [|data].
  - destruct (readAllLimited (maxSize + 1) (conn w)) as [[bodyBytes err] s'].
    right. repeat case_match; simpl; rewrite ?emit_conn; reflexivity.
  - destruct (readAllLimited (maxSize + 1) (mkStream data None)) as [[bodyBytes err] s'].
    left. repeat case_match; simpl; rewrite ?emit_conn; reflexivity.
Qed.

(** A response that reaches route resolution has its whole body buffered,
    and no record of the size gates is logged for it. *)
Lemma eligible_reaches_resolution vp w :
  eligible w →
  ∃ err w' new,
    validateResponse vp w = (err, w')
    ∧ (∃ b, Body (resp w') = Buffered b)
    ∧ conn w' = mkStream [] None
    ∧ log w' = log w ++ new
    ∧ Forall (fun rec => slog.Message rec ≠ "Response too large, skipping validation"%string)
        new.
Proof.
  intros Helig.
  assert (Hfail : failure (conn w) = None) by apply Helig.
  assert (Hconn : conn (buffered w) = mkStream [] None).
  { unfold buffered. simpl. by rewrite Hfail. }
  destruct (router vp (Request (resp w))) as [[route pathParams]|msg] eqn:Hroute.
  - destruct (ValidateResponse (validationInput w route pathParams)) as [d|] eqn:Hvalid.
    + assert (Hfails : validationFails vp w d) by (split; [done | by eexists _, _]).
      eexists _, _, _. split; [exact (path_invalid _ _ vp w d Hfails)|].
      cbv zeta. destruct (String.eqb (mode vp) ModeStrict).
      * rewrite rewritten_body, rewritten_log, rewritten_conn, emit_conn, emit_log.
        split; [by eexists|]. split; [done|].
        split; [reflexivity|]. destruct (Enabled _ _); by repeat constructor.
      * rewrite emit_resp, emit_conn, emit_log.
        split; [by eexists|]. split; [done|].
        split; [reflexivity|]. destruct (Enabled _ _); by repeat constructor.
    + eexists _, _, []. split; [exact (path_valid _ _ vp w route pathParams Helig Hroute Hvalid)|].
      split; [by eexists|]. split; [done|]. split; [by rewrite app_nil_r | constructor].
  - destruct (isUndocumentedEndpoint (Some msg)) eqn:Hundoc.
    + eexists _, _, _. split; [exact (path_undocumented _ _ vp w msg Helig Hroute Hundoc)|].
      rewrite emit_resp, emit_conn, emit_log.
      split; [by eexists|]. split; [done|].
      split; [reflexivity|]. destruct (Enabled _ _); by repeat constructor.
    + eexists _, _, _. split; [exact (path_route_error _ _ vp w msg Helig Hroute Hundoc)|].
      rewrite emit_resp, emit_conn, emit_log.
      split; [by eexists|]. split; [done|].
      split; [reflexivity|]. destruct (Enabled _ _); by repeat constructor.
Qed.

(** What a response that reaches route resolution and resolves gets: the
    verdict of the validator on the whole body. *)
Lemma eligible_validated vp w route pathParams :
  eligible w →
  router vp (Request (resp w)) = inl (route, pathParams) →
  (ValidateResponse (validationInput w route pathParams) = None →
   validateResponse vp w = (None, buffered w))
  ∧ (∀ d, ValidateResponse (validationInput w route pathParams) = Some d →
       Enabled (logger vp) slog.LevelError = true →
       validationFailedRecord d (Request (resp w)) (StatusCode (resp w))
         ∈ log (snd (validateResponse vp w))).
Proof.
  intros Helig Hroute. split.
  - intros Hvalid. by apply path_valid with route pathParams.
  - intros d Hvalid Hen.
    assert (Hfails : validationFails vp w d) by (split; [done | by eexists _, _]).
    rewrite (path_invalid _ _ vp w d Hfails). cbv zeta. simpl.
    assert (Hin : validationFailedRecord d (Request (resp w)) (StatusCode (resp w))
                  ∈ log (emit (logger vp) slog.LevelError "Response validation failed"
                           (slog.mkAttr "error" (slog.AnyValue d)
                              :: requestAttrs (Request (resp w))
                              ++ [slog.mkAttr "status"
                                    (slog.Int64Value (StatusCode (resp w)))])
                           (buffered w))).
    { rewrite emit_log, Hen. apply elem_of_app. right. by left. }
    by destruct (String.eqb (mode vp) ModeStrict).
Qed.

(** C5. The size gate is strictly greater-than.  A JSON response whose
    declared Content-Length (the 64-bit integer [strconv.ParseInt] reads
    from the header) exceeds the ceiling of 10 MiB is skipped with the Warn
    record of the declared size, and the body stream is not read.
    A declared length of exactly the ceiling does not close the gate, and a
    body of exactly that many bytes is not skipped: it is buffered whole, no
    size record is logged, and when the route resolves, the verdict of the
    validator on those bytes decides the outcome.  Whatever the response,
    the hook reads at most one byte more than the ceiling from the
    stream. *)
Theorem size_gate_is_strict :
  (∀ (vp : ValidatingProxy) (w : World) (size : Z),
     isJSON (Header (resp w)) →
     strconv.ParseInt (Header_Get (Header (resp w)) "Content-Length") = Some size →
     maxSize < size →
     ∃ w', validateResponse vp w = (None, w')
           ∧ conn w' = conn w
           ∧ resp w' = resp w
           ∧ log w' = log w ++
               (if Enabled (logger vp) slog.LevelWarn then [tooLargeRecord size] else []))
  ∧ (∀ h : http.Header,
       strconv.ParseInt (Header_Get h "Content-Length") = Some maxSize → declaredWithin h)
  ∧ (∀ (vp : ValidatingProxy) (w : World),
       Body (resp w) = Upstream →
       isJSON (Header (resp w)) →
       declaredWithin (Header (resp w)) →
       failure (conn w) = None →
       len (unread (conn w)) = maxSize →
       (∃ err w' new,
          validateResponse vp w = (err, w')
          ∧ (∃ b, Body (resp w') = Buffered b)
          ∧ log w' = log w ++ new
          ∧ Forall (fun rec => slog.Message rec
                                ≠ "Response too large, skipping validation"%string) new)
       ∧ (∀ route pathParams,
            router vp (Request (resp w)) = inl (route, pathParams) →
            (ValidateResponse (validationInput w route pathParams) = None →
             validateResponse vp w = (None, buffered w))
            ∧ (∀ d, ValidateResponse (validationInput w route pathParams) = Some d →
                 Enabled (logger vp) slog.LevelError = true →
                 validationFailedRecord d (Request (resp w)) (StatusCode (resp w))
                   ∈ log (snd (validateResponse vp w)))))
  ∧ (∀ (vp : ValidatingProxy) (w : World),
       ∃ got, unread (conn w) = got ++ unread (conn (snd (validateResponse vp w)))
              ∧ len got ≤ maxSize + 1).
Proof.
  split; [|split; [|split]].
  - intros vp w size Hjson Hparse Hgt.
    destruct (declared_oversize_passthrough To_LowerCase ValidateResponse vp w size
                Hjson Hparse Hgt) as (w' & Hrun & _ & Hconn & Hresp & Hlog).
    by exists w'.
  - intros h Hparse size Hsize. rewrite Hparse in Hsize. injection Hsize as <-. lia.
  - intros vp w Hbody Hjson Hdecl Hfail Hlen.
    assert (Helig : eligible w) by (repeat split; [done..|lia]).
    split.
    + destruct (eligible_reaches_resolution vp w Helig)
        as (err & w' & new & Hrun & Hbuf & _ & Hlog & Hnew).
      by exists err, w', new.
    + intros route pathParams Hroute. by apply eligible_validated.
  - intros vp w.
    destruct (hook_conn vp w) as [-> | ->].
    + exists []. split; [done|]. unfold maxSize, len. simpl. lia.
    + pose proof (readAllLimited_prefix (maxSize + 1) (conn w)) as Hpre.
      destruct (readAllLimited (maxSize + 1) (conn w)) as [[got err] s'].
      destruct Hpre as [Hsplit Hgot]; [unfold maxSize; lia|].
      by exists got.
Qed.

(** C10. If a JSON response carries a Content-Length header whose value
    does not parse as a decimal integer, the declared-size gate is
    bypassed: the body is read through the limited reader all the same, and
    the bytes read decide.  More than 10 MiB: validation is skipped with
    the Warn record.  At most 10 MiB: the hook fails only if the read
    itself fails, with the error of the read, and otherwise goes on to
    route resolution with the whole body buffered and no size record
    logged. *)
Theorem malformed_content_length_is_ignored (vp : ValidatingProxy) (w : World) :
  Body (resp w) = Upstream →
  isJSON (Header (resp w)) →
  strconv.ParseInt (Header_Get (Header (resp w)) "Content-Length") = None →
  conn (snd (validateResponse vp w)) = snd (readAllLimited (maxSize + 1) (conn w))
  ∧ (maxSize < len (unread (conn w)) →
     validateResponse vp w
     = (None, emit (logger vp) slog.LevelWarn "Response too large, skipping validation"
                [slog.mkAttr "size" (slog.Int64Value (maxSize + 1))]
                (mkWorld (mkStream (dropZ (maxSize + 1) (unread (conn w)))
                            (failure (conn w)))
                   (resp w) (log w))))
  ∧ (len (unread (conn w)) ≤ maxSize →
     ∀ e, failure (conn w) = Some e →
       validateResponse vp w = (Some e, mkWorld (mkStream [] (Some e)) (resp w) (log w)))
  ∧ (len (unread (conn w)) ≤ maxSize →
     failure (conn w) = None →
     ∃ err w' new,
       validateResponse vp w = (err, w')
       ∧ (∃ b, Body (resp w') = Buffered b)
       ∧ log w' = log w ++ new
       ∧ Forall (fun rec => slog.Message rec
                             ≠ "Response too large, skipping validation"%string) new).
Proof.
  intros Hbody Hjson Hparse.
  assert (Hdecl : declaredWithin (Header (resp w))).
  { intros size Hsize. rewrite Hparse in Hsize. discriminate. }
  assert (Hlarge : maxSize < len (unread (conn w)) →
                   validateResponse vp w
                   = (None, emit (logger vp) slog.LevelWarn
                              "Response too large, skipping validation"
                              [slog.mkAttr "size" (slog.Int64Value (maxSize + 1))]
                              (mkWorld (mkStream (dropZ (maxSize + 1) (unread (conn w)))
                                          (failure (conn w)))
                                 (resp w) (log w)))).
  { intros Hlen. by apply path_read_too_large. }
  assert (Herr : len (unread (conn w)) ≤ maxSize →
                 ∀ e, failure (conn w) = Some e →
                   validateResponse vp w
                   = (Some e, mkWorld (mkStream [] (Some e)) (resp w) (log w))).
  { intros Hlen e Hfail. by apply path_read_error. }
  assert (Hok : len (unread (conn w)) ≤ maxSize →
                failure (conn w) = None →
                ∃ err w' new,
                  validateResponse vp w = (err, w')
                  ∧ (∃ b, Body (resp w') = Buffered b)
                  ∧ conn w' = mkStream [] None
                  ∧ log w' = log w ++ new
                  ∧ Forall (fun rec => slog.Message rec
                                ≠ "Response too large, skipping validation"%string) new).
  { intros Hlen Hfail. by apply eligible_reaches_resolution. }
  split; [|split; [done|split; [done|]]].
  - destruct (Z.lt_ge_cases maxSize (len (unread (conn w)))) as [Hlen|Hlen].
    + rewrite (Hlarge Hlen). simpl. rewrite emit_conn. simpl.
      by rewrite readAllLimited_full by lia.
    + rewrite readAllLimited_fits by lia. simpl.
      destruct (failure (conn w)) as [e|] eqn:Hfail.
      * by rewrite (Herr Hlen e).
      * destruct (Hok Hlen eq_refl) as (err & w' & new & -> & _ & Hconn & _). done.
  - intros Hlen Hfail.
    destruct (Hok Hlen Hfail) as (err & w' & new & Hrun & Hbuf & _ & Hlog & Hnew).
    by exists err, w', new.
Qed.

End Boundary.

Lemma lengthHeader_isJSON (cl : string) : isJSON (lengthHeader cl).
Proof. by vm_compute. Qed.

Lemma lengthHeader_Get (cl : string) : Header_Get (lengthHeader cl) "Content-Length" = cl.
Proof. reflexivity. Qed.

Lemma size_gate_is_strict_witness :
  (∃ w',
     validateResponse sampleLowerCase accepting (sampleProxy ModeWarn resolving)
       (upstreamResponse 200 (lengthHeader "20971520") sampleBody) = (None, w')
     ∧ conn w' = mkStream sampleBody None
     ∧ log w' = [tooLargeRecord 20971520])
  ∧ (∃ err w' new,
       validateResponse sampleLowerCase accepting (sampleProxy ModeWarn resolving)
         (upstreamResponse 200 (lengthHeader "10485760") ceilingBody) = (err, w')
       ∧ (∃ b, Body (resp w') = Buffered b)
       ∧ log w' = new
       ∧ Forall (fun rec => slog.Message rec
                             ≠ "Response too large, skipping validation"%string) new)
  ∧ validateResponse sampleLowerCase accepting (sampleProxy ModeWarn resolving)
      (upstreamResponse 200 (lengthHeader "10485760") ceilingBody)
    = (None, buffered (upstreamResponse 200 (lengthHeader "10485760") ceilingBody)).
Proof.
  destruct (size_gate_is_strict sampleLowerCase accepting)
    as (Hdeclared & Hboundary & Hexact & _).
  assert (Hceil : declaredWithin (lengthHeader "10485760")).
  { apply Hboundary. rewrite lengthHeader_Get. reflexivity. }
  destruct (Hexact (sampleProxy ModeWarn resolving)
              (upstreamResponse 200 (lengthHeader "10485760") ceilingBody)
              eq_refl (lengthHeader_isJSON _) Hceil eq_refl len_ceilingBody)
    as [Hkept Hvalidated].
  split; [|split].
  - destruct (Hdeclared (sampleProxy ModeWarn resolving)
                (upstreamResponse 200 (lengthHeader "20971520") sampleBody) 20971520)
      as (w' & Hrun & Hconn & _ & Hlog).
    + apply lengthHeader_isJSON.
    + reflexivity.
    + unfold maxSize. lia.
    + exists w'. split; [exact Hrun|]. split; [exact Hconn | exact Hlog].
  - exact Hkept.
  - exact (proj1 (Hvalidated sampleRoute {[ "id"%string := "1"%string ]} eq_refl) eq_refl).
Defined.

Lemma malformed_content_length_is_ignored_witness :
  conn (snd (validateResponse sampleLowerCase accepting (sampleProxy ModeWarn resolving)
               (upstreamResponse 200 (lengthHeader "12abc") sampleBody)))
  = mkStream [] None
  ∧ ∃ err w' new,
      validateResponse sampleLowerCase accepting (sampleProxy ModeWarn resolving)
        (upstreamResponse 200 (lengthHeader "12abc") sampleBody) = (err, w')
      ∧ (∃ b, Body (resp w') = Buffered b)
      ∧ log w' = new
      ∧ Forall (fun rec => slog.Message rec
                            ≠ "Response too large, skipping validation"%string) new.
Proof.
  destruct (malformed_content_length_is_ignored sampleLowerCase accepting
              (sampleProxy ModeWarn resolving)
              (upstreamResponse 200 (lengthHeader "12abc") sampleBody)
              eq_refl (lengthHeader_isJSON _) eq_refl)
    as (Hread & _ & _ & Hgo).
  split.
  - rewrite Hread. reflexivity.
  - apply Hgo; [apply sampleBody_small | reflexivity].
Defined.

(** ** ColoredHandler: WithAttrs and Handle *)

Lemma fresh_lookup_None {V} (m : gmap loc V) : m !! fresh (dom m) = None.
Proof. apply not_elem_of_dom, is_fresh. Qed.

Lemma fresh_ne {V} (m : gmap loc V) (l : loc) (v : V) :
  m !! l = Some v → l ≠ fresh (dom m).
Proof. intros Hl ->. rewrite fresh_lookup_None in Hl. discriminate. Qed.

Lemma Slice_elems_length σ s :
  Slice_valid σ s → length (Slice_elems σ s) = Slice_len s.
Proof.
  destruct s as [|a off n c]; [done|].
  intros (arr & Harr & Hn & Hc). simpl. rewrite Harr. simpl.
  rewrite length_take, length_drop. lia.
Qed.

(** The elements of a valid slice depend on its own array only. *)
Lemma Slice_elems_stable σ σ' s :
  Slice_valid σ s →
  (∀ l arr, arrays σ !! l = Some arr → arrays σ' !! l = Some arr) →
  Slice_elems σ' s = Slice_elems σ s.
Proof.
  destruct s as [|a off n c]; [done|].
  intros (arr & Harr & _) Hkeep. simpl. by rewrite Harr, (Hkeep a arr Harr).
Qed.

(** [Handle] writes to the writer of the handler and to nothing else. *)
Lemma Handle_frame h now record σ r σ' :
  Handle h now record σ = Some (r, σ') →
  arrays σ' = arrays σ ∧ handlers σ' = handlers σ.
Proof.
  unfold Handle. intros Hrun.
  destruct (handlers σ !! h) as [hobj|]; [|done]. simpl in Hrun.
  destruct (writers σ !! output hobj); by injection Hrun as <- <-.
Qed.

Lemma emitted_frame σ σ' h now record :
  arrays σ' = arrays σ → handlers σ' = handlers σ →
  emitted σ' h now record = emitted σ h now record.
Proof.
  intros Harr Hh. unfold emitted. rewrite Hh.
  destruct (handlers σ !! h) as [hobj|]; [|done]. simpl.
  destruct (attrs hobj); simpl; [done | by rewrite Harr].
Qed.

(** [Handle] writes the line [emitted] describes. *)
Lemma Handle_writes h now record σ written hobj :
  handlers σ !! h = Some hobj →
  writers σ !! output hobj = Some written →
  ∃ line σ',
    emitted σ h now record = Some line
    ∧ Handle h now record σ = Some (None, σ')
    ∧ writers σ' !! output hobj = Some (written +:+ line).
Proof.
  intros Hh Hw. unfold emitted, Handle. rewrite Hh. simpl. rewrite Hw.
  eexists _, _. split; [done|]. split; [done|]. simpl. by rewrite lookup_insert_eq.
Qed.

(** The heap [WithAttrs] leaves behind. *)
Lemma WithAttrs_heap σ h hobj a :
  handlers σ !! h = Some hobj →
  Slice_valid σ (attrs hobj) →
  Slice_valid σ a →
  let n := (Slice_len (attrs hobj) + Slice_len a)%nat in
  let arr := fresh (dom (arrays σ)) in
  let p := fresh (dom (handlers σ)) in
  WithAttrs h a σ
  = Some (p,
          mkHeap (<[arr := Slice_elems σ (attrs hobj) ++ Slice_elems σ a]> (arrays σ))
                 (<[p := mkColoredHandler (output hobj) (level hobj) (MkSlice arr 0 n n)]>
                    (handlers σ))
                 (writers σ)).
Proof.
  intros Hh Hv1 Hv2 n arr p.
  pose proof (Slice_elems_length σ _ Hv1) as Hl1.
  pose proof (Slice_elems_length σ _ Hv2) as Hl2.
  set (n1 := Slice_len (attrs hobj)) in *. set (n2 := Slice_len a) in *.
  set (e1 := Slice_elems σ (attrs hobj)) in *. set (e2 := Slice_elems σ a) in *.
  assert (Hkeep : ∀ (x : list slog.Attr) l arr0,
            arrays σ !! l = Some arr0 → <[arr := x]> (arrays σ) !! l = Some arr0).
  { intros x l arr0 Hl. rewrite lookup_insert_ne; [done|].
    intros <-. by apply (fresh_ne _ _ _ Hl). }
  unfold WithAttrs. rewrite Hh. simpl.
  fold n1 n2 arr.
  (* first copy: the attributes of the receiver *)
  set (σ1 := mkHeap (<[arr := replicate (n1 + n2) zeroAttr]> (arrays σ))
               (handlers σ) (writers σ)).
  assert (He1 : Slice_elems σ1 (attrs hobj) = e1).
  { apply Slice_elems_stable; [done|]. intros l arr0. apply Hkeep. }
  rewrite He1.
  replace (Nat.min (n1 + n2) n1) with n1 by lia.
  rewrite (take_ge e1 n1) by lia.
  rewrite alter_insert_eq. simpl.
  rewrite drop_replicate. replace (n1 + n2 - n1)%nat with n2 by lia.
  (* the tail of the new slice *)
  destruct (decide (n1 ≤ n1 + n2)%nat) as [_|?]; [|lia]. simpl.
  (* second copy: the new attributes *)
  set (σ2 := mkHeap (<[arr := e1 ++ replicate n2 zeroAttr]> (arrays σ))
               (handlers σ) (writers σ)).
  assert (He2 : Slice_elems σ2 a = e2).
  { apply Slice_elems_stable; [done|]. intros l arr0. apply Hkeep. }
  rewrite He2.
  fold n2. rewrite Nat.min_id.
  rewrite (take_ge e2 n2) by lia.
  rewrite alter_insert_eq.
  rewrite take_app_length' by done.
  rewrite drop_ge by (rewrite length_app, length_replicate; lia).
  rewrite app_nil_r. unfold newHandler. simpl. reflexivity.
Qed.

(** C9. For every handler [h] and attribute slice [a], [WithAttrs]
    returns a new handler, with the output and the level of [h], whose
    bound attributes are those of [h] followed by those of [a]; [h] itself
    is unmodified: its object and its bound attributes are the same before
    and after the call, no array that existed before is written, and the
    lines emitted through [h] are the same as before, also after records
    have been emitted through the derived handler. *)
Theorem WithAttrs_derives_without_mutation
    (σ : Heap) (h : loc) (hobj : ColoredHandler) (a : Slice) :
  handlers σ !! h = Some hobj →
  Slice_valid σ (attrs hobj) →
  Slice_valid σ a →
  ∃ h' σ' hobj',
    WithAttrs h a σ = Some (h', σ')
    ∧ handlers σ !! h' = None
    ∧ handlers σ' !! h' = Some hobj'
    ∧ output hobj' = output hobj
    ∧ level hobj' = level hobj
    ∧ Slice_elems σ' (attrs hobj') = Slice_elems σ (attrs hobj) ++ Slice_elems σ a
    ∧ handlers σ' !! h = Some hobj
    ∧ Slice_elems σ' (attrs hobj) = Slice_elems σ (attrs hobj)
    ∧ (∀ l arr, arrays σ !! l = Some arr → arrays σ' !! l = Some arr)
    ∧ (∀ now record, emitted σ' h now record = emitted σ h now record)
    ∧ (∀ now1 record1 r σ'',
         Handle h' now1 record1 σ' = Some (r, σ'') →
         handlers σ'' !! h = Some hobj
         ∧ Slice_elems σ'' (attrs hobj) = Slice_elems σ (attrs hobj)
         ∧ ∀ now record, emitted σ'' h now record = emitted σ h now record).
Proof.
  intros Hh Hv1 Hv2.
  pose proof (WithAttrs_heap σ h hobj a Hh Hv1 Hv2) as Hrun. cbv zeta in Hrun.
  pose proof (Slice_elems_length σ _ Hv1) as Hl1.
  pose proof (Slice_elems_length σ _ Hv2) as Hl2.
  set (arr := fresh (dom (arrays σ))) in *.
  set (p := fresh (dom (handlers σ))) in *.
  set (σ' := mkHeap _ _ _) in Hrun.
  assert (Hkeep : ∀ l arr0, arrays σ !! l = Some arr0 → arrays σ' !! l = Some arr0).
  { intros l arr0 Hl. subst σ'. simpl. rewrite lookup_insert_ne; [done|].
    intros <-. by apply (fresh_ne _ _ _ Hl). }
  assert (Hsame : handlers σ' !! h = Some hobj).
  { subst σ'. simpl. rewrite lookup_insert_ne; [done|].
    intros <-. by apply (fresh_ne _ _ _ Hh). }
  assert (Helems : Slice_elems σ' (attrs hobj) = Slice_elems σ (attrs hobj)).
  { by apply Slice_elems_stable. }
  assert (Hemit : ∀ now record, emitted σ' h now record = emitted σ h now record).
  { intros now record. unfold emitted. rewrite Hsame, Hh. simpl. by rewrite Helems. }
  eexists p, σ', _. split; [exact Hrun|].
  split; [apply fresh_lookup_None|].
  split; [subst σ'; simpl; apply lookup_insert_eq|].
  split; [done|]. split; [done|].
  split.
  { subst σ'. simpl. rewrite lookup_insert_eq. simpl. rewrite drop_0.
    apply take_ge. rewrite length_app. lia. }
  split; [done|]. split; [done|]. split; [done|]. split; [done|].
  intros now1 record1 r σ'' Hhandle.
  destruct (Handle_frame _ _ _ _ _ _ Hhandle) as [Harr Hhs].
  split; [by rewrite Hhs|].
  split.
  - rewrite <- Helems. apply Slice_elems_stable.
    + destruct (attrs hobj) as [|a0 off n c]; [done|].
      destruct Hv1 as (arr0 & Harr0 & ? & ?). exists arr0. by rewrite (Hkeep _ _ Harr0).
    + intros l arr0. by rewrite Harr.
  - intros now record. rewrite <- Hemit. by apply emitted_frame.
Qed.

Lemma WithAttrs_derives_without_mutation_witness :
  ∃ h' σ' hobj',
    WithAttrs 1%positive sampleArgs sampleHeap = Some (h', σ')
    ∧ handlers sampleHeap !! h' = None
    ∧ handlers σ' !! h' = Some hobj'
    ∧ Slice_elems σ' (attrs hobj') = [serviceAttr; requestAttr]
    ∧ handlers σ' !! 1%positive = Some baseHandler
    ∧ Slice_elems σ' (attrs baseHandler) = [serviceAttr].
Proof.
  destruct (WithAttrs_derives_without_mutation sampleHeap 1%positive baseHandler sampleArgs)
    as (h' & σ' & hobj' & Hrun & Hnew & Hobj & _ & _ & Hcat & Hsame & Helems & _).
  - reflexivity.
  - exists [serviceAttr]. split; [reflexivity | simpl; lia].
  - exists [requestAttr; zeroAttr]. split; [reflexivity | simpl; lia].
  - exists h', σ', hobj'.
    split; [exact Hrun|]. split; [exact Hnew|]. split; [exact Hobj|].
    split; [rewrite Hcat; reflexivity|]. split; [exact Hsame|].
    rewrite Helems. reflexivity.
Defined.

(** The line the handler of the proxy writes for the Warn record of the
    size gate, at 09:05:30. *)
Example Handle_renders_size_record :
  emitted sampleHeap 1%positive (mkTime 9 5 30) (tooLargeRecord 10485761)
  = Some (String esc "[90m09:05:30 " +:+ String esc "[33mWARN" +:+ String esc "[0m"
            +:+ " Response too large, skipping validation size=10485761 service=specgate"
            +:+ String newline EmptyString).
Proof. reflexivity. Qed.

(** ** The outcomes of the hook are exhaustive *)

(** The two ways a path of the hook ends as far as the log goes: nothing
    logged, or one record through the handler. *)
Ltac log_silent :=
  simpl; exists []; rewrite app_nil_r;
  split; [reflexivity|]; split; [simpl; lia|]; split; [constructor|];
  intros; constructor.

Ltac log_record :=
  simpl; rewrite emit_log; eexists; split; [reflexivity|];
  destruct (Enabled _ _); simpl;
  (split; [lia|]); (split; [repeat constructor; auto|]);
  intros ? [=]; repeat constructor.

Section HookOutcomes.
Variable To_LowerCase : N → N.
Variable ValidateResponse : ResponseValidationInput → option error.

Local Abbreviation validateResponse := (validateResponse To_LowerCase ValidateResponse).
Local Abbreviation ReverseProxy_respond :=
  (ReverseProxy_respond To_LowerCase ValidateResponse).
Local Abbreviation isUndocumentedEndpoint := (isUndocumentedEndpoint To_LowerCase).
Local Abbreviation validationFails := (validationFails ValidateResponse).
Local Abbreviation hookOutcome := (hookOutcome To_LowerCase ValidateResponse).

Lemma hook_outcome_within vp w :
  Body (resp w) = Upstream →
  isJSON (Header (resp w)) →
  declaredWithin (Header (resp w)) →
  hookOutcome vp w (fst (validateResponse vp w)) (snd (validateResponse vp w)).
Proof.
  intros Hbody Hjson Hdecl.
  destruct (Z.lt_ge_cases maxSize (len (unread (conn w)))) as [Hgt|Hle].
  { rewrite (path_read_too_large _ _ vp w Hbody Hjson Hdecl Hgt).
    by apply outcome_read_too_large. }
  destruct (failure (conn w)) as [e|] eqn:Hfail.
  { rewrite (path_read_error _ _ vp w e Hbody Hjson Hdecl Hle Hfail).
    by apply outcome_read_error. }
  assert (Helig : eligible w) by done.
  destruct (router vp (Request (resp w))) as [[route pathParams]|msg] eqn:Hroute.
  - destruct (ValidateResponse (validationInput w route pathParams)) as [d|] eqn:Hvalid.
    + assert (Hfails : validationFails vp w d) by (split; [done | by eexists _, _]).
      rewrite (path_invalid _ _ vp w d Hfails). by apply outcome_invalid.
    + rewrite (path_valid _ _ vp w route pathParams Helig Hroute Hvalid).
      by apply outcome_valid with route pathParams.
  - destruct (isUndocumentedEndpoint (Some msg)) eqn:Hundoc.
    + rewrite (path_undocumented _ _ vp w msg Helig Hroute Hundoc).
      by apply outcome_undocumented with msg.
    + rewrite (path_route_error _ _ vp w msg Helig Hroute Hundoc).
      by apply outcome_route_error.
Qed.

(** Every run of the hook on an upstream response is one of the eight
    outcomes. *)
Lemma hook_outcome vp w :
  Body (resp w) = Upstream →
  hookOutcome vp w (fst (validateResponse vp w)) (snd (validateResponse vp w)).
Proof.
  intros Hbody.
  destruct (strings.Contains (Header_Get (Header (resp w)) "Content-Type")
              "application/json") eqn:Hjson.
  2:{ rewrite (path_not_json _ _ vp w Hjson). by constructor. }
  destruct (strconv.ParseInt (Header_Get (Header (resp w)) "Content-Length"))
    as [size|] eqn:Hparse.
  - destruct (Z.lt_ge_cases maxSize size) as [Hgt|Hle].
    + rewrite (path_declared_too_large _ _ vp w size Hjson Hparse Hgt).
      by apply outcome_declared_too_large.
    + apply hook_outcome_within; [done..|].
      intros size' Hsize'. rewrite Hparse in Hsize'. injection Hsize' as <-. lia.
  - apply hook_outcome_within; [done..|].
    intros size' Hsize'. rewrite Hparse in Hsize'. discriminate.
Qed.

Lemma hook_outcome_run vp w err w' :
  Body (resp w) = Upstream →
  validateResponse vp w = (err, w') →
  hookOutcome vp w err w'.
Proof.
  intros Hbody Hrun. pose proof (hook_outcome vp w Hbody) as H.
  by rewrite Hrun in H.
Qed.

Lemma Enabled_Warn_Error (l : ColoredHandler) :
  Enabled l slog.LevelWarn = true → Enabled l slog.LevelError = true.
Proof.
  unfold Enabled, slog.LevelWarn, slog.LevelError.
  rewrite !Z.geb_le. lia.
Qed.

Lemma log_emit_same l lvl msg args w0 w :
  log (emit l lvl msg args w0) = log w →
  Enabled l lvl = true → log w0 = log w → False.
Proof.
  intros Heq Hen Hw0. rewrite emit_log, Hen, Hw0 in Heq.
  apply (f_equal length) in Heq. rewrite length_app in Heq. simpl in Heq. lia.
Qed.

(** X1. When the hook returns an error, the error is the failure of the
    body read (the stream failed within the first 10 MiB) or the wrapped
    failure of route resolution for a message that is not an
    undocumented-endpoint message; a validation failure is never an error of
    the hook.  In both cases the status and the headers of the response
    object are as they were, and the reverse proxy answers 502. *)
Theorem hook_error_sources (vp : ValidatingProxy) (w w' : World) (e : error) :
  Body (resp w) = Upstream →
  validateResponse vp w = (Some e, w') →
  ((failure (conn w) = Some e ∧ len (unread (conn w)) ≤ maxSize ∧ log w' = log w)
   ∨ (∃ msg, router vp (Request (resp w)) = inr msg
             ∧ isUndocumentedEndpoint (Some msg) = false
             ∧ e = routeFindingError msg))
  ∧ StatusCode (resp w') = StatusCode (resp w)
  ∧ Header (resp w') = Header (resp w)
  ∧ ReverseProxy_respond vp w = (badGateway, w').
Proof.
  intros Hbody Hrun.
  assert (Hresp : ReverseProxy_respond vp w = (badGateway, w')).
  { unfold ReverseProxy_respond. by rewrite Hrun. }
  pose proof (hook_outcome_run vp w _ _ Hbody Hrun) as Hout.
  inversion Hout as [| | | e' ? ? ? Hfail | | msg ? Hroute Hundoc | |]; subst.
  - split; [left; done|]. done.
  - split; [right; by exists msg|]. by rewrite emit_resp.
Qed.

(** X2. In warn and report mode the hook is transparent: whenever it
    returns nil for an upstream response that is not a JSON response with
    more than 10 MiB of body left to read, the client receives the status,
    the headers and the body bytes of the upstream response. *)
Theorem lenient_modes_are_transparent (vp : ValidatingProxy) (w w' : World) :
  Body (resp w) = Upstream →
  mode vp ≠ ModeStrict →
  (isJSON (Header (resp w)) → declaredWithin (Header (resp w)) →
   len (unread (conn w)) ≤ maxSize) →
  validateResponse vp w = (None, w') →
  copyResponse w' = copyResponse w
  ∧ ReverseProxy_respond vp w = (copyResponse w, w').
Proof.
  intros Hbody Hmode Hsize Hrun.
  assert (Hcopy : copyResponse w' = copyResponse w).
  { pose proof (hook_outcome_run vp w _ _ Hbody Hrun) as Hout.
    inversion Hout as [| size | Hjson Hdecl Hgt | | msg Helig | | route pp Helig
                       | d Hfails]; subst.
    - done.
    - apply copyResponse_emit.
    - specialize (Hsize Hjson Hdecl). lia.
    - rewrite copyResponse_emit. by apply eligible_copyResponse.
    - by apply eligible_copyResponse.
    - cbv zeta. destruct (String.eqb_spec (mode vp) ModeStrict) as [?|_]; [done|].
      rewrite copyResponse_emit. apply eligible_copyResponse, Hfails. }
  split; [done|]. unfold ReverseProxy_respond. by rewrite Hrun, Hcopy.
Qed.

(** An outcome that returns nil and leaves the log as it was is the
    outcome of an accepted response. *)
Lemma silent_outcome (vp : ValidatingProxy) (w w' : World) :
  hookOutcome vp w None w' →
  isJSON (Header (resp w)) →
  Enabled (logger vp) slog.LevelWarn = true →
  log w' = log w →
  ∃ route pathParams,
    router vp (Request (resp w)) = inl (route, pathParams)
    ∧ ValidateResponse (validationInput w route pathParams) = None
    ∧ eligible w
    ∧ w' = buffered w.
Proof.
  intros Hout Hjson Hwarn Hlog.
  pose proof (Enabled_Warn_Error _ Hwarn) as Herror.
  inversion Hout as [Hct | size | | | msg Helig | | route pp Helig Hroute Hvalid
                     | d Hfails]; subst.
  - unfold isJSON in Hjson. congruence.
  - exfalso. exact (log_emit_same _ _ _ _ _ _ Hlog Hwarn eq_refl).
  - exfalso. exact (log_emit_same _ _ _ _ _ _ Hlog Hwarn eq_refl).
  - exfalso. exact (log_emit_same _ _ _ _ _ _ Hlog Hwarn eq_refl).
  - by exists route, pp.
  - exfalso. cbv zeta in Hlog.
    destruct (String.eqb (mode vp) ModeStrict).
    + rewrite rewritten_log in Hlog.
      exact (log_emit_same _ _ _ _ _ _ Hlog Herror eq_refl).
    + exact (log_emit_same _ _ _ _ _ _ Hlog Herror eq_refl).
Qed.

(** X3. A JSON response never passes unvalidated in silence: when the
    handler lets Warn records through and the hook returns nil for an
    upstream JSON response without logging anything, then the whole body was
    read without error, is at most 10 MiB long, the route resolved, and the
    validator accepted the response with exactly the upstream bytes as its
    body. *)
Theorem silent_pass_means_validated (vp : ValidatingProxy) (w w' : World) :
  Body (resp w) = Upstream →
  isJSON (Header (resp w)) →
  Enabled (logger vp) slog.LevelWarn = true →
  validateResponse vp w = (None, w') →
  log w' = log w →
  ∃ route pathParams,
    router vp (Request (resp w)) = inl (route, pathParams)
    ∧ ValidateResponse (validationInput w route pathParams) = None
    ∧ vBody (validationInput w route pathParams) = unread (conn w)
    ∧ failure (conn w) = None
    ∧ len (unread (conn w)) ≤ maxSize
    ∧ copyResponse w' = copyResponse w.
Proof.
  intros Hbody Hjson Hwarn Hrun Hlog.
  pose proof (hook_outcome_run vp w _ _ Hbody Hrun) as Hout.
  destruct (silent_outcome vp w w' Hout Hjson Hwarn Hlog)
    as (route & pp & Hroute & Hvalid & Helig & ->).
  exists route, pp. destruct Helig as (? & ? & ? & ? & ?).
  repeat split; try done. by apply copyResponse_buffered.
Qed.

(** X4. The hook logs at most one record per response, at Warn or Error
    level, never below; and when it returns an error after logging, the
    record is at Error level. *)
Theorem hook_logs_at_most_one_record (vp : ValidatingProxy) (w : World) :
  ∃ new,
    log (snd (validateResponse vp w)) = log w ++ new
    ∧ (length new ≤ 1)%nat
    ∧ Forall (fun rec => slog.Level rec = slog.LevelWarn
                         ∨ slog.Level rec = slog.LevelError) new
    ∧ (∀ e, fst (validateResponse vp w) = Some e →
         Forall (fun rec => slog.Level rec = slog.LevelError) new).
Proof.
  unfold validateResponse. hook_steps.
  destruct (negb _); [log_silent|].
  destruct (if negb _ then _ else None) as [size|]; [log_record|].
  destruct (Body (resp w)) as [|data].
  - destruct (readAllLimited (maxSize + 1) (conn w)) as [[bodyBytes err] s'].
    repeat case_match; first [log_silent | log_record].
  - destruct (readAllLimited (maxSize + 1) (mkStream data None)) as [[bodyBytes err] s'].
    repeat case_match; first [log_silent | log_record].
Qed.

End HookOutcomes.

(** ** The outcomes on sample responses *)

Lemma hook_error_sources_witness :
  ∃ w',
    validateResponse sampleLowerCase accepting
      (sampleProxy ModeWarn (failing "connection refused"))
      (upstreamResponse 200 jsonHeader sampleBody)
    = (Some (routeFindingError "connection refused"), w')
    ∧ StatusCode (resp w') = 200
    ∧ Header (resp w') = jsonHeader
    ∧ ReverseProxy_respond sampleLowerCase accepting
        (sampleProxy ModeWarn (failing "connection refused"))
        (upstreamResponse 200 jsonHeader sampleBody)
      = (badGateway, w').
Proof.
  assert (Hrun : validateResponse sampleLowerCase accepting
                   (sampleProxy ModeWarn (failing "connection refused"))
                   (upstreamResponse 200 jsonHeader sampleBody)
                 = (Some (routeFindingError "connection refused"),
                    snd (validateResponse sampleLowerCase accepting
                           (sampleProxy ModeWarn (failing "connection refused"))
                           (upstreamResponse 200 jsonHeader sampleBody))))
    by (vm_compute; reflexivity).
  destruct (hook_error_sources sampleLowerCase accepting
              (sampleProxy ModeWarn (failing "connection refused"))
              (upstreamResponse 200 jsonHeader sampleBody) _
              (routeFindingError "connection refused") eq_refl Hrun)
    as (_ & Hstatus & Hheader & Hclient).
  eexists. split; [exact Hrun|].
  split; [exact Hstatus|]. split; [exact Hheader | exact Hclient].
Defined.

Lemma lenient_modes_are_transparent_witness :
  ∃ w',
    ReverseProxy_respond sampleLowerCase (rejecting exampleDetail)
      (sampleProxy ModeReport resolving)
      (upstreamResponse 200 jsonHeader sampleBody)
    = (copyResponse (upstreamResponse 200 jsonHeader sampleBody), w').
Proof.
  eexists.
  apply (lenient_modes_are_transparent sampleLowerCase (rejecting exampleDetail)
           (sampleProxy ModeReport resolving)
           (upstreamResponse 200 jsonHeader sampleBody)
           (snd (validateResponse sampleLowerCase (rejecting exampleDetail)
                   (sampleProxy ModeReport resolving)
                   (upstreamResponse 200 jsonHeader sampleBody)))).
  - reflexivity.
  - discriminate.
  - intros _ _. apply sampleBody_small.
  - vm_compute. reflexivity.
Defined.

Lemma silent_pass_means_validated_witness :
  ∃ route pathParams,
    resolving sampleRequest = inl (route, pathParams)
    ∧ accepting (validationInput (upstreamResponse 200 jsonHeader sampleBody)
                   route pathParams) = None.
Proof.
  destruct (silent_pass_means_validated sampleLowerCase accepting
              (sampleProxy ModeStrict resolving)
              (upstreamResponse 200 jsonHeader sampleBody)
              (buffered (upstreamResponse 200 jsonHeader sampleBody))
              eq_refl jsonHeader_isJSON eq_refl ltac:(vm_compute; reflexivity) eq_refl)
    as (route & pathParams & Hroute & Hvalid & _).
  by exists route, pathParams.
Defined.

Lemma lenient_failure_passthrough_witness :
  ∃ w',
    ReverseProxy_respond sampleLowerCase (rejecting exampleDetail)
      (sampleProxy ModeWarn resolving)
      (upstreamResponse 200 jsonHeader sampleBody)
    = (copyResponse (upstreamResponse 200 jsonHeader sampleBody), w')
    ∧ log w' = [validationFailedRecord exampleDetail sampleRequest 200].
Proof.
  destruct (lenient_failure_passthrough sampleLowerCase (rejecting exampleDetail)
              (sampleProxy ModeWarn resolving)
              (upstreamResponse 200 jsonHeader sampleBody) exampleDetail
              (sample_validationFails ModeWarn 200 jsonHeader sampleBody exampleDetail
                 jsonHeader_isJSON jsonHeader_declaredWithin sampleBody_small))
    as (w' & _ & Hclient & Hlog).
  - discriminate.
  - exists w'. split; [exact Hclient | exact Hlog].
Defined.

Lemma valid_response_passthrough_witness :
  ReverseProxy_respond sampleLowerCase accepting (sampleProxy ModeStrict resolving)
    (upstreamResponse 200 jsonHeader sampleBody)
  = (copyResponse (upstreamResponse 200 jsonHeader sampleBody),
     buffered (upstreamResponse 200 jsonHeader sampleBody)).
Proof.
  apply (valid_response_passthrough sampleLowerCase accepting
           (sampleProxy ModeStrict resolving)
           (upstreamResponse 200 jsonHeader sampleBody)
           sampleRoute {[ "id"%string := "1"%string ]}).
  - apply upstreamResponse_eligible;
      [apply jsonHeader_isJSON | apply jsonHeader_declaredWithin | apply sampleBody_small].
  - reflexivity.
  - reflexivity.
Defined.

Lemma read_error_aborts_witness :
  ∃ w',
    ReverseProxy_respond sampleLowerCase accepting (sampleProxy ModeWarn resolving)
      (failingResponse 200 jsonHeader sampleBody "connection reset by peer")
    = (badGateway, w')
    ∧ log w' = [].
Proof.
  destruct (read_error_aborts sampleLowerCase accepting (sampleProxy ModeWarn resolving)
              (failingResponse 200 jsonHeader sampleBody "connection reset by peer")
              "connection reset by peer"%string
              eq_refl jsonHeader_isJSON jsonHeader_declaredWithin sampleBody_small eq_refl)
    as (w' & _ & Hclient & Hlog).
  exists w'. split; [exact Hclient | exact Hlog].
Defined.

(** ** The escapes of the Strict-mode error body *)

Lemma allBytes_app (p : ascii → bool) (a b : string) :
  allBytes p (a +:+ b) = allBytes p a && allBytes p b.
Proof.
  induction a as [|c a IH]; [done|]. simpl. by rewrite IH, andb_assoc.
Qed.












Section ErrorBody.
Variable To_LowerCase : N → N.
Variable ValidateResponse : ResponseValidationInput → option error.

Local Abbreviation ReverseProxy_respond :=
  (ReverseProxy_respond To_LowerCase ValidateResponse).
Local Abbreviation validationFails := (validationFails ValidateResponse).


End ErrorBody.


(** ** Wrapped resolver errors *)

Lemma isASCII_app (a b : string) :
  strings.isASCII (a +:+ b) = strings.isASCII a && strings.isASCII b.
Proof. apply allBytes_app. Qed.

Lemma runes_app_ascii (a b : string) :
  strings.isASCII a = true → utf8.runes (a +:+ b) = asciiRunes a ++ utf8.runes b.
Proof.
  unfold utf8.runes, asciiRunes, strings.isASCII.
  induction a as [|c a IH]; [done|].
  cbn [allBytes]. intros [Hc Ha]%andb_true_iff.
  apply N.ltb_lt in Hc. unfold utf8.RuneSelf in Hc.
  change (String c a +:+ b) with (String c (a +:+ b)).
  cbn [utf8.runesFrom list_ascii_of_string map].
  rewrite DecodeRune_ascii by done. simpl. by rewrite IH.
Qed.

Lemma Map_runes_app (f : N → N) (l1 l2 : list N) :
  foldr (fun c acc => utf8.EncodeRune (f c) +:+ acc) EmptyString (l1 ++ l2)
  = foldr (fun c acc => utf8.EncodeRune (f c) +:+ acc) EmptyString l1
    +:+ foldr (fun c acc => utf8.EncodeRune (f c) +:+ acc) EmptyString l2.
Proof.
  induction l1 as [|c l1 IH]; [done|]. simpl. by rewrite IH, append_assoc.
Qed.

Lemma Contains_app_r (a b sub : string) :
  strings.Contains b sub = true → strings.Contains (a +:+ b) sub = true.
Proof.
  rewrite !Contains_spec. intros (before & after & ->).
  exists (a +:+ before), after. by rewrite append_assoc.
Qed.

Lemma matchesAny_app_r (a b : string) (patterns : list string) :
  matchesAny b patterns = true → matchesAny (a +:+ b) patterns = true.
Proof.
  rewrite !matchesAny_spec. intros (p & Hp & Hsub). exists p. split; [done|].
  apply Contains_spec, Contains_app_r, Contains_spec, Hsub.
Qed.

Section Wrapping.
Variable To_LowerCase : N → N.

Local Abbreviation isUndocumentedEndpoint := (isUndocumentedEndpoint To_LowerCase).
Local Abbreviation strings_ToLower := (strings_ToLower To_LowerCase).

(** Lowering goes through an ASCII prefix. *)
Lemma strings_ToLower_app_ascii (a b : string) :
  strings.isASCII a = true →
  strings_ToLower (a +:+ b) = strings_ToLower a +:+ strings_ToLower b.
Proof.
  intros Ha. rewrite !strings_ToLower_Map. unfold strings.Map.
  rewrite runes_app_ascii, Map_runes_app by done.
  by rewrite (runes_ascii a).
Qed.

(** X6. The classification of resolver errors survives wrapping: if a
    message counts as an undocumented endpoint, so does every message that
    puts an ASCII context in front of it, as [fmt.Errorf("context: %w", err)]
    does; in particular the wrapped error the hook itself would return for
    it. *)
Theorem wrapped_error_stays_undocumented (context msg : string) :
  strings.isASCII context = true →
  isUndocumentedEndpoint (Some msg) = true →
  isUndocumentedEndpoint (Some (context +:+ msg)) = true
  ∧ isUndocumentedEndpoint (Some (routeFindingError msg)) = true.
Proof.
  intros Hctx Hundoc.
  assert (Hwrap : ∀ c, strings.isASCII c = true →
                    isUndocumentedEndpoint (Some (c +:+ msg)) = true).
  { intros c Hc. unfold isUndocumentedEndpoint in *. cbv zeta in *.
    rewrite strings_ToLower_app_ascii by done. by apply matchesAny_app_r. }
  split; [by apply Hwrap|]. by apply Hwrap.
Qed.

End Wrapping.

Lemma wrapped_error_stays_undocumented_witness :
  isUndocumentedEndpoint sampleLowerCase
    (Some "gorillamux: No Matching Operation for GET /users/1"%string) = true
  ∧ isUndocumentedEndpoint sampleLowerCase
      (Some (routeFindingError "No Matching Operation for GET /users/1")) = true.
Proof.
  apply (wrapped_error_stays_undocumented sampleLowerCase
           "gorillamux: " "No Matching Operation for GET /users/1");
    reflexivity.
Defined.

(** ** ColoredHandler: derived handlers among other handlers *)

Lemma Slice_valid_stable σ σ' s :
  Slice_valid σ s →
  (∀ l arr, arrays σ !! l = Some arr → arrays σ' !! l = Some arr) →
  Slice_valid σ' s.
Proof.
  destruct s as [|a off n c]; [done|].
  intros (arr & Harr & Hn & Hc) Hkeep. exists arr. split; [by apply Hkeep | done].
Qed.

(** What [WithAttrs] does to the heap: one new array, one new handler,
    everything else as it was. *)
Lemma WithAttrs_effect σ h hobj a :
  handlers σ !! h = Some hobj →
  Slice_valid σ (attrs hobj) →
  Slice_valid σ a →
  ∃ h' σ' hobj',
    WithAttrs h a σ = Some (h', σ')
    ∧ handlers σ !! h' = None
    ∧ handlers σ' = <[h' := hobj']> (handlers σ)
    ∧ output hobj' = output hobj
    ∧ level hobj' = level hobj
    ∧ Slice_valid σ' (attrs hobj')
    ∧ Slice_elems σ' (attrs hobj') = Slice_elems σ (attrs hobj) ++ Slice_elems σ a
    ∧ (∀ l arr, arrays σ !! l = Some arr → arrays σ' !! l = Some arr)
    ∧ writers σ' = writers σ.
Proof.
  intros Hh Hv1 Hv2.
  pose proof (WithAttrs_heap σ h hobj a Hh Hv1 Hv2) as Hrun. cbv zeta in Hrun.
  pose proof (Slice_elems_length σ _ Hv1) as Hl1.
  pose proof (Slice_elems_length σ _ Hv2) as Hl2.
  eexists _, _, _. split; [exact Hrun|].
  split; [apply fresh_lookup_None|].
  split; [reflexivity|]. split; [reflexivity|]. split; [reflexivity|].
  split; [|split; [|split; [|reflexivity]]].
  - simpl. eexists. rewrite lookup_insert_eq. split; [reflexivity|].
    rewrite length_app. lia.
  - simpl. rewrite lookup_insert_eq. simpl. rewrite drop_0.
    apply take_ge. rewrite length_app. lia.
  - intros l arr Hl. simpl. rewrite lookup_insert_ne; [done|].
    intros <-. by apply (fresh_ne _ _ _ Hl).
Qed.


(** X8. Derivations accumulate: deriving with [a] and then, from the
    result, with [b] gives a handler bound to the attributes of the first
    receiver, then those of [a], then those of [b], in this order, which is
    the order [Handle] renders them in after the attributes of the record;
    the intermediate handler keeps the attributes it had. *)
Theorem WithAttrs_accumulates
    (σ : Heap) (h : loc) (hobj : ColoredHandler) (a b : Slice) :
  handlers σ !! h = Some hobj →
  Slice_valid σ (attrs hobj) →
  Slice_valid σ a →
  Slice_valid σ b →
  ∃ h1 σ1 h2 σ2,
    WithAttrs h a σ = Some (h1, σ1)
    ∧ WithAttrs h1 b σ1 = Some (h2, σ2)
    ∧ h1 ≠ h ∧ h2 ≠ h ∧ h2 ≠ h1
    ∧ (∀ now record,
         emitted σ2 h2 now record
         = Some (renderLine now record
                   (Slice_elems σ (attrs hobj) ++ Slice_elems σ a ++ Slice_elems σ b)))
    ∧ (∀ now record,
         emitted σ2 h1 now record
         = Some (renderLine now record (Slice_elems σ (attrs hobj) ++ Slice_elems σ a)))
    ∧ (∀ now record, emitted σ2 h now record = emitted σ h now record).
Proof.
  intros Hh Hv1 Hva Hvb.
  destruct (WithAttrs_effect σ h hobj a Hh Hv1 Hva)
    as (h1 & σ1 & hobj1 & Hrun1 & Hnew1 & Hhs1 & _ & _ & Hvalid1 & Helems1 & Hkeep1 & _).
  assert (Hh1 : handlers σ1 !! h1 = Some hobj1).
  { rewrite Hhs1. apply lookup_insert_eq. }
  assert (Hne1 : h1 ≠ h) by (intros ->; congruence).
  assert (Hh_1 : handlers σ1 !! h = Some hobj).
  { rewrite Hhs1. by rewrite lookup_insert_ne. }
  assert (Hvb1 : Slice_valid σ1 b) by (by apply Slice_valid_stable with σ).
  assert (Hb1 : Slice_elems σ1 b = Slice_elems σ b) by (by apply Slice_elems_stable).
  destruct (WithAttrs_effect σ1 h1 hobj1 b Hh1 Hvalid1 Hvb1)
    as (h2 & σ2 & hobj2 & Hrun2 & Hnew2 & Hhs2 & _ & _ & _ & Helems2 & Hkeep2 & _).
  assert (Hne2 : h2 ≠ h) by (intros ->; congruence).
  assert (Hne21 : h2 ≠ h1) by (intros ->; congruence).
  exists h1, σ1, h2, σ2. repeat split; try done.
  - intros now record. unfold emitted. rewrite Hhs2, lookup_insert_eq. simpl.
    by rewrite Helems2, Helems1, Hb1, <- app_assoc.
  - intros now record. unfold emitted.
    rewrite Hhs2, lookup_insert_ne, Hh1 by done. simpl.
    by rewrite (Slice_elems_stable σ1 σ2 _ Hvalid1 Hkeep2), Helems1.
  - intros now record. unfold emitted.
    rewrite Hhs2, lookup_insert_ne, Hh_1, Hh by done. simpl.
    rewrite (Slice_elems_stable σ σ2 _ Hv1); [done|].
    intros l arr Hl. by apply Hkeep2, Hkeep1.
Qed.

Lemma baseHandler_valid : Slice_valid sampleHeap (attrs baseHandler).
Proof. exists [serviceAttr]. split; [reflexivity | simpl; lia]. Qed.

Lemma sampleArgs_valid : Slice_valid sampleHeap sampleArgs.
Proof. exists [requestAttr; zeroAttr]. split; [reflexivity | simpl; lia]. Qed.


Lemma WithAttrs_accumulates_witness :
  ∃ h1 σ1 h2 σ2,
    WithAttrs 1%positive sampleArgs sampleHeap = Some (h1, σ1)
    ∧ WithAttrs h1 sampleArgs σ1 = Some (h2, σ2)
    ∧ emitted σ2 h2 (mkTime 9 5 30) (tooLargeRecord 10485761)
      = Some (renderLine (mkTime 9 5 30) (tooLargeRecord 10485761)
                [serviceAttr; requestAttr; requestAttr]).
Proof.
  destruct (WithAttrs_accumulates sampleHeap 1%positive baseHandler sampleArgs sampleArgs
              eq_refl baseHandler_valid sampleArgs_valid sampleArgs_valid)
    as (h1 & σ1 & h2 & σ2 & Hrun1 & Hrun2 & _ & _ & _ & Hemit & _).
  exists h1, σ1, h2, σ2. split; [exact Hrun1|]. split; [exact Hrun2|].
  rewrite Hemit. reflexivity.
Defined.

(** ** NewValidatingProxy *)

Lemma remoteSpec_prefix (specPath : string) :
  strings.HasPrefix specPath "http://" || strings.HasPrefix specPath "https://" = true
  ↔ remoteSpec specPath.
Proof.
  rewrite orb_true_iff, !HasPrefix_spec. unfold remoteSpec. split.
  - intros [[rest ->] | [rest ->]]; exists rest; tauto.
  - intros [rest [-> | ->]]; [left | right]; by exists rest.
Qed.

Section ModeFacts.
Variable To_LowerCase : N → N.

Lemma parseMode_valid (mode : string) (m : Mode) :
  parseMode To_LowerCase mode = (m, None) → m ∈ [ModeStrict; ModeWarn; ModeReport].
Proof.
  rewrite parseMode_lowered. repeat case_decide; intros [= <-];
    rewrite !elem_of_cons; tauto.
Qed.

Lemma parseMode_error (mode : string) (m : Mode) (e : error) :
  parseMode To_LowerCase mode = (m, Some e) → m = EmptyString ∧ e = invalidModeError mode.
Proof. rewrite parseMode_lowered. repeat case_decide; by intros [= <- <-]. Qed.

End ModeFacts.

Section Constructor.
Variable To_LowerCase : N → N.
Variable Doc : Type.
Variable url_Parse : string → url.URL + error.
Variable Loader_LoadFromURI : url.URL → openapi3.T Doc + error.
Variable Loader_LoadFromFile : string → openapi3.T Doc + error.
Variable gorillamux_NewRouter : openapi3.T Doc → option Router * option error.
Variable ValidateResponse : ResponseValidationInput → option error.

Local Abbreviation parseMode := (parseMode To_LowerCase).
Local Abbreviation NewValidatingProxy :=
  (NewValidatingProxy To_LowerCase Doc url_Parse Loader_LoadFromURI Loader_LoadFromFile
     gorillamux_NewRouter).
Local Abbreviation NewValidatingProxy_loaded :=
  (NewValidatingProxy_loaded Doc url_Parse gorillamux_NewRouter).
Local Abbreviation validateResponse := (validateResponse To_LowerCase ValidateResponse).

Lemma loaded_calls upstreamURL m loaded made :
  snd (NewValidatingProxy_loaded upstreamURL m loaded made) = made.
Proof.
  unfold NewValidatingProxy_loaded. destruct loaded as [spec|e]; [|done].
  destruct (url_Parse upstreamURL); [|done].
  by destruct (gorillamux_NewRouter _).
Qed.

(** X9. An invalid mode is rejected before anything else happens: the
    constructor returns the error of [parseMode] and has made no loader
    call, whatever the spec path and the upstream URL are.  With a valid
    mode the constructor makes at most one loader call: [LoadFromURI] on
    the parsed path when the path starts with http:// or https:// (no call
    when that path does not parse as a URL), [LoadFromFile] on the path
    otherwise. *)
Theorem constructor_loads_after_mode_check (specPath upstreamURL mode : string) :
  (∀ m e, parseMode mode = (m, Some e) →
     NewValidatingProxy specPath upstreamURL mode
     = ((None, Some (invalidModeError mode)), []))
  ∧ (∀ m, parseMode mode = (m, None) →
       (remoteSpec specPath →
        match url_Parse specPath with
        | inl specURL =>
            snd (NewValidatingProxy specPath upstreamURL mode) = [CallLoadFromURI specURL]
        | inr parseErr =>
            NewValidatingProxy specPath upstreamURL mode
            = ((None, Some ("invalid spec URL: " +:+ parseErr)), [])
        end)
       ∧ (¬ remoteSpec specPath →
          snd (NewValidatingProxy specPath upstreamURL mode)
          = [CallLoadFromFile specPath])).
Proof.
  split.
  - intros m e Hmode. destruct (parseMode_error _ _ _ _ Hmode) as [-> ->].
    unfold NewValidatingProxy. by rewrite Hmode.
  - intros m Hmode. unfold NewValidatingProxy. rewrite Hmode. split.
    + intros Hremote%remoteSpec_prefix. rewrite Hremote.
      destruct (url_Parse specPath); [apply loaded_calls | done].
    + intros Hlocal.
      destruct (strings.HasPrefix specPath "http://"
                || strings.HasPrefix specPath "https://") eqn:Hprefix.
      * by apply remoteSpec_prefix in Hprefix.
      * apply loaded_calls.
Qed.

(** A successful run of the constructor, taken apart. *)
Lemma NewValidatingProxy_success
    (specPath upstreamURL mode : string) (p : ProxyValue Doc) (err : option error)
    (made : list LoaderCall) :
  NewValidatingProxy specPath upstreamURL mode = ((Some p, err), made) →
  ∃ m doc u,
    parseMode mode = (m, None)
    ∧ specLoads url_Parse Loader_LoadFromURI Loader_LoadFromFile specPath doc
    ∧ url_Parse upstreamURL = inl u
    ∧ err = None
    ∧ p = mkProxyValue (servedSpec upstreamURL doc) u m defaultHandler
            (fst (gorillamux_NewRouter (servedSpec upstreamURL doc)))
    ∧ length made = 1%nat.
Proof.
  assert (Hloaded : ∀ m loaded one,
            NewValidatingProxy_loaded upstreamURL m loaded [one] = ((Some p, err), made) →
            ∃ doc u, loaded = inl doc ∧ url_Parse upstreamURL = inl u ∧ err = None
              ∧ p = mkProxyValue (servedSpec upstreamURL doc) u m defaultHandler
                      (fst (gorillamux_NewRouter (servedSpec upstreamURL doc)))
              ∧ length made = 1%nat).
  { intros m loaded one. unfold NewValidatingProxy_loaded.
    destruct loaded as [doc|e]; [|done].
    destruct (url_Parse upstreamURL) as [u|e]; [|done].
    destruct (gorillamux_NewRouter _) as [r re] eqn:Hrouter.
    intros [= <- <- <-]. exists doc, u. unfold servedSpec. rewrite Hrouter.
    by repeat split. }
  unfold NewValidatingProxy, specLoads.
  destruct (parseMode mode) as [m [e|]] eqn:Hmode; [done|].
  destruct (_ || _).
  - destruct (url_Parse specPath) as [specURL|e]; [|done].
    intros Hrun. destruct (Hloaded _ _ _ Hrun) as (doc & u & ? & ? & ? & ? & ?).
    exists m, doc, u. repeat split; try done. by exists specURL.
  - intros Hrun. destruct (Hloaded _ _ _ Hrun) as (doc & u & ? & ? & ? & ? & ?).
    by exists m, doc, u.
Qed.

(** X10. What a constructed proxy looks like: when the constructor returns
    a proxy, it returns no error; the mode of the proxy is one of strict,
    warn and report and is what [parseMode] made of the mode string; the
    logger is the handler on standard error with threshold Info and no
    bound attributes; [upstream] is the parsed upstream URL; the servers
    block of the spec is the upstream URL alone; the router is whatever the
    router constructor returned, its error being dropped; and exactly one
    loader call was made. *)
Theorem constructed_proxy_invariants
    (specPath upstreamURL mode : string) (p : ProxyValue Doc) (err : option error)
    (made : list LoaderCall) :
  NewValidatingProxy specPath upstreamURL mode = ((Some p, err), made) →
  err = None
  ∧ proxyMode p ∈ [ModeStrict; ModeWarn; ModeReport]
  ∧ parseMode mode = (proxyMode p, None)
  ∧ proxyLogger p = defaultHandler
  ∧ url_Parse upstreamURL = inl (upstream p)
  ∧ openapi3.Servers (spec p) = [openapi3.mkServer upstreamURL EmptyString ∅]
  ∧ proxyRouter p = fst (gorillamux_NewRouter (spec p))
  ∧ length made = 1%nat.
Proof.
  intros Hrun.
  destruct (NewValidatingProxy_success _ _ _ _ _ _ Hrun)
    as (m & doc & u & Hmode & _ & Hu & -> & -> & Hmade).
  pose proof (parseMode_valid _ _ _ Hmode) as Hvalid.
  by repeat split.
Qed.

(** X11. The constructor succeeds exactly when the mode is valid, the
    specification loads from the place its path names, and the upstream URL
    parses.  A failure of the router constructor is not among the
    conditions: its error is dropped, and the proxy is returned with the
    router that came with the error. *)
Theorem constructor_succeeds_iff (specPath upstreamURL mode : string) :
  (∃ p made, NewValidatingProxy specPath upstreamURL mode = ((Some p, None), made))
  ↔ (∃ m doc u,
       parseMode mode = (m, None)
       ∧ specLoads url_Parse Loader_LoadFromURI Loader_LoadFromFile specPath doc
       ∧ url_Parse upstreamURL = inl u).
Proof.
  split.
  - intros (p & made & Hrun).
    destruct (NewValidatingProxy_success _ _ _ _ _ _ Hrun)
      as (m & doc & u & Hmode & Hload & Hu & _).
    by exists m, doc, u.
  - intros (m & doc & u & Hmode & Hload & Hu).
    unfold NewValidatingProxy, specLoads in *. rewrite Hmode.
    destruct (_ || _).
    + destruct Hload as (specURL & -> & ->).
      unfold NewValidatingProxy_loaded. rewrite Hu.
      destruct (gorillamux_NewRouter _). by eexists _, _.
    + rewrite Hload. unfold NewValidatingProxy_loaded. rewrite Hu.
      destruct (gorillamux_NewRouter _). by eexists _, _.
Qed.

(** X12. The logger the constructor installs lets every record of the
    hook through.  So for a proxy the constructor returned (with a router),
    a JSON response from upstream for which the hook returns nil without a
    log record is a response the validator accepted: every JSON response
    that is skipped, undocumented or invalid leaves a record. *)
Theorem constructed_proxy_never_skips_silently
    (specPath upstreamURL mode : string) (p : ProxyValue Doc) (err : option error)
    (made : list LoaderCall) (vp : ValidatingProxy) (w w' : World) :
  NewValidatingProxy specPath upstreamURL mode = ((Some p, err), made) →
  hookFields p = Some vp →
  Body (resp w) = Upstream →
  isJSON (Header (resp w)) →
  validateResponse vp w = (None, w') →
  log w' = log w →
  ∃ route pathParams,
    router vp (Request (resp w)) = inl (route, pathParams)
    ∧ ValidateResponse (validationInput w route pathParams) = None
    ∧ copyResponse w' = copyResponse w.
Proof.
  intros Hnew Hview Hbody Hjson Hrun Hlog.
  destruct (NewValidatingProxy_success _ _ _ _ _ _ Hnew)
    as (m & doc & u & _ & _ & _ & _ & -> & _).
  unfold hookFields in Hview. simpl in Hview.
  destruct (fst (gorillamux_NewRouter _)) as [r|]; [|done].
  injection Hview as <-.
  pose proof (hook_outcome_run To_LowerCase ValidateResponse _ w _ _ Hbody Hrun) as Hout.
  destruct (silent_outcome To_LowerCase ValidateResponse _ w w' Hout Hjson eq_refl Hlog)
    as (route & pp & Hroute & Hvalid & Helig & ->).
  exists route, pp. repeat split; try done. by apply eligible_copyResponse.
Qed.

End Constructor.

Lemma constructed_proxy_invariants_witness :
  ∃ p made,
    NewValidatingProxy sampleLowerCase unit sampleParse sampleLoadFromURI
      sampleLoadFromFile failingNewRouter "openapi.yaml" "http://localhost:3000" "WARN"
    = ((Some p, None), made)
    ∧ proxyMode p = ModeWarn
    ∧ proxyLogger p = defaultHandler
    ∧ proxyRouter p = None
    ∧ made = [CallLoadFromFile "openapi.yaml"].
Proof.
  eexists _, _. split; [reflexivity|].
  destruct (constructed_proxy_invariants sampleLowerCase unit sampleParse sampleLoadFromURI
              sampleLoadFromFile failingNewRouter
              "openapi.yaml" "http://localhost:3000" "WARN" _ _ _ eq_refl)
    as (_ & _ & Hmode & Hlogger & _ & _ & Hrouter & _).
  split; [reflexivity|]. split; [exact Hlogger|]. split; [exact Hrouter | reflexivity].
Defined.

Lemma constructed_proxy_never_skips_silently_witness :
  ∃ route pathParams,
    resolving sampleRequest = inl (route, pathParams)
    ∧ accepting (validationInput (upstreamResponse 200 jsonHeader sampleBody)
                   route pathParams) = None.
Proof.
  destruct (constructed_proxy_never_skips_silently sampleLowerCase unit sampleParse
              sampleLoadFromURI sampleLoadFromFile workingNewRouter accepting
              "https://api.example.com/openapi.yaml" "https://api.example.com" "strict"
              _ _ _ (sampleProxy ModeStrict resolving)
              (upstreamResponse 200 jsonHeader sampleBody)
              (buffered (upstreamResponse 200 jsonHeader sampleBody))
              eq_refl eq_refl eq_refl jsonHeader_isJSON
              ltac:(vm_compute; reflexivity) eq_refl)
    as (route & pathParams & Hroute & Hvalid & _).
  by exists route, pathParams.
Defined.

(** ** validateSpecUpstreamMatch *)

Section SpecUpstreamMatch.
Variable url_Parse : string → url.URL + error.

Local Abbreviation validateSpecUpstreamMatch := (validateSpecUpstreamMatch url_Parse).

(** The check passes exactly for two URLs that parse and agree on host and
    scheme. *)
Lemma validateSpecUpstreamMatch_nil (specURL upstreamURL : string) :
  validateSpecUpstreamMatch specURL upstreamURL = None
  ↔ ∃ s u, url_Parse specURL = inl s ∧ url_Parse upstreamURL = inl u
           ∧ url.Host s = url.Host u ∧ url.Scheme s = url.Scheme u.
Proof.
  unfold validateSpecUpstreamMatch.
  destruct (url_Parse specURL) as [s|e1].
  2:{ split; [done | by intros (? & ? & ? & _)]. }
  destruct (url_Parse upstreamURL) as [u|e2].
  2:{ split; [done | by intros (? & ? & ? & ? & _)]. }
  rewrite !String_eqb_decide. split.
  - repeat case_bool_decide; try done. intros _. by exists s, u.
  - intros (s' & u' & [= <-] & [= <-] & Hhost & Hscheme).
    by rewrite !bool_decide_eq_true_2.
Qed.

(** X13. The check of [main] and the director of the proxy look at the
    same two components: [validateSpecUpstreamMatch] returns nil exactly
    when both URLs parse and the director would send every request to the
    same scheme and host for either of them as the upstream.  Path, query
    and user of the two URLs play no part. *)
Theorem spec_upstream_match_means_same_target (specURL upstreamURL : string) :
  validateSpecUpstreamMatch specURL upstreamURL = None
  ↔ ∃ s u, url_Parse specURL = inl s ∧ url_Parse upstreamURL = inl u
           ∧ ∀ req, Director s req = Director u req.
Proof.
  rewrite validateSpecUpstreamMatch_nil. split.
  - intros (s & u & Hs & Hu & Hhost & Hscheme). exists s, u.
    split; [done|]. split; [done|]. intros req. unfold Director.
    by rewrite Hhost, Hscheme.
  - intros (s & u & Hs & Hu & Hsame). exists s, u.
    split; [done|]. split; [done|].
    specialize (Hsame (mkOutgoing s EmptyString)).
    unfold Director in Hsame. by injection Hsame as -> ->.
Qed.

(** X14. On the URLs that parse, passing the check is an equivalence
    relation: a URL matches itself exactly when it parses, the check does
    not depend on which URL is the spec and which the upstream, and it is
    transitive. *)
Theorem spec_upstream_match_is_equivalence :
  (∀ a, validateSpecUpstreamMatch a a = None ↔ ∃ u, url_Parse a = inl u)
  ∧ (∀ a b, validateSpecUpstreamMatch a b = None →
            validateSpecUpstreamMatch b a = None)
  ∧ (∀ a b c, validateSpecUpstreamMatch a b = None →
              validateSpecUpstreamMatch b c = None →
              validateSpecUpstreamMatch a c = None).
Proof.
  split; [|split].
  - intros a. rewrite validateSpecUpstreamMatch_nil. split.
    + intros (s & _ & Hs & _). by exists s.
    + intros (u & Hu). by exists u, u.
  - intros a b. rewrite !validateSpecUpstreamMatch_nil.
    intros (s & u & Hs & Hu & Hhost & Hscheme). by exists u, s.
  - intros a b c. rewrite !validateSpecUpstreamMatch_nil.
    intros (s & u & Hs & Hu & Hhost & Hscheme) (u' & t & Hu' & Ht & Hhost' & Hscheme').
    rewrite Hu in Hu'. injection Hu' as <-.
    exists s, t. repeat split; try done; congruence.
Qed.

End SpecUpstreamMatch.

(** The cases of TestValidateSpecUpstreamMatch that do not depend on how
    [url.Parse] treats ports and malformed input. *)
Example match_same_origin :
  validateSpecUpstreamMatch sampleParse
    "https://api.example.com/spec.yaml" "https://api.example.com" = None.
Proof. reflexivity. Qed.

Example match_different_paths :
  validateSpecUpstreamMatch sampleParse
    "https://api.example.com/v1/spec.yaml" "https://api.example.com/v2" = None.
Proof. reflexivity. Qed.

Example match_different_schemes :
  validateSpecUpstreamMatch sampleParse
    "http://api.example.com/spec.yaml" "https://api.example.com"
  = Some "spec URL (http://api.example.com) does not match upstream URL (https://api.example.com)"%string.
Proof. reflexivity. Qed.

(** ** Trimming ASCII text *)

Lemma text_app (a b : list ascii) : text (a ++ b) = text a +:+ text b.
Proof. induction a as [|c a IH]; [done|]. simpl. by rewrite IH. Qed.

Lemma chars_app (a b : string) : chars (a +:+ b) = chars a ++ chars b.
Proof. induction a as [|c a IH]; [done|]. simpl. by rewrite IH. Qed.

Lemma chars_text (l : list ascii) : chars (text l) = l.
Proof. apply list_ascii_of_string_of_list_ascii. Qed.

Lemma text_chars (s : string) : text (chars s) = s.
Proof. apply string_of_list_ascii_of_string. Qed.

Lemma length_text (l : list ascii) : String.length (text l) = length l.
Proof. induction l as [|c l IH]; [done|]. simpl. by rewrite IH. Qed.

Lemma dropStr_text (a b : list ascii) : dropStr (length a) (text (a ++ b)) = text b.
Proof. induction a as [|c a IH]; [simpl; by destruct (text b)|]. simpl. exact IH. Qed.

Lemma takeStr_text (a b : list ascii) : takeStr (length a) (text (a ++ b)) = text a.
Proof.
  induction a as [|c a IH]; [simpl; by destruct (text b)|]. simpl. by rewrite IH.
Qed.

Lemma spaceChar_ascii (c : ascii) : spaceChar c → (utf8.RuneSelf <=? byteval c)%N = false.
Proof.
  unfold spaceChar, asciiSpace. cbn [existsb]. rewrite !orb_true_iff, !N.eqb_eq.
  intros H. apply N.leb_gt. unfold utf8.RuneSelf. lia.
Qed.

Lemma inkChar_ascii (c : ascii) : inkChar c → (utf8.RuneSelf <=? byteval c)%N = false.
Proof. intros [Hc _]. apply N.leb_gt. exact Hc. Qed.

Lemma scanStart_spaces (ws l : list ascii) (n : nat) :
  Forall spaceChar ws →
  scanStart (text (ws ++ l)) n = scanStart (text l) (n + length ws).
Proof.
  intros Hws. revert n. induction Hws as [|c ws Hc Hws IH]; intros n.
  - simpl. by rewrite Nat.add_0_r.
  - simpl. rewrite (spaceChar_ascii c Hc), Hc. simpl. rewrite IH. f_equal. lia.
Qed.

Lemma scanStart_ink (c : ascii) (l : list ascii) (n : nat) :
  inkChar c → scanStart (text (c :: l)) n = ScanStop n.
Proof. intros Hc. simpl. by rewrite (inkChar_ascii c Hc), (proj2 Hc). Qed.

Lemma scanStop_spaces (ws l : list ascii) (n : nat) :
  Forall spaceChar ws →
  scanStop (ws ++ l) n = scanStop l (n - length ws).
Proof.
  intros Hws. revert n. induction Hws as [|c ws Hc Hws IH]; intros n.
  - simpl. by rewrite Nat.sub_0_r.
  - simpl. rewrite (spaceChar_ascii c Hc), Hc. simpl. rewrite IH. f_equal. lia.
Qed.

Lemma scanStop_ink (c : ascii) (l : list ascii) (n : nat) :
  inkChar c → scanStop (c :: l) n = ScanStop n.
Proof. intros Hc. simpl. by rewrite (inkChar_ascii c Hc), (proj2 Hc). Qed.

Section TrimSpace.
Variable White_Space : N → bool.

Local Abbreviation strings_TrimSpace := (strings_TrimSpace White_Space).

(** [strings.TrimSpace] takes the ASCII white space off both ends of a text
    whose first and last other characters are ASCII. *)
Lemma TrimSpace_trimmed (before core after : list ascii) :
  Forall spaceChar before → Forall spaceChar after → trimmed core →
  strings_TrimSpace (text (before ++ core ++ after)) = text core.
Proof.
  intros Hb Ha Hcore. unfold strings_TrimSpace.
  destruct Hcore as [-> | [(c & l & -> & Hc) (c' & l' & Hrev & Hc')]].
  - assert (Hall : Forall spaceChar (before ++ after)) by (by apply Forall_app).
    change (before ++ [] ++ after) with (before ++ after).
    rewrite <- (app_nil_r (before ++ after)).
    rewrite scanStart_spaces by done. cbn [text scanStart Nat.add].
    rewrite dropStr_text. cbn [text chars rev scanStop].
    unfold sliceStr. rewrite dropStr_text, length_text, app_nil_r, Nat.sub_diag. done.
  - rewrite scanStart_spaces by done.
    change ((c :: l) ++ after) with (c :: (l ++ after)).
    rewrite scanStart_ink by done.
    change (c :: (l ++ after)) with ((c :: l) ++ after).
    cbn [Nat.add].
    rewrite dropStr_text, chars_text, rev_app_distr.
    rewrite scanStop_spaces by (by apply Forall_rev).
    rewrite Hrev, scanStop_ink by done.
    unfold sliceStr. rewrite dropStr_text.
    rewrite length_text, !length_app, length_rev.
    replace (_ - _ - _)%nat with (length (c :: l)) by (simpl; lia).
    apply takeStr_text.
Qed.

End TrimSpace.

(** Every ASCII text is white space, a trimmed text, white space. *)
Lemma leading_spaces (l : list ascii) :
  Forall (fun c => (byteval c < 0x80)%N) l →
  ∃ before t, l = before ++ t ∧ Forall spaceChar before
              ∧ (t = [] ∨ ∃ c l', t = c :: l' ∧ inkChar c).
Proof.
  induction 1 as [|c l Hc Hl (before & t & -> & Hb & Ht)].
  - exists [], []. split; [done|]. split; [constructor | by left].
  - destruct (asciiSpace (byteval c)) eqn:Hsp.
    + exists (c :: before), t. split; [done|]. split; [by constructor | done].
    + exists [], (c :: before ++ t). split; [done|]. split; [constructor|].
      right. by exists c, (before ++ t).
Qed.

Lemma trimmed_decomposition (l : list ascii) :
  Forall (fun c => (byteval c < 0x80)%N) l →
  ∃ before core after,
    l = before ++ core ++ after
    ∧ Forall spaceChar before ∧ Forall spaceChar after ∧ trimmed core.
Proof.
  intros Hl. destruct (leading_spaces l Hl) as (before & t & -> & Hb & Ht).
  apply Forall_app in Hl as [_ Ht_ascii].
  destruct (leading_spaces (rev t)) as (w & r & Hrev & Hw & Hr).
  { by apply Forall_rev. }
  assert (Ht_eq : t = rev r ++ rev w).
  { rewrite <- rev_app_distr, <- Hrev. by rewrite rev_involutive. }
  exists before, (rev r), (rev w). split; [by rewrite Ht_eq|].
  split; [done|]. split; [by apply Forall_rev|].
  destruct Hr as [-> | (c' & r' & -> & Hc')]; [by left|].
  right. split.
  - destruct Ht as [-> | (c & l' & -> & Hc)].
    + symmetry in Ht_eq. apply app_eq_nil in Ht_eq as [Hnil _].
      apply (f_equal (@length _)) in Hnil. rewrite length_rev in Hnil. done.
    + destruct (rev (c' :: r')) as [|c0 l0] eqn:Hcore.
      * apply (f_equal (@length _)) in Hcore. rewrite length_rev in Hcore. done.
      * injection Ht_eq as <- _. by exists c, l0.
  - exists c', r'. by rewrite rev_involutive.
Qed.

Lemma chars_mapBytes (f : ascii → ascii) (s : string) :
  chars (mapBytes f s) = map f (chars s).
Proof. induction s as [|c s IH]; [done|]. simpl. by rewrite IH. Qed.

Lemma mapBytes_text (f : ascii → ascii) (l : list ascii) :
  mapBytes f (text l) = text (map f l).
Proof. induction l as [|c l IH]; [done|]. simpl. by rewrite IH. Qed.

Lemma lowerByte_space (c : ascii) : spaceChar c → lowerByte c = c.
Proof.
  unfold spaceChar, asciiSpace, lowerByte, isUpperByte. cbn [existsb].
  rewrite !orb_true_iff, !N.eqb_eq. intros H.
  destruct (N.leb_spec 65 (byteval c)); [|done].
  destruct (N.leb_spec (byteval c) 90); [|done]. lia.
Qed.

Lemma lowerByte_ink (c : ascii) : inkChar c → inkChar (lowerByte c).
Proof.
  intros [Hc Hsp]. unfold lowerByte, isUpperByte.
  destruct (N.leb_spec 65 (byteval c)); [|done].
  destruct (N.leb_spec (byteval c) 90); [|done]. simpl.
  unfold inkChar. rewrite byteval_ascii_of_N by lia. split; [lia|].
  unfold asciiSpace. cbn [existsb]. rewrite !orb_false_iff, !N.eqb_neq.
  repeat split; lia.
Qed.

Lemma map_lowerByte_spaces (l : list ascii) :
  Forall spaceChar l → map lowerByte l = l.
Proof.
  induction 1 as [|c l Hc Hl IH]; [done|]. simpl. by rewrite lowerByte_space, IH.
Qed.

Lemma trimmed_lower (core : list ascii) : trimmed core → trimmed (map lowerByte core).
Proof.
  intros [-> | [(c & l & -> & Hc) (c' & l' & Hrev & Hc')]]; [by left|].
  right. split.
  - exists (lowerByte c), (map lowerByte l). split; [done | by apply lowerByte_ink].
  - exists (lowerByte c'), (map lowerByte l').
    split; [|by apply lowerByte_ink]. by rewrite <- map_rev, Hrev.
Qed.

Lemma isASCII_chars (s : string) :
  strings.isASCII s = true ↔ Forall (fun c => (byteval c < 0x80)%N) (chars s).
Proof.
  unfold strings.isASCII. induction s as [|c s IH]; simpl.
  - split; [constructor | done].
  - rewrite andb_true_iff, IH, N.ltb_lt, Forall_cons. done.
Qed.

Section Lowering.
Variable To_LowerCase : N → N.

Lemma strings_ToLower_ascii (s : string) :
  strings.isASCII s = true → strings_ToLower To_LowerCase s = mapBytes lowerByte s.
Proof.
  intros Hs. unfold strings_ToLower. rewrite Hs.
  destruct (strings.hasUpper s) eqn:Hup; simpl; [done|].
  by rewrite mapBytes_lower_id.
Qed.

End Lowering.

Lemma newline_space : spaceChar newline.
Proof. reflexivity. Qed.

Lemma word_trimmed (w : string) :
  w = "y"%string ∨ w = "yes"%string → trimmed (chars w).
Proof.
  intros [-> | ->]; right; split; eexists _, _; (split; [reflexivity|]);
    split; (reflexivity || (vm_compute; reflexivity)).
Qed.

Section Answers.
Variable To_LowerCase : N → N.
Variable White_Space : N → bool.

Local Abbreviation strings_TrimSpace := (strings_TrimSpace White_Space).
Local Abbreviation strings_ToLower := (strings_ToLower To_LowerCase).

(** The answers [main] takes for a yes. *)
Lemma response_affirmative (answer : string) :
  strings.isASCII answer = true →
  (let response :=
     strings_TrimSpace (strings_ToLower (answer +:+ String newline EmptyString)) in
   response = "y"%string ∨ response = "yes"%string)
  ↔ affirmative answer.
Proof.
  intros Hascii. cbv zeta.
  assert (Hline : strings.isASCII (answer +:+ String newline EmptyString) = true).
  { rewrite isASCII_app, Hascii. reflexivity. }
  rewrite strings_ToLower_ascii by done.
  split.
  - intros Hresp.
    destruct (trimmed_decomposition (chars answer))
      as (before & core & after & Hsplit & Hb & Ha & Hcore).
    { by apply isASCII_chars. }
    assert (Hlow : mapBytes lowerByte (answer +:+ String newline EmptyString)
                   = text (before ++ map lowerByte core ++ (after ++ [newline]))).
    { rewrite <- (text_chars (answer +:+ _)), mapBytes_text, chars_app, Hsplit.
      cbn [chars]. rewrite <- !app_assoc, !map_app.
      rewrite (map_lowerByte_spaces before), (map_lowerByte_spaces after) by done.
      reflexivity. }
    rewrite Hlow in Hresp.
    rewrite TrimSpace_trimmed in Hresp;
      [|done|apply Forall_app; split; [done | repeat constructor]|by apply trimmed_lower].
    rewrite <- mapBytes_text in Hresp.
    exists before, (text core), after. rewrite chars_text.
    split; [by rewrite <- Hsplit, text_chars|]. split; [done|]. split; [done|].
    destruct Hresp as [Hy | Hyes]; [left | right];
      by apply mapBytes_lower_asciiCaseVariant.
  - intros (before & word & after & -> & Hb & Ha & Hword).
    assert (Hw : ∃ w, (w = "y"%string ∨ w = "yes"%string) ∧ mapBytes lowerByte word = w).
    { destruct Hword as [Hv | Hv]; apply mapBytes_lower_asciiCaseVariant in Hv;
        try done; eexists; (split; [|exact Hv]); tauto. }
    destruct Hw as (w & Hw & Hlower).
    assert (Hlow : mapBytes lowerByte
                     (text (before ++ chars word ++ after) +:+ String newline EmptyString)
                   = text (before ++ chars w ++ (after ++ [newline]))).
    { rewrite <- (text_chars (_ +:+ _)), mapBytes_text, chars_app, chars_text.
      cbn [chars]. rewrite <- !app_assoc, !map_app.
      rewrite (map_lowerByte_spaces before), (map_lowerByte_spaces after) by done.
      rewrite <- chars_mapBytes, Hlower. reflexivity. }
    rewrite Hlow.
    rewrite TrimSpace_trimmed;
      [|done|apply Forall_app; split; [done | repeat constructor]|by apply word_trimmed].
    rewrite text_chars. exact Hw.
Qed.

End Answers.

(** ** main *)

Lemma byte_newline (c : ascii) : Byte.eqb (byte_of_ascii c) x0a = Ascii.eqb c newline.
Proof.
  destruct (Ascii.eqb_spec c newline) as [->|Hne]; [reflexivity|].
  destruct (Byte.eqb (byte_of_ascii c) x0a) eqn:Heq; [|done].
  apply Byte.byte_dec_bl in Heq. exfalso. apply Hne.
  rewrite <- (ascii_of_byte_of_ascii c), Heq. reflexivity.
Qed.

(** A line typed on the terminal is read up to its line feed. *)
Lemma readUntil_line (answer : string) (rest : list byte) :
  oneLine answer = true →
  readUntil x0a (bytes (answer +:+ String newline EmptyString) ++ rest)
  = Some (bytes (answer +:+ String newline EmptyString), rest).
Proof.
  unfold oneLine, bytes. induction answer as [|c answer IH]; [done|].
  cbn [allBytes]. intros [Hc Hrest]%andb_true_iff.
  change (list_byte_of_string (String c answer +:+ String newline EmptyString))
    with (byte_of_ascii c
            :: list_byte_of_string (answer +:+ String newline EmptyString)).
  cbn [app readUntil]. rewrite byte_newline.
  apply negb_true_iff in Hc. rewrite Hc. by rewrite IH.
Qed.

(** Input without a line feed is read to its end. *)
Lemma readUntil_none (typed : string) :
  oneLine typed = true → readUntil x0a (bytes typed) = None.
Proof.
  unfold oneLine, bytes. induction typed as [|c typed IH]; [done|].
  cbn [allBytes]. intros [Hc Hrest]%andb_true_iff.
  change (list_byte_of_string (String c typed))
    with (byte_of_ascii c :: list_byte_of_string typed).
  cbn [readUntil]. rewrite byte_newline.
  apply negb_true_iff in Hc. rewrite Hc. by rewrite IH.
Qed.

Section MainProperties.
Variable To_LowerCase : N → N.
Variable White_Space : N → bool.
Variable Doc : Type.
Variable url_Parse : string → url.URL + error.
Variable Loader_LoadFromURI : url.URL → openapi3.T Doc + error.
Variable Loader_LoadFromFile : string → openapi3.T Doc + error.
Variable gorillamux_NewRouter : openapi3.T Doc → option Router * option error.

Local Abbreviation parseMode := (parseMode To_LowerCase).
Local Abbreviation NewValidatingProxy :=
  (NewValidatingProxy To_LowerCase Doc url_Parse Loader_LoadFromURI Loader_LoadFromFile
     gorillamux_NewRouter).
Local Abbreviation validateSpecUpstreamMatch := (validateSpecUpstreamMatch url_Parse).
Local Abbreviation main_confirm := (main_confirm To_LowerCase White_Space Doc url_Parse).
Local Abbreviation main_serve :=
  (main_serve To_LowerCase Doc url_Parse Loader_LoadFromURI Loader_LoadFromFile
     gorillamux_NewRouter).
Local Abbreviation main :=
  (main To_LowerCase White_Space Doc url_Parse Loader_LoadFromURI Loader_LoadFromFile
     gorillamux_NewRouter).

(** What serving leaves of the process: standard input as it was, the
    loader calls of the constructor added, and the banner printed when the
    constructor succeeded; it never ends in [os.Exit]. *)
Lemma main_serve_process (specPath upstream port mode : string) (p : Process) :
  stdin (snd (main_serve specPath upstream port mode p)) = stdin p
  ∧ calls (snd (main_serve specPath upstream port mode p))
    = calls p ++ snd (NewValidatingProxy specPath upstream mode)
  ∧ (∀ code, fst (main_serve specPath upstream port mode p) ≠ Exit code)
  ∧ match snd (fst (NewValidatingProxy specPath upstream mode)) with
    | Some err =>
        fst (main_serve specPath upstream port mode p)
        = Fatal ("Failed to create proxy:" +:+ err)
        ∧ stdout (snd (main_serve specPath upstream port mode p)) = stdout p
    | None =>
        fst (main_serve specPath upstream port mode p)
        = ListenAndServe (":" +:+ port)
            (fst (fst (NewValidatingProxy specPath upstream mode)))
        ∧ stdout (snd (main_serve specPath upstream port mode p))
          = stdout p +:+ banner upstream port mode
    end.
Proof.
  unfold main_serve.
  destruct (NewValidatingProxy specPath upstream mode) as [[proxy [err|]] made]; simpl.
  - done.
  - repeat split; try done. unfold banner. by rewrite !append_assoc.
Qed.

(** X15. [main] asks nothing when the spec is a local file or its URL
    matches the upstream URL: it goes on to construct the proxy with
    standard input untouched, prints nothing but the banner (and that only
    when the constructor succeeded), and does not end in [os.Exit]. *)
Theorem main_asks_only_on_mismatch (specPath upstream port mode : string) (p : Process) :
  ¬ remoteSpec specPath ∨ validateSpecUpstreamMatch specPath upstream = None →
  main specPath upstream port mode p = main_serve specPath upstream port mode p
  ∧ stdin (snd (main specPath upstream port mode p)) = stdin p
  ∧ (stdout (snd (main specPath upstream port mode p)) = stdout p
     ∨ stdout (snd (main specPath upstream port mode p))
       = stdout p +:+ banner upstream port mode)
  ∧ (∀ code, fst (main specPath upstream port mode p) ≠ Exit code).
Proof.
  intros Hquiet.
  assert (Hconfirm : main_confirm specPath upstream p = (None, p)).
  { unfold main_confirm.
    destruct (strings.HasPrefix specPath "http://"
              || strings.HasPrefix specPath "https://") eqn:Hprefix; [|done].
    apply remoteSpec_prefix in Hprefix.
    destruct Hquiet as [Hlocal | ->]; done. }
  assert (Hmain : main specPath upstream port mode p
                  = main_serve specPath upstream port mode p).
  { unfold main. by rewrite Hconfirm. }
  rewrite Hmain.
  destruct (main_serve_process specPath upstream port mode p)
    as (Hin & _ & Hexit & Hout).
  split; [done|]. split; [done|]. split; [|done].
  destruct (snd (fst (NewValidatingProxy specPath upstream mode)));
    [left | right]; apply Hout.
Qed.

(** X16. When the spec URL does not match the upstream URL, [main] prints
    the warning and its question and reads one line.  For an ASCII answer
    it goes on exactly when the answer is y or yes in any capitalisation
    with white space around it at most; every other answer, the empty one
    included, ends the program with exit status 1 after the line Aborted.,
    before any specification is loaded. *)
Theorem confirmation_accepts_yes_only
    (specPath upstream port mode warning answer : string) (rest : list byte)
    (p : Process) :
  remoteSpec specPath →
  validateSpecUpstreamMatch specPath upstream = Some warning →
  unread (stdin p) = bytes (answer +:+ String newline EmptyString) ++ rest →
  strings.isASCII answer = true →
  oneLine answer = true →
  (affirmative answer →
   main specPath upstream port mode p
   = main_serve specPath upstream port mode (answered p warning rest))
  ∧ (¬ affirmative answer →
     main specPath upstream port mode p
     = (Exit 1,
        print ("Aborted." +:+ String newline EmptyString) (answered p warning rest))).
Proof.
  intros Hremote%remoteSpec_prefix Hwarn Hin Hascii Hline.
  pose proof (response_affirmative To_LowerCase White_Space answer Hascii) as Hiff.
  cbv zeta in Hiff.
  assert (Hconfirm :
    main_confirm specPath upstream p
    = let response :=
        strings_TrimSpace White_Space
          (strings_ToLower To_LowerCase (answer +:+ String newline EmptyString)) in
      if negb (String.eqb response "y") && negb (String.eqb response "yes")
      then (Some (Exit 1),
            print ("Aborted." +:+ String newline EmptyString) (answered p warning rest))
      else (None, answered p warning rest)).
  { unfold main_confirm. rewrite Hremote, Hwarn.
    unfold Reader_ReadString. cbn [print stdin stdout calls].
    rewrite Hin, readUntil_line by done.
    unfold bytes. rewrite string_of_list_byte_of_string.
    cbv zeta. unfold answered, asked. rewrite !append_assoc. reflexivity. }
  cbv zeta in Hconfirm. rewrite !String_eqb_decide in Hconfirm.
  unfold main. rewrite Hconfirm. split.
  - intros Hyes. apply Hiff in Hyes.
    repeat case_bool_decide; simpl; try done. tauto.
  - intros Hno. repeat case_bool_decide; simpl; try done; exfalso; apply Hno, Hiff; tauto.
Qed.

(** X17. An answer that is not ended by a line feed is fatal, whatever it
    says: when standard input ends (or fails) before a line feed, [main]
    ends in [log.Fatal] with the message "Failed to read user input:"
    followed by the error, EOF at the end of input, and loads nothing. *)
Theorem unterminated_answer_is_fatal
    (specPath upstream port mode warning typed : string) (p : Process) :
  remoteSpec specPath →
  validateSpecUpstreamMatch specPath upstream = Some warning →
  unread (stdin p) = bytes typed →
  oneLine typed = true →
  main specPath upstream port mode p
  = (Fatal ("Failed to read user input:"
              +:+ match failure (stdin p) with Some e => e | None => "EOF"%string end),
     mkProcess (mkStream [] (failure (stdin p))) (stdout p +:+ asked warning) (calls p)).
Proof.
  intros Hremote%remoteSpec_prefix Hwarn Hin Hline.
  unfold main, main_confirm. rewrite Hremote, Hwarn.
  unfold Reader_ReadString. cbn [print stdin stdout calls].
  rewrite Hin, readUntil_none by done.
  unfold asked. by rewrite !append_assoc.
Qed.

(** X18. Whenever [main] comes to serve, it serves on the port of the
    flag a proxy the constructor returned: the handler is not nil, its mode
    is one of strict, warn and report, its logger is the handler on
    standard error with threshold Info, the specification was loaded by
    exactly one loader call, and the last thing printed is the banner. *)
Theorem main_serves_constructed_proxy
    (specPath upstream port mode addr : string) (handler : option (ProxyValue Doc))
    (p p' : Process) :
  main specPath upstream port mode p = (ListenAndServe addr handler, p') →
  addr = ":" +:+ port
  ∧ (∃ proxy made,
       handler = Some proxy
       ∧ NewValidatingProxy specPath upstream mode = ((Some proxy, None), made)
       ∧ proxyMode proxy ∈ [ModeStrict; ModeWarn; ModeReport]
       ∧ proxyLogger proxy = defaultHandler
       ∧ length made = 1%nat
       ∧ ∃ before, calls p' = before ++ made)
  ∧ ∃ printed, stdout p' = printed +:+ banner upstream port mode.
Proof.
  intros Hmain.
  assert (Hserve : ∃ p1, main_serve specPath upstream port mode p1
                         = (ListenAndServe addr handler, p')).
  { unfold main in Hmain.
    destruct (main_confirm specPath upstream p) as [[ending|] p1] eqn:Hconfirm.
    - injection Hmain as -> <-. exfalso. revert Hconfirm. unfold main_confirm.
      repeat case_match; congruence.
    - by exists p1. }
  destruct Hserve as (p1 & Hserve).
  destruct (main_serve_process specPath upstream port mode p1)
    as (_ & Hcalls & _ & Hout).
  rewrite Hserve in Hcalls, Hout. simpl in Hcalls, Hout.
  destruct (NewValidatingProxy specPath upstream mode) as [[proxy err] made] eqn:Hnew.
  simpl in Hcalls, Hout.
  destruct err as [err|]; [by destruct Hout|].
  destruct Hout as [[= -> ->] Hstdout].
  split; [done|]. split; [|by exists (stdout p1)].
  destruct proxy as [proxy|].
  - destruct (NewValidatingProxy_success To_LowerCase Doc url_Parse Loader_LoadFromURI
                Loader_LoadFromFile gorillamux_NewRouter _ _ _ _ _ _ Hnew)
      as (m & doc & u & Hmode & _ & _ & _ & -> & Hmade).
    eexists _, made. repeat split; try done.
    + simpl. by apply (parseMode_valid To_LowerCase mode).
    + by exists (calls p1).
  - exfalso. revert Hnew. unfold NewValidatingProxy, NewValidatingProxy_loaded.
    repeat case_match; congruence.
Qed.

End MainProperties.

Lemma main_asks_only_on_mismatch_witness :
  stdin (snd (main sampleLowerCase sampleWhiteSpace unit sampleParse sampleLoadFromURI
                sampleLoadFromFile workingNewRouter
                "https://api.example.com/openapi.yaml" "https://api.example.com/v2"
                "8080" "warn" (terminal "no")))
  = stdin (terminal "no").
Proof.
  apply (main_asks_only_on_mismatch sampleLowerCase sampleWhiteSpace unit sampleParse
           sampleLoadFromURI sampleLoadFromFile workingNewRouter
           "https://api.example.com/openapi.yaml" "https://api.example.com/v2"
           "8080" "warn" (terminal "no")).
  right. reflexivity.
Defined.

Lemma Yes_affirmative : affirmative " Yes".
Proof.
  exists [" "%char], "Yes"%string, []. split; [reflexivity|].
  split; [by repeat constructor|]. split; [constructor|]. right.
  repeat constructor.
Qed.

Lemma confirmation_accepts_yes_only_witness :
  main sampleLowerCase sampleWhiteSpace unit sampleParse sampleLoadFromURI
    sampleLoadFromFile workingNewRouter
    "https://api.example.com/openapi.yaml" "http://localhost:3000" "8080" "warn"
    (terminal (" Yes" +:+ String newline EmptyString))
  = main_serve sampleLowerCase unit sampleParse sampleLoadFromURI
      sampleLoadFromFile workingNewRouter
      "https://api.example.com/openapi.yaml" "http://localhost:3000" "8080" "warn"
      (answered (terminal (" Yes" +:+ String newline EmptyString))
         "spec URL (https://api.example.com) does not match upstream URL (http://localhost:3000)"
         []).
Proof.
  apply (confirmation_accepts_yes_only sampleLowerCase sampleWhiteSpace unit sampleParse
           sampleLoadFromURI sampleLoadFromFile workingNewRouter
           "https://api.example.com/openapi.yaml" "http://localhost:3000" "8080" "warn"
           "spec URL (https://api.example.com) does not match upstream URL (http://localhost:3000)"
           " Yes" [] (terminal (" Yes" +:+ String newline EmptyString))).
  - exists "api.example.com/openapi.yaml"%string. by right.
  - reflexivity.
  - reflexivity.
  - reflexivity.
  - reflexivity.
  - exact Yes_affirmative.
Defined.

Lemma unterminated_answer_is_fatal_witness :
  fst (main sampleLowerCase sampleWhiteSpace unit sampleParse sampleLoadFromURI
         sampleLoadFromFile workingNewRouter
         "https://api.example.com/openapi.yaml" "http://localhost:3000" "8080" "warn"
         (terminal "y"))
  = Fatal "Failed to read user input:EOF".
Proof.
  rewrite (unterminated_answer_is_fatal sampleLowerCase sampleWhiteSpace unit sampleParse
             sampleLoadFromURI sampleLoadFromFile workingNewRouter
             "https://api.example.com/openapi.yaml" "http://localhost:3000" "8080" "warn"
             "spec URL (https://api.example.com) does not match upstream URL (http://localhost:3000)"
             "y" (terminal "y")).
  - reflexivity.
  - exists "api.example.com/openapi.yaml"%string. by right.
  - reflexivity.
  - reflexivity.
  - reflexivity.
Defined.

Lemma main_serves_constructed_proxy_witness :
  ∃ proxy made,
    NewValidatingProxy sampleLowerCase unit sampleParse sampleLoadFromURI
      sampleLoadFromFile workingNewRouter "openapi.yaml" "http://localhost:3000" "warn"
    = ((Some proxy, None), made)
    ∧ proxyMode proxy ∈ [ModeStrict; ModeWarn; ModeReport]
    ∧ proxyLogger proxy = defaultHandler.
Proof.
  destruct (main_serves_constructed_proxy sampleLowerCase sampleWhiteSpace unit
              sampleParse sampleLoadFromURI sampleLoadFromFile workingNewRouter
              "openapi.yaml" "http://localhost:3000" "8080" "warn" ":8080"
              (Some (mkProxyValue (servedSpec "http://localhost:3000" sampleDocument)
                       (sampleURL "http" "localhost:3000") ModeWarn defaultHandler
                       (Some resolving)))
              (terminal "")
              (snd (main sampleLowerCase sampleWhiteSpace unit sampleParse
                      sampleLoadFromURI sampleLoadFromFile workingNewRouter
                      "openapi.yaml" "http://localhost:3000" "8080" "warn"
                      (terminal ""))))
    as (_ & (proxy & made & _ & Hnew & Hmode & Hlogger & _) & _).
  - reflexivity.
  - by exists proxy, made.
Defined.

(** ** The bound of the backwards loop *)

Lemma length_takeStr (i : nat) (s : string) :
  (i ≤ String.length s)%nat → String.length (takeStr i s) = i.
Proof.
  revert s. induction i as [|i IH]; intros s Hi; [done|].
  destruct s as [|c s]; simpl in *; [lia|]. rewrite IH; lia.
Qed.

Lemma lastRuneStart_lt (s : string) (end_ : nat) :
  (1 ≤ end_)%nat → (lastRuneStart s end_ < end_)%nat.
Proof. intros Hend. unfold lastRuneStart. repeat case_match; lia. Qed.

(** On a text that is not empty, [utf8.DecodeLastRuneInString] reports a
    width of at least one byte. *)
Lemma DecodeLastRune_width (s : string) :
  (1 ≤ String.length s)%nat → (1 ≤ snd (utf8_DecodeLastRuneInString s))%nat.
Proof.
  intros Hlen. unfold utf8_DecodeLastRuneInString. cbv zeta.
  destruct (Nat.eqb_spec (String.length s) 0) as [?|_]; [lia|].
  destruct (_ <? _)%N; [done|].
  destruct (utf8.DecodeRuneInString _) as [r size].
  destruct (Nat.eqb_spec (lastRuneStart s (String.length s) + size) (String.length s))
    as [Heq|_]; simpl; [|done].
  pose proof (lastRuneStart_lt s (String.length s) Hlen). lia.
Qed.

(** The bound on the rounds of [lastIndexFunc_loop] never cuts the loop
    short: any bound of at least [i] gives the same result. *)
Lemma lastIndexFunc_loop_bound (s : string) (f : N → bool) (truth : bool) (n m i : nat) :
  (i ≤ String.length s)%nat → (i ≤ n)%nat → (i ≤ m)%nat →
  lastIndexFunc_loop n s f truth i = lastIndexFunc_loop m s f truth i.
Proof.
  revert m i. induction n as [|n IH]; intros m i Hs Hn Hm.
  - replace i with 0%nat by lia. by destruct m.
  - destruct m as [|m]; [replace i with 0%nat by lia; done|].
    cbn [lastIndexFunc_loop].
    destruct (Nat.eqb_spec i 0) as [?|Hi]; [done|].
    pose proof (DecodeLastRune_width (takeStr i s)) as Hw.
    rewrite length_takeStr in Hw by done.
    destruct (utf8_DecodeLastRuneInString (takeStr i s)) as [r size].
    simpl in Hw. destruct (Bool.eqb (f r) truth); [done|].
    apply IH; lia.
Qed.

(** ** What the logger and the mode can change *)

Section NonInterference.
Variable To_LowerCase : N → N.
Variable ValidateResponse : ResponseValidationInput → option error.

Local Abbreviation validateResponse := (validateResponse To_LowerCase ValidateResponse).
Local Abbreviation ReverseProxy_respond :=
  (ReverseProxy_respond To_LowerCase ValidateResponse).
Local Abbreviation validationFails := (validationFails ValidateResponse).
Local Abbreviation hookOutcome := (hookOutcome To_LowerCase ValidateResponse).

(** X22. Logging never changes the response: two proxies that differ in
    their logger only return the same result from the hook, leave the same
    response object and the same stream behind, and give the client the
    same response; only the log may differ. *)
Theorem logger_does_not_affect_response
    (m : Mode) (l1 l2 : ColoredHandler) (r : Router) (w : World) :
  fst (validateResponse (mkValidatingProxy m l1 r) w)
  = fst (validateResponse (mkValidatingProxy m l2 r) w)
  ∧ resp (snd (validateResponse (mkValidatingProxy m l1 r) w))
    = resp (snd (validateResponse (mkValidatingProxy m l2 r) w))
  ∧ conn (snd (validateResponse (mkValidatingProxy m l1 r) w))
    = conn (snd (validateResponse (mkValidatingProxy m l2 r) w))
  ∧ fst (ReverseProxy_respond (mkValidatingProxy m l1 r) w)
    = fst (ReverseProxy_respond (mkValidatingProxy m l2 r) w).
Proof.
  assert (Hhook :
    fst (validateResponse (mkValidatingProxy m l1 r) w)
    = fst (validateResponse (mkValidatingProxy m l2 r) w)
    ∧ resp (snd (validateResponse (mkValidatingProxy m l1 r) w))
      = resp (snd (validateResponse (mkValidatingProxy m l2 r) w))
    ∧ conn (snd (validateResponse (mkValidatingProxy m l1 r) w))
      = conn (snd (validateResponse (mkValidatingProxy m l2 r) w))).
  { unfold validateResponse. hook_steps. cbn [mode logger router].
    destruct (negb _); [done|].
    destruct (if negb _ then _ else None) as [size|].
    { simpl. by rewrite !emit_resp, !emit_conn. }
    destruct (Body (resp w)) as [|data].
    - destruct (readAllLimited (maxSize + 1) (conn w)) as [[bodyBytes err] s'].
      repeat case_match; simpl; by rewrite ?emit_resp, ?emit_conn.
    - destruct (readAllLimited (maxSize + 1) (mkStream data None)) as [[bodyBytes err] s'].
      repeat case_match; simpl; by rewrite ?emit_resp, ?emit_conn. }
  destruct Hhook as (Herr & Hresp & Hconn).
  split; [done|]. split; [done|]. split; [done|].
  unfold ReverseProxy_respond.
  destruct (validateResponse (mkValidatingProxy m l1 r) w) as [e1 w1].
  destruct (validateResponse (mkValidatingProxy m l2 r) w) as [e2 w2].
  simpl in *. subst e2. destruct e1; [done|]. simpl.
  unfold copyResponse. by rewrite Hresp, Hconn.
Qed.

(** X23. The mode matters for responses that fail validation and for no
    others: on an upstream response that does not fail validation, two
    proxies that differ in their mode only behave alike, result, response,
    stream and log. *)
Theorem mode_matters_only_on_validation_failure
    (m1 m2 : Mode) (l : ColoredHandler) (r : Router) (w : World) :
  Body (resp w) = Upstream →
  (∀ d, ¬ validationFails (mkValidatingProxy m1 l r) w d) →
  validateResponse (mkValidatingProxy m1 l r) w
  = validateResponse (mkValidatingProxy m2 l r) w.
Proof.
  intros Hbody Hok.
  pose proof (hook_outcome To_LowerCase ValidateResponse
                (mkValidatingProxy m1 l r) w Hbody) as Hout.
  destruct (validateResponse (mkValidatingProxy m1 l r) w) as [e1 w1].
  simpl in Hout. symmetry.
  inversion Hout as [Hct | size Hjson Hparse Hgt | Hjson Hdecl Hgt
                     | e Hjson Hdecl Hle Hfail | msg Helig Hroute Hundoc
                     | msg Helig Hroute Hundoc | route pp Helig Hroute Hvalid
                     | d Hfails]; subst.
  - by apply path_not_json.
  - by apply (path_declared_too_large _ _ (mkValidatingProxy m2 l r)).
  - by apply (path_read_too_large _ _ (mkValidatingProxy m2 l r)).
  - by apply (path_read_error _ _ (mkValidatingProxy m2 l r)).
  - by apply (path_undocumented _ _ (mkValidatingProxy m2 l r) w msg).
  - by apply (path_route_error _ _ (mkValidatingProxy m2 l r) w msg).
  - by apply (path_valid _ _ (mkValidatingProxy m2 l r) w route pp).
  - by destruct (Hok d).
Qed.

End NonInterference.

Lemma mode_matters_only_on_validation_failure_witness :
  validateResponse sampleLowerCase accepting
    (mkValidatingProxy ModeStrict defaultHandler resolving)
    (upstreamResponse 200 jsonHeader sampleBody)
  = validateResponse sampleLowerCase accepting
      (mkValidatingProxy ModeReport defaultHandler resolving)
      (upstreamResponse 200 jsonHeader sampleBody).
Proof.
  apply (mode_matters_only_on_validation_failure sampleLowerCase accepting
           ModeStrict ModeReport defaultHandler resolving
           (upstreamResponse 200 jsonHeader sampleBody)).
  - reflexivity.
  - intros d (_ & route & pathParams & _ & Hvalid). discriminate.
Defined.
